(** * sboptimizeassets: the PNG variant engine of [service/png_optimizer.go]
      and the directory walk of [service/assets_optimizer.go]

    A shallow embedding of the colour classifier, the palette builders, the
    variant generators, the selector [variantsList.best], the commit step
    [Optimize]/[savePNG] and the walk [walkerFn]/[Run], followed by the
    properties established about them.

    Conventions.
    - Go's [uint] is taken 64 bits wide; its arithmetic is written out on [Z]
      with the wrap-around modulo [2^64].
    - A [uint8] channel is a [Byte.byte]; a Go string is a [string], read as
      its bytes.
    - A Go [map] is a [gmap] (or a [gset] for [map[K]struct{}]); the order in
      which [for k := range m] yields the keys is not fixed by the language
      and is therefore a parameter of the model.
    - [bytes.Buffer] contents are lists of bytes; [Len()] is [length].
    - The codec ([png.Decode], [png.Encoder.Encode]) and [draw.Draw] belong
      to the Go standard library and are parameters of the model. Two facts
      about them are written out for the properties that depend on them:
      the encoder refuses an image without pixels ([refusesEmpty]), and
      [draw.Draw] into a paletted image stores the index found by the
      closest-colour search of [drawPaletted] ([drawIndex]).
    - [sort.Sort] and [sort.Slice] (go 1.19 and later) sort a slice of at
      most 12 elements by [insertionSort], which is written out; the path
      taken by longer slices is a parameter, and [GoSort.PdqRun] describes
      what a run of [pdqsort] may do.
    - The operating system calls of the commit step act on a map from paths
      to contents and fail or succeed as an [io] record says.
    - [filepath.Ext] and the ASCII path of [strings.ToLower] are written out;
      [filepath.Rel] and the Unicode path of [strings.ToLower] are
      parameters; [filepath.Walk] is the sequence of calls it makes to the
      callback, ended by the first error. *)

From Stdlib Require Import ZArith Lia.
From Stdlib.Strings Require Import Byte.
From stdpp Require Import base numbers option list gmap strings sorting.

Local Open Scope Z_scope.
Set Warnings "-clear-no-such-hyp".

(** ** Machine integers *)

Module U64.

Definition modulus : Z := 2 ^ 64.

(** [uint] wrap-around. *)
Definition wrap (z : Z) : Z := z mod modulus.

Definition add (a b : Z) : Z := wrap (a + b).

Definition sub (a b : Z) : Z := wrap (a - b).

Definition in_range (z : Z) : Prop := 0 <= z < modulus.

End U64.

(** ** Colours ([image/color]) *)

(** [math.MaxUint8] and [math.MaxUint16]. *)
Definition MaxUint8 : Z := 255.
Definition MaxUint16 : Z := 65535.

(** The numeric value of a [uint8]. *)
Definition u8 (b : byte) : Z := Z.of_N (Byte.to_N b).

#[global] Instance byte_eq_dec : EqDecision byte.
Proof. exact Byte.byte_eq_dec. Defined.

#[global] Instance byte_countable : Countable byte.
Proof.
  refine (inj_countable Byte.to_N Byte.of_N _).
  intros b. apply Byte.of_to_N.
Defined.

(** [color.NRGBA]: non-premultiplied 8-bit channels. *)
Record NRGBA : Type := mkNRGBA { cR : byte; cG : byte; cB : byte; cA : byte }.

#[global] Instance NRGBA_eq_dec : EqDecision NRGBA.
Proof. solve_decision. Defined.

#[global] Instance NRGBA_countable : Countable NRGBA.
Proof.
  refine (inj_countable'
            (fun c => (cR c, cG c, cB c, cA c))
            (fun t => match t with (r, g, b, a) => mkNRGBA r g b a end) _).
  by intros [].
Defined.

(** [color.RGBA]: alpha-premultiplied 8-bit channels. *)
Record RGBA : Type := mkRGBA { pR : byte; pG : byte; pB : byte; pA : byte }.

(** The dynamic type behind a [color.Color] stored in a [color.Palette]. *)
Inductive Color : Type :=
| ColNRGBA (c : NRGBA)
| ColRGBA (c : RGBA)
| ColGray (y : byte).

(** [Color.RGBA()]: the 16-bit alpha-premultiplied channels, as the three
    methods of [image/color] compute them. *)
Definition widen (b : byte) : Z := Z.lor (u8 b) (Z.shiftl (u8 b) 8).

Definition Color_RGBA (c : Color) : Z * Z * Z * Z :=
  match c with
  | ColNRGBA c =>
      (widen (cR c) * u8 (cA c) / 255,
       widen (cG c) * u8 (cA c) / 255,
       widen (cB c) * u8 (cA c) / 255,
       widen (cA c))
  | ColRGBA c => (widen (pR c), widen (pG c), widen (pB c), widen (pA c))
  | ColGray y => (widen y, widen y, widen y, 65535)
  end.

(** ** Images ([image]) *)

(** [image.Rectangle]. *)
Record Rectangle : Type := mkRect { MinX : Z; MinY : Z; MaxX : Z; MaxY : Z }.

Definition Dx (r : Rectangle) : Z := MaxX r - MinX r.
Definition Dy (r : Rectangle) : Z := MaxY r - MinY r.

(** [image.Rect(0, 0, w, h)] for [w, h >= 0]. *)
Definition Rect0 (w h : Z) : Rectangle := mkRect 0 0 w h.

(** A raster: bounds and the pixel accessor ([NRGBAAt], [GrayAt],
    [ColorIndexAt], ...). *)
Record raster (C : Type) : Type := mkRaster { Bounds : Rectangle; At : Z -> Z -> C }.
Arguments mkRaster {C} _ _.
Arguments Bounds {C} _.
Arguments At {C} _ _ _.

(** [for v := lo; v < hi; v++]: the values taken by the loop variable. *)
Definition zrange (lo hi : Z) : list Z :=
  (fun i : nat => lo + Z.of_nat i) <$> seq 0 (Z.to_nat (hi - lo)).

(** The pixels of a raster in the order of the nested [y]/[x] loops used
    throughout the optimizer. *)
Definition scan {C} (img : raster C) : list C :=
  y ← zrange (MinY (Bounds img)) (MaxY (Bounds img));
  x ← zrange (MinX (Bounds img)) (MaxX (Bounds img));
  [At img x y].

(** ** Errors *)

(** Go [error] values: the package's own sentinel, an error produced outside
    the package (operating system, codec), a [fmt.Errorf("...: %w", err)]
    wrapper, and a run-time panic. *)
Inductive error : Type :=
| errNoVariants
| External (msg : string)
| Wrapped (context : string) (cause : error)
| Panic (msg : string).

Inductive result (A : Type) : Type :=
| Ok (a : A)
| Err (e : error).
Arguments Ok {A} _.
Arguments Err {A} _.

#[global] Instance result_ret : MRet result := fun _ a => Ok a.
#[global] Instance result_bind : MBind result := fun _ _ f m =>
  match m with
  | Ok a => f a
  | Err e => Err e
  end.

(** [if err != nil { return ..., fmt.Errorf(context + ": %w", err) }] *)
Definition wrapErr {A} (context : string) (r : string + A) : result A :=
  match r with
  | inr a => Ok a
  | inl msg => Err (Wrapped context (External msg))
  end.

(** ** [sort.Sort] and [sort.Slice] *)

Module GoSort.
Section Defs.
Context {A : Type}.
(** [less x y] is [data.Less(i, j)] when [x] and [y] are the elements at
    indices [i] and [j]. *)
Variable less : A -> A -> bool.

(** [data.Less(i, j)]; the indices used by [insertionSort] are always in
    range (out of range Go would panic). *)
Definition lessAt (l : list A) (i j : nat) : bool :=
  match l !! i, l !! j with
  | Some x, Some y => less x y
  | _, _ => false
  end.

(** [data.Swap(i, j)]. *)
Definition swap (l : list A) (i j : nat) : list A :=
  match l !! i, l !! j with
  | Some x, Some y => <[i := y]> (<[j := x]> l)
  | _, _ => l
  end.

(** The inner loop of [insertionSort] with [a = 0]:
    [for j := i; j > a && data.Less(j, j-1); j-- { data.Swap(j, j-1) }]. *)
Fixpoint siftLeft (l : list A) (j : nat) : list A :=
  match j with
  | O => l
  | S j' => if lessAt l j j' then siftLeft (swap l j j') j' else l
  end.

(** [insertionSort(data, 0, n)]:
    [for i := a + 1; i < b; i++ { (inner loop) }]. *)
Definition insertionSort (l : list A) : list A :=
  foldl siftLeft l (seq 1 (length l - 1)).

(** [const maxInsertion = 12] of [pdqsort]. *)
Definition maxInsertion : nat := 12.

(** [sort.Sort(data)] (and [sort.Slice], which runs the same algorithm
    through [lessSwap]): [pdqsort(data, 0, n, limit)] starts with
    [if length <= maxInsertion { insertionSort(data, a, b); return }].
    The path taken by longer slices is the parameter [long]. *)
Definition Sort (long : list A -> list A) (l : list A) : list A :=
  if (length l <=? maxInsertion)%nat then insertionSort l else long l.

(** The same insertion written on the list itself: [x] travels left
    through the already processed prefix, held in reverse. *)
Fixpoint insertRev (x : A) (rp : list A) : list A :=
  match rp with
  | [] => [x]
  | y :: rp' => if less x y then y :: insertRev x rp' else x :: rp
  end.

Definition sortRev (l : list A) : list A :=
  foldl (fun rp x => insertRev x rp) [] l.

(** A reversed prefix in which no element satisfying [P] is followed by
    one that does not. *)
Definition blockRev (P : A -> bool) (rp : list A) : Prop :=
  StronglySorted (fun a b => P a = true -> P b = true) rp.

(** [siftDown(data, lo, hi, first)] with [first = 0]:
    [root := lo; for { child := 2*root + 1; if child >= hi { return };
       if child+1 < hi && data.Less(first+child, first+child+1) { child++ };
       if !data.Less(first+root, first+child) { return };
       data.Swap(first+root, first+child); root = child }].
    [root] grows at every turn, so [hi - lo] turns are enough. *)
Fixpoint siftDown_loop (fuel : nat) (l : list A) (root hi : nat) : list A :=
  match fuel with
  | O => l
  | S fuel' =>
      let child := (2 * root + 1)%nat in
      if (hi <=? child)%nat then l
      else
        let child :=
          if (child + 1 <? hi)%nat && lessAt l child (child + 1)
          then (child + 1)%nat else child in
        if negb (lessAt l root child) then l
        else siftDown_loop fuel' (swap l root child) child hi
  end.

Definition siftDown (l : list A) (lo hi : nat) : list A :=
  siftDown_loop (hi - lo) l lo hi.

(** [heapSort(data, 0, n)]:
    [for i := (hi - 1) / 2; i >= 0; i-- { siftDown(data, i, hi, first) }
     for i := hi - 1; i >= 0; i-- { data.Swap(first, first+i); siftDown(data, lo, i, first) }]. *)
Definition heapify (l : list A) : list A :=
  foldl (fun l i => siftDown l i (length l)) l
        (reverse (seq 0 ((length l - 1) / 2 + 1))).

Definition popAll (l : list A) : list A :=
  foldl (fun l i => siftDown (swap l 0 i) 0 i) l (reverse (seq 0 (length l))).

Definition heapSort (l : list A) : list A := popAll (heapify l).

(** The runs of [partialInsertionSort(data, a, b)] that return [true], on
    the segment [data[a:b]] split into the part already scanned and the rest;
    [pred] is [data[a-1]] when [a > 0].
    - [partial_scan]: [!Less(i, i-1)], the scan moves on;
    - [partial_shift]: [Less(i, i-1)]; after [Swap(i, i-1)] the smaller
      element travels left as in [insertionSort] and the greater one is
      moved somewhere to the right; the scan resumes at [i];
    - [partial_done]: the scan has reached [b].
    The left shift is written [for j := i - 1; j >= 1; j--]: it stops at the
    start of the segment only because [Less(a, a-1)] fails there, which is
    the side condition of [partial_shift]. The bounds [maxSteps] and
    [shortestShifting] are left open. *)
Inductive PartialRun : option A -> list A -> list A -> list A -> Prop :=
| partial_done pred p :
    PartialRun pred p [] p
| partial_scan pred p y x r out :
    last p = Some y ->
    less x y = false ->
    PartialRun pred (p ++ [x]) r out ->
    PartialRun pred p (x :: r) out
| partial_shift pred p' y x r p1 rest' out :
    less x y = true ->
    p1 = reverse (insertRev x (reverse p')) ->
    (forall p0, pred = Some p0 -> head p1 = Some x -> less x p0 = false) ->
    rest' ≡ₚ y :: r ->
    PartialRun pred p1 rest' out ->
    PartialRun pred (p' ++ [y]) (x :: r) out.

(** The runs of [pdqsort(data, a, b, limit)] on the segment [data[a:b]],
    [pred] being [data[a-1]] when [a > 0]. Every choice that depends on
    [limit], on the pivot selection or on the pattern breaking is left open:
    - the segment is sorted by [insertionSort] or by [heapSort];
    - [partialInsertionSort] returns [true];
    - [partition] around a pivot: the elements below the pivot, the pivot,
      the others; both sides are sorted in turn, the right one with the pivot
      before it;
    - [partitionEqual], taken when [!Less(a-1, pivot)]: the pivot and the
      elements the pivot is not below are left where [partitionEqual] put
      them, and the remaining elements are sorted.
    [breakPatterns], [reverseRange] and an unsuccessful
    [partialInsertionSort] only rearrange the segment beforehand. *)
Inductive PdqRun : option A -> list A -> list A -> Prop :=
| pdq_insertion pred l :
    PdqRun pred l (insertionSort l)
| pdq_heap pred l :
    PdqRun pred l (heapSort l)
| pdq_partial pred l x0 r0 out :
    l ≡ₚ x0 :: r0 ->
    PartialRun pred [x0] r0 out ->
    PdqRun pred l out
| pdq_partition pred l left pv right outL outR :
    l ≡ₚ left ++ pv :: right ->
    Forall (fun x => less x pv = true) left ->
    Forall (fun x => less x pv = false) right ->
    PdqRun pred left outL ->
    PdqRun (Some pv) right outR ->
    PdqRun pred l (outL ++ pv :: outR)
| pdq_partition_equal p0 l pv eqs rest e out :
    l ≡ₚ (pv :: eqs) ++ rest ->
    less p0 pv = false ->
    Forall (fun x => less pv x = false) eqs ->
    Forall (fun x => less pv x = true) rest ->
    last (pv :: eqs) = Some e ->
    PdqRun (Some e) rest out ->
    PdqRun (Some p0) l ((pv :: eqs) ++ out).

(** The elements satisfying [P] come first. *)
Definition blockFirst (P : A -> bool) (l : list A) : Prop :=
  StronglySorted (fun a b => P b = true -> P a = true) l.

(** The same with indices, from index [k] on. *)
Definition Dom (P : A -> bool) (l : list A) (k : nat) : Prop :=
  forall (j j' : nat) x y, (j < j')%nat -> (k <= j')%nat ->
    l !! j = Some x -> l !! j' = Some y -> P y = true -> P x = true.

(** The children of node [i] in the implicit binary tree of [heapSort]. *)
Definition isChild (i c : nat) : Prop := c = (2 * i + 1)%nat \/ c = (2 * i + 2)%nat.

(** Heap shape with respect to [P]: below a node satisfying [P] every child
    (within [hi]) satisfies [P]. *)
Definition HeapAt (P : A -> bool) (l : list A) (hi i : nat) : Prop :=
  forall (c : nat) x y, isChild i c -> (c < hi)%nat ->
    l !! i = Some x -> l !! c = Some y -> P x = true -> P y = true.

Definition PHeap (P : A -> bool) (l : list A) (lo hi : nat) : Prop :=
  forall i : nat, (lo <= i)%nat -> HeapAt P l hi i.

(** The first [hi] elements of [l'] are taken from the first [hi] of [l]. *)
Definition SegFrom (l' l : list A) (hi : nat) : Prop :=
  forall (j : nat) x, (j < hi)%nat -> l' !! j = Some x ->
    exists j0 : nat, (j0 < hi)%nat /\ l !! j0 = Some x.
End Defs.
End GoSort.

(** ** The optimizer *)

(** [image.Paletted]: index raster and palette. *)
Record Paletted : Type := mkPaletted { Pix : raster byte; Palette : list Color }.

(** The concrete image types [png.Decode] returns (go 1.20), i.e. the cases
    of the type switch in [Optimize]. *)
Inductive Image : Type :=
| ImgRGBA (v : raster RGBA)
| ImgNRGBA (v : raster NRGBA)
| ImgPaletted (v : Paletted)
| ImgGray (v : raster byte)
| ImgGray16 (v : raster Z)
| ImgRGBA64 (v : raster (Z * Z * Z * Z))
| ImgNRGBA64 (v : raster (Z * Z * Z * Z)).

(** [variant] and [variantsList]. *)
Definition variant : Type := list byte * string.
Definition variantsList : Type := list variant.

(** [variantsList.best]. *)
Fixpoint best_loop (cur : variant) (rest : variantsList) : variant :=
  match rest with
  | [] => cur
  | vv :: rest' =>
      if (length vv.1 <? length cur.1)%nat then best_loop vv rest'
      else best_loop cur rest'
  end.

Definition best (v : variantsList) : result variant :=
  match v with
  | [] => Err errNoVariants
  | v0 :: rest => Ok (best_loop v0 rest)
  end.

(** [uint8(z)]. *)
Definition byte_of_Z (z : Z) : byte :=
  default x00 (Byte.of_N (Z.to_N (z mod 256))).

(** [Point{x, y}.In(r)]. *)
Definition inRect (r : Rectangle) (x y : Z) : bool :=
  (MinX r <=? x) && (x <? MaxX r) && (MinY r <=? y) && (y <? MaxY r).

(** Result of [countNRGBAColors], with the colour set kept. *)
Record nrgbaStats : Type := mkStats {
  colorsSeen : gset NRGBA;
  hasTransparent : bool;
  hasPartAlpha : bool;
  isGray : bool
}.

(** The body of the pixel loop of [countNRGBAColors]. *)
Definition countStep (st : nrgbaStats) (c : NRGBA) : nrgbaStats :=
  {| colorsSeen := {[c]} ∪ colorsSeen st;
     isGray :=
       if bool_decide (cR c ≠ cG c) || bool_decide (cR c ≠ cB c)
          || bool_decide (cG c ≠ cB c)
       then false else isGray st;
     hasTransparent :=
       if u8 (cA c) <? MaxUint8
       then (if u8 (cA c) =? 0 then true else hasTransparent st)
       else hasTransparent st;
     hasPartAlpha :=
       if u8 (cA c) <? MaxUint8
       then (if u8 (cA c) =? 0 then hasPartAlpha st else true)
       else hasPartAlpha st |}.

Definition countInit : nrgbaStats :=
  {| colorsSeen := ∅; hasTransparent := false; hasPartAlpha := false;
     isGray := true |}.

Definition countNRGBAStats (img : raster NRGBA) : nrgbaStats :=
  foldl countStep countInit (scan img).

(** [countNRGBAColors]: [(n, hasTransparent, hasPartAlpha, isGray)]. *)
Definition countNRGBAColors (img : raster NRGBA) : Z * bool * bool * bool :=
  let st := countNRGBAStats img in
  (Z.of_nat (size (colorsSeen st)), hasTransparent st, hasPartAlpha st, isGray st).

(** [colors[c]] on a [map[K]uint]: the zero value when the key is absent. *)
Definition freq `{Countable K} (colors : gmap K Z) (c : K) : Z :=
  default 0 (colors !! c).

(** [colors[c] = colors[c] + 1]. *)
Definition bump `{Countable K} (colors : gmap K Z) (c : K) : gmap K Z :=
  <[c := U64.add (freq colors c) 1]> colors.

(** The frequency table built by the first loop of [paletteFromNRGBA] and of
    [paletteFromGray]. *)
Definition frequencies `{Countable K} (pixels : list K) : gmap K Z :=
  foldl bump ∅ pixels.

(** [nrgbaPaletteSorter.Less], on the colours at the two indices. *)
Definition nrgbaPaletteSorter_Less (colors : gmap NRGBA Z) (ci cj : NRGBA) : bool :=
  if u8 (cA ci) =? u8 (cA cj) then
    0 <? U64.sub (freq colors ci) (freq colors cj)
  else if u8 (cA ci) =? 0 then true
  else if u8 (cA cj) =? 0 then false
  else if (u8 (cA ci) <? MaxUint8) && (u8 (cA cj) =? MaxUint8) then true
  else if ((u8 (cA ci) <? MaxUint8) && (u8 (cA cj) <? MaxUint8))
          || ((u8 (cA ci) =? MaxUint8) && (u8 (cA cj) =? MaxUint8))
  then 0 <? U64.sub (freq colors ci) (freq colors cj)
  else false.

(** The three categories of the ordering: 0 for fully transparent
    ([A == 0]), 1 for translucent ([0 < A < MaxUint8]), 2 for opaque. *)
Definition category (c : NRGBA) : nat :=
  if u8 (cA c) =? 0 then 0%nat else if u8 (cA c) <? MaxUint8 then 1%nat else 2%nat.

(** The comparison closure given to [sort.Slice] in [paletteFromGray]. *)
Definition grayLess (colors : gmap byte Z) (ci cj : byte) : bool :=
  0 <? U64.sub (freq colors ci) (freq colors cj).

(** [isGrayPalette]. *)
Definition isGrayPalette (palette : list Color) : bool :=
  forallb (fun c =>
             let '(r, g, b, a) := Color_RGBA c in
             negb ((a <? MaxUint16) || negb (r =? g) || negb (r =? b)
                   || negb (g =? b)))
          palette.

(** [nrgba2gray]: a fresh [image.Gray] of the same size whose sample at
    [(dx, dy)] is the red channel of the source pixel. *)
Definition nrgba2gray (img : raster NRGBA) : raster byte :=
  let b := Bounds img in
  let r := Rect0 (Dx b) (Dy b) in
  mkRaster r (fun x y =>
    if inRect r x y then cR (At img (MinX b + x) (MinY b + y)) else x00).

(** [paletted2gray]; indexing the palette out of range panics. *)
Definition paletted2gray (img : Paletted) : result (raster byte) :=
  let b := Bounds (Pix img) in
  let r := Rect0 (Dx b) (Dy b) in
  if forallb (fun i : byte => (N.to_nat (Byte.to_N i) <? length (Palette img))%nat)
             (scan (Pix img))
  then
    Ok (mkRaster r (fun x y =>
      if inRect r x y then
        match Palette img !! N.to_nat (Byte.to_N (At (Pix img) (MinX b + x) (MinY b + y))) with
        | Some c => byte_of_Z (Z.shiftr (Color_RGBA c).1.1.1 8)
        | None => x00
        end
      else x00))
  else Err (Panic "index out of range").

(** ** The file system seen by [loadPNG] and [savePNG] *)

(** Regular files by path. *)
Abbreviation FS := (gmap string (list byte)).

(** What the operating system does during one commit attempt: whether
    [os.Create] succeeds, whether [WriteTo] fails (and after how many bytes),
    whether [os.Rename] succeeds. *)
Record io : Type := mkIO {
  createOk : bool;
  writeFailsAfter : option nat;
  renameOk : bool
}.

(** [os.Create(path)]: the file is created or truncated. *)
Definition os_Create (env : io) (fs : FS) (path : string) : FS * result unit :=
  if createOk env then (<[path := []]> fs, Ok tt)
  else (fs, Err (External "create")).

(** [b.WriteTo(fp)] on the file just created at [path]: a failing write
    leaves the bytes written so far. *)
Definition WriteTo (env : io) (fs : FS) (path : string) (b : list byte) : FS * result unit :=
  match writeFailsAfter env with
  | None => (<[path := b]> fs, Ok tt)
  | Some k => (<[path := take k b]> fs, Err (External "write"))
  end.

(** [os.Rename(oldpath, newpath)], atomic: on success [newpath] holds the
    content of [oldpath], which is gone; on failure nothing changes. *)
Definition os_Rename (env : io) (fs : FS) (oldpath newpath : string) : FS * result unit :=
  match fs !! oldpath with
  | Some content =>
      if renameOk env then (delete oldpath (<[newpath := content]> fs), Ok tt)
      else (fs, Err (External "rename"))
  | None => (fs, Err (External "rename"))
  end.

(** The package-level [savePNG(path, b)]; [defer fp.Close()] does not touch
    the content. *)
Definition savePNG (env : io) (fs : FS) (path : string) (b : list byte) : FS * result unit :=
  match os_Create env fs path with
  | (fs1, Err e) => (fs1, Err e)
  | (fs1, Ok _) => WriteTo env fs1 path b
  end.

(** The method [PNGOptimizer.savePNG(path, b)]: temporary file, then [mv]. *)
Definition PNGOptimizer_savePNG (env : io) (fs : FS) (path : string) (b : list byte)
  : FS * result unit :=
  let dstPath := (path +:+ ".pngtmp")%string in
  match savePNG env fs dstPath b with
  | (fs1, Err e) => (fs1, Err e)
  | (fs1, Ok _) =>
      match os_Rename env fs1 dstPath path with
      | (fs2, Err e) => (fs2, Err e)
      | (fs2, Ok _) => (fs2, Ok tt)
      end
  end.

(** [pngImage] (fields [size] and [img]). *)
Record pngImage : Type := mkPngImage { pngSize : Z; pngImg : Image }.

(** The change the source postpones in a [TODO] of [countNRGBAColors]:
    every fully transparent colour taken to [{0, 0, 0, 0}]. *)
Definition unifyTransparent (c : NRGBA) : NRGBA :=
  if u8 (cA c) =? 0 then mkNRGBA x00 x00 x00 x00 else c.

(** [range] yields every key of the map once, in some order. *)
Definition enumerates `{Countable K} (range : gmap K Z -> list K) : Prop :=
  forall m, range m ≡ₚ (map_to_list m).*1.

(** A sorting routine that only moves elements around ([data.Swap]). *)
Definition rearranges (sort : forall A : Type, (A -> A -> bool) -> list A -> list A) : Prop :=
  forall A less l, sort A less l ≡ₚ l.

(** A sorting routine that proceeds as [pdqsort(data, 0, n, limit)]. *)
Definition runsPdqsort (sort : forall A : Type, (A -> A -> bool) -> list A -> list A) : Prop :=
  forall A less l, GoSort.PdqRun less None l (sort A less l).

(** ** What the Go library does with an image *)

(** The bounds of an image, whatever its type. *)
Definition imageBounds (i : Image) : Rectangle :=
  match i with
  | ImgRGBA v => Bounds v
  | ImgNRGBA v => Bounds v
  | ImgPaletted v => Bounds (Pix v)
  | ImgGray v => Bounds v
  | ImgGray16 v => Bounds v
  | ImgRGBA64 v => Bounds v
  | ImgNRGBA64 v => Bounds v
  end.

(** [png.Encoder.Encode] starts by refusing an image without pixels:
    [mw, mh := int64(m.Bounds().Dx()), int64(m.Bounds().Dy())
     if mw <= 0 || mh <= 0 || mw >= 1<<32 || mh >= 1<<32 {
       return FormatError("invalid image size: ...") }]. *)
Definition refusesEmpty (encode : Image -> string + list byte) : Prop :=
  forall i, Dx (imageBounds i) <= 0 \/ Dy (imageBounds i) <= 0 ->
    exists msg, encode i = inl msg.

(** [uint32] arithmetic. *)
Definition uint32 (z : Z) : Z := z mod 2 ^ 32.

(** [sqDiff(x, y)] of [image/draw]: [d := uint32(x - y); return (d * d) >> 2]. *)
Definition sqDiff (x y : Z) : Z :=
  let d := uint32 (x - y) in Z.shiftr (uint32 (d * d)) 2.

(** [sqDiff(er, p[0]) + sqDiff(eg, p[1]) + sqDiff(eb, p[2]) + sqDiff(ea, p[3])]. *)
Definition sumSqDiff (e p : Z * Z * Z * Z) : Z :=
  let '(er, eg, eb, ea) := e in
  let '(pr, pg, pb, pa) := p in
  uint32 (sqDiff er pr + sqDiff eg pg + sqDiff eb pb + sqDiff ea pa).

(** The search made by [drawPaletted] for one source pixel:
    [bestIndex, bestSum := 0, uint32(1<<32-1)
     for index, p := range palette {
       sum := sqDiff(er, p[0]) + ... + sqDiff(ea, p[3])
       if sum < bestSum {
         bestIndex, bestSum = index, sum
         if sum == 0 { break } } }]. *)
Fixpoint closest (palette : list (Z * Z * Z * Z)) (e : Z * Z * Z * Z)
    (index bestIndex : nat) (bestSum : Z) : nat :=
  match palette with
  | [] => bestIndex
  | p :: palette' =>
      let sum := sumSqDiff e p in
      if sum <? bestSum then
        if sum =? 0 then index
        else closest palette' e (S index) index sum
      else closest palette' e (S index) bestIndex bestSum
  end.

(** The index [draw.Draw] ([draw.Src], no mask) stores in an
    [*image.Paletted] for a source pixel of colour [c]: the palette entries
    and the pixel are compared through [RGBA()], and the result is
    [byte(bestIndex)]. *)
Definition drawIndex (palette : list Color) (c : Color) : byte :=
  byte_of_Z (Z.of_nat (closest (Color_RGBA <$> palette) (Color_RGBA c)
                               0 0 (2 ^ 32 - 1))).

(** Two [RGBA()] values whose four channels differ by at most 1. *)
Definition closeRGBA (e p : Z * Z * Z * Z) : Prop :=
  let '(er, eg, eb, ea) := e in
  let '(pr, pg, pb, pa) := p in
  Z.abs (er - pr) <= 1 /\ Z.abs (eg - pg) <= 1
  /\ Z.abs (eb - pb) <= 1 /\ Z.abs (ea - pa) <= 1.

(** A tuple of four 16-bit channels, as [RGBA()] returns. *)
Definition is16 (e : Z * Z * Z * Z) : Prop :=
  let '(r, g, b, a) := e in
  0 <= r <= 65535 /\ 0 <= g <= 65535 /\ 0 <= b <= 65535 /\ 0 <= a <= 65535.

(** ** The directory walk ([service/assets_optimizer.go]) *)

(** The operating systems the tool is built for. *)
Inductive GOOS : Type := unix | windows.

(** [os.IsPathSeparator(c)]: ['/'], and ['\\'] too on Windows. *)
Definition IsPathSeparator (goos : GOOS) (c : byte) : bool :=
  match goos with
  | unix => bool_decide (c = x2f)
  | windows => bool_decide (c = x5c) || bool_decide (c = x2f)
  end.

(** The loop of [filepath.Ext], on the bytes of [path] from the last one
    backwards, [suffix] being [path[i+1:]]:
    [for i := len(path) - 1; i >= 0 && !os.IsPathSeparator(path[i]); i-- {
       if path[i] == '.' { return path[i:] } }
     return ""]. *)
Fixpoint Ext_loop (goos : GOOS) (rpath : list byte) (suffix : list byte) : list byte :=
  match rpath with
  | [] => []
  | ch :: rpath' =>
      if IsPathSeparator goos ch then []
      else if bool_decide (ch = x2e) then ch :: suffix
      else Ext_loop goos rpath' (ch :: suffix)
  end.

(** [filepath.Ext(path)]. *)
Definition filepath_Ext (goos : GOOS) (path : string) : string :=
  String.string_of_list_byte
    (Ext_loop goos (reverse (String.list_byte_of_string path)) []).

(** [c < utf8.RuneSelf] and ['A' <= c && c <= 'Z']. *)
Definition belowRuneSelf (c : byte) : bool := u8 c <? 128.

Definition isUpperASCII (c : byte) : bool := (65 <=? u8 c) && (u8 c <=? 90).

(** [c += 'a' - 'A'] on an upper-case letter. *)
Definition lowerASCII (c : byte) : byte :=
  if isUpperASCII c then byte_of_Z (u8 c + 32) else c.

(** [strings.ToLower(s)]: a string of bytes below [utf8.RuneSelf] has its
    upper-case letters shifted; any other string goes through
    [strings.Map(unicode.ToLower, s)], which is the parameter. *)
Definition ToLower (unicodeLower : string -> string) (s : string) : string :=
  if forallb belowRuneSelf (String.list_byte_of_string s)
  then String.string_of_list_byte (lowerASCII <$> String.list_byte_of_string s)
  else unicodeLower s.

(** [ext[1:]] on the non-empty result of [filepath.Ext]. *)
Definition dropDot (ext : string) : string :=
  match ext with
  | EmptyString => EmptyString
  | String _ rest => rest
  end.

(** What [walkerFn] reads from its [fs.FileInfo]: [info.Mode().IsRegular()]. *)
Record FileInfo : Type := mkFileInfo { IsRegular : bool }.

(** The struct [stats]: saved bytes [n] ([uint64]) and optimized files [c]
    ([uint]). *)
Module Stats.
Record stats : Type := mk { n : Z; c : Z }.
End Stats.

(** The struct [AssetsOptimizer]. *)
Record AssetsOptimizer : Type := mkAssetsOptimizer { dir : string; stats : Stats.stats }.

(** The interface [AssetOptimizer]: its one method,
    [Optimize(path) (uint, error)], acting on the file system under the
    behaviour of the operating system during the call. *)
Record AssetOptimizer : Type := mkAssetOptimizer {
  AssetOptimizer_Optimize : io -> FS -> string -> FS * result Z
}.

Definition extPNG : string := "png".

(** [registryAssetOptimizer(ext, o)]: [assetsRegistry[ext] = o]. *)
Definition registryAssetOptimizer (ext : string) (o : AssetOptimizer)
    (assetsRegistry : gmap string AssetOptimizer) : gmap string AssetOptimizer :=
  <[ext := o]> assetsRegistry.

(** One call of the callback by [filepath.Walk]: [(path, info, err)]. *)
Definition walkCall : Type := string * FileInfo * option error.

(** The bytes held by all the files together. *)
Definition totalSize (fs : FS) : Z :=
  map_fold (fun (_ : string) (content : list byte) (acc : Z) =>
              acc + Z.of_nat (length content)) 0 fs.

(** A well-formed [image.Rectangle]: [Min.X <= Max.X] and [Min.Y <= Max.Y]. *)
Definition wellFormed (r : Rectangle) : Prop :=
  MinX r <= MaxX r /\ MinY r <= MaxY r.

(** The colour of a [color.Gray] sample written as [color.NRGBA]. *)
Definition grayNRGBA (y : byte) : NRGBA := mkNRGBA y y y xff.

(** A palette entry that is fully opaque and has its three colour channels
    equal. *)
Definition opaqueGray (c : Color) : Prop :=
  match c with
  | ColNRGBA c => cA c = xff /\ cR c = cG c /\ cR c = cB c
  | ColRGBA c => pA c = xff /\ pR c = pG c /\ pR c = pB c
  | ColGray _ => True
  end.

(** The palette index held by a pixel of an [image.Paletted]. *)
Definition colorIndex (i : byte) : nat := N.to_nat (Byte.to_N i).

(** What a walk without temporary files at the start keeps true. *)
Definition walkInv (fs0 : FS) (n0 : Z) (fs : FS) (ao : AssetsOptimizer) : Prop :=
  (forall p, fs !! (p +:+ ".pngtmp")%string = None)
  /\ U64.in_range (Stats.n (stats ao))
  /\ Stats.n (stats ao) = U64.wrap (n0 + (totalSize fs0 - totalSize fs))
  /\ dom fs = dom fs0
  /\ (forall p content, fs !! p = Some content ->
        exists content0, fs0 !! p = Some content0
                         /\ (length content <= length content0)%nat).

(** The files whose content differs between two states of a directory. *)
Definition changedFiles (fs0 fs : FS) : gset string :=
  filter (fun p => fs !! p ≠ fs0 !! p) (dom fs0).

(** What a walk keeps true about the counter of optimized files. *)
Definition countInv (fs0 : FS) (c0 : Z) (fs : FS) (ao : AssetsOptimizer) : Prop :=
  (forall p, fs !! (p +:+ ".pngtmp")%string = None)
  /\ (forall p content, fs !! p = Some content ->
        Z.of_nat (length content) < 2 ^ 63)
  /\ Stats.c (stats ao)
     = U64.wrap (c0 + Z.of_nat (size (changedFiles fs0 fs))).

(** ** Concrete inputs for the examples *)

Module Ex.

(** A raster of one row holding the given pixels. *)
Definition row {C} (d : C) (l : list C) : raster C :=
  mkRaster (mkRect 0 0 (Z.of_nat (length l)) 1)
           (fun x _ => nth (Z.to_nat x) l d).

(** Gray samples 20, 20, 10. *)
Definition gray3 : raster byte := row x00 [x14; x14; x0a].

Definition red : NRGBA := mkNRGBA xff x00 x00 xff.
Definition blue : NRGBA := mkNRGBA x00 x00 xff xff.
Definition clear0 : NRGBA := mkNRGBA x00 x00 x00 x00.
Definition clear1 : NRGBA := mkNRGBA x01 x00 x00 x00.

(** Opaque pixels red, red, blue. *)
Definition opaque3 : raster NRGBA := row clear0 [red; red; blue].

(** Two fully transparent pixels with different RGB and one opaque pixel. *)
Definition twoClear : raster NRGBA := row clear0 [red; clear0; clear1].

(** One fully transparent colour among opaque ones. *)
Definition oneClear : raster NRGBA := row clear0 [red; blue; clear0; red].

(** No pixels at all. *)
Definition empty : raster NRGBA := row clear0 [].

(** 257 fully transparent pixels, no two with the same RGB. *)
Definition manyClear : raster NRGBA :=
  row clear0
      ((fun n : nat =>
          mkNRGBA (default x00 (Byte.of_nat (n mod 256)))
                  (if (n <? 256)%nat then x00 else x01) x00 x00)
         <$> seq 0 257).

(** A 1x1 [image.Gray16]. *)
Definition gray16 : raster Z := row 0 [7].

(** A codec standing in for [image/png]: every file decodes to [gray16],
    and an image encodes to a buffer whose length depends on its type. *)
Definition decode (content : list byte) : string + Image := inr (ImgGray16 gray16).

Definition encode (i : Image) : string + list byte :=
  match i with
  | ImgPaletted _ => inr [x01]
  | ImgGray _ => inr [x01; x02]
  | ImgGray16 _ => inr [x01; x02]
  | _ => inr [x01; x02; x03]
  end.

Definition unpremultiply (c : RGBA) : NRGBA := mkNRGBA (pR c) (pG c) (pB c) (pA c).

Definition paletteIndex (p : list Color) (c : Color) : byte := x00.

(** Enumeration of a map in the order of [map_to_list]. *)
Definition rangeKeys `{Countable K} (m : gmap K Z) : list K := (map_to_list m).*1.

(** Enumeration in the opposite order. *)
Definition rangeRev `{Countable K} (m : gmap K Z) : list K :=
  reverse (map_to_list m).*1.

(** A stand-in for the long-slice path of [sort.Sort]: the run of
    [pdqsort] that falls back to [heapSort] at once. *)
Definition longSort (A : Type) (less : A -> A -> bool) (l : list A) : list A :=
  GoSort.heapSort less l.

(** Every operating-system call succeeds. *)
Definition ioOk : io := mkIO true None true.

(** The write to the temporary file fails after one byte. *)
Definition ioWriteFails : io := mkIO true (Some 1%nat) true.

(** The rename fails. *)
Definition ioRenameFails : io := mkIO true None false.

Definition file3 : FS := {[ "a.png"%string := [x0a; x0b; x0c] ]}.
Definition file2 : FS := {[ "a.png"%string := [x0a; x0b] ]}.

(** Two opaque gray pixels held as [NRGBA]. *)
Definition grayOpaque2 : raster NRGBA :=
  row clear0 [mkNRGBA x10 x10 x10 xff; mkNRGBA x20 x20 x20 xff].

(** A paletted image of three pixels over a palette of two opaque grays. *)
Definition grayPal : Paletted :=
  mkPaletted (row x00 [x00; x01; x00])
             [ColRGBA (mkRGBA x10 x10 x10 xff); ColGray x20].

(** Stand-ins for [strings.Map(unicode.ToLower, s)] and [filepath.Rel]. *)
Definition unicodeLower (s : string) : string := s.

Definition Rel (basepath targpath : string) : string + string := inr targpath.

(** A directory holding one PNG file of three bytes and a text file, and the
    calls a walk makes on it. *)
Definition assets : FS := <["a.txt"%string := [x01; x02; x03; x04]]> file3.

Definition calls : list walkCall :=
  [("."%string, mkFileInfo false, None);
   ("a.png"%string, mkFileInfo true, None);
   ("a.txt"%string, mkFileInfo true, None)].

(** A fresh [AssetsOptimizer], as [NewAssetsOptimizer] returns it. *)
Definition ao0 : AssetsOptimizer := mkAssetsOptimizer "." (Stats.mk 0 0).

(** A half-transparent colour between two opaque ones. *)
Definition half : NRGBA := mkNRGBA x40 x80 xc0 x80.

Definition mixed3 : raster NRGBA := row clear0 [red; half; blue].

(** A premultiplied image of two opaque pixels. *)
Definition rgba2 : raster RGBA :=
  row (mkRGBA x00 x00 x00 x00) [mkRGBA x10 x10 x10 xff; mkRGBA xff x00 x00 xff].

(** No gray sample at all. *)
Definition emptyGray : raster byte := row x00 [].

(** An encoder that refuses an image without pixels, as [png.Encoder] does,
    and otherwise answers as [encode]. *)
Definition encodeStrict (i : Image) : string + list byte :=
  if (Dx (imageBounds i) <=? 0) || (Dy (imageBounds i) <=? 0)
  then inl "invalid image size"%string
  else encode i.

(** An encoder that refuses every paletted image. *)
Definition encodeNoPaletted (i : Image) : string + list byte :=
  match i with
  | ImgPaletted _ => inl "refused"%string
  | _ => encode i
  end.

(** Two nearly transparent pixels whose colours are one apart. *)
Definition faint0 : NRGBA := mkNRGBA x64 x64 x64 x01.
Definition faint1 : NRGBA := mkNRGBA x65 x65 x65 x01.
Definition twoFaint : raster NRGBA := row clear0 [faint0; faint1].

End Ex.

Section Engine.

(** [png.Decode] and [png.Encoder.Encode] with [BestCompression]. *)
Variable decode : list byte -> string + Image.
Variable encode : Image -> string + list byte.

(** [draw.Draw] into an [*image.NRGBA] ([draw.Src]): the conversion of one
    premultiplied pixel. *)
Variable unpremultiply : RGBA -> NRGBA.

(** [draw.Draw] into an [*image.Paletted]: the palette index chosen for a
    source colour. *)
Variable paletteIndex : list Color -> Color -> byte.

(** The order in which [for c := range colors] yields the keys. *)
Variable rangeNRGBA : gmap NRGBA Z -> list NRGBA.
Variable rangeGray : gmap byte Z -> list byte.

(** [sort.Sort] / [sort.Slice] on slices longer than [maxInsertion]. *)
Variable pdqsort : forall A : Type, (A -> A -> bool) -> list A -> list A.

(** [loadPNG]. *)
Definition loadPNG (fs : FS) (path : string) : result pngImage :=
  match fs !! path with
  | None => Err (External "open")
  | Some content =>
      match decode content with
      | inl msg => Err (External msg)
      | inr i => Ok (mkPngImage (Z.of_nat (length content)) i)
      end
  end.

(** [paletteFromNRGBA]; [hint] only sizes the map. *)
Definition paletteFromNRGBA (img : raster NRGBA) (hint : Z) : list Color :=
  let hint := if hint =? 0 then 256 else hint in
  let colors := frequencies (scan img) in
  let rawPalette := rangeNRGBA colors in
  let sorted :=
    GoSort.Sort (nrgbaPaletteSorter_Less colors)
                (pdqsort NRGBA (nrgbaPaletteSorter_Less colors)) rawPalette in
  ColNRGBA <$> sorted.

(** The call [sort.Sort(s)] made by [paletteFromNRGBA] on this image goes
    the way [sort.Sort] goes: [insertionSort] when there are at most
    [maxInsertion] keys, a run of [pdqsort] otherwise. *)
Definition sortRunsOn (img : raster NRGBA) : Prop :=
  let colors := frequencies (scan img) in
  let rawPalette := rangeNRGBA colors in
  (length rawPalette <= GoSort.maxInsertion)%nat
  \/ GoSort.PdqRun (nrgbaPaletteSorter_Less colors) None rawPalette
       (pdqsort NRGBA (nrgbaPaletteSorter_Less colors) rawPalette).

(** [countGrayColors]. *)
Definition countGrayColors (img : raster byte) : Z :=
  Z.of_nat (size (foldl (fun (s : gset byte) y => {[y]} ∪ s) ∅ (scan img))).

(** [paletteFromGray]. *)
Definition paletteFromGray (img : raster byte) (hint : Z) : list Color :=
  let hint := if hint =? 0 then 256 else hint in
  let colors := frequencies (scan img) in
  let rawPalette := rangeGray colors in
  let sorted :=
    GoSort.Sort (grayLess colors) (pdqsort byte (grayLess colors)) rawPalette in
  ColGray <$> sorted.

(** [asPaletted]: [image.NewPaletted], [draw.Draw], encode. *)
Definition toPaletted {C} (toColor : C -> Color) (src : raster C)
    (palette : list Color) : Paletted :=
  let b := Bounds src in
  let r := Rect0 (Dx b) (Dy b) in
  mkPaletted
    (mkRaster r (fun x y =>
       if inRect r x y
       then paletteIndex palette (toColor (At src (MinX b + x) (MinY b + y)))
       else x00))
    palette.

Definition asPaletted {C} (toColor : C -> Color) (src : raster C)
    (palette : list Color) : result (list byte) :=
  wrapErr "error encode paletted" (encode (ImgPaletted (toPaletted toColor src palette))).

(** The variants assembled by [optimizeNRGBA] before [variants.best()]. *)
Definition variantsNRGBA (src : raster NRGBA) : result variantsList :=
  b ← wrapErr "error encode src" (encode (ImgNRGBA src));
  let variants := [(b, "src (nrgba/rgb)"%string)] in
  let '(nColors, hasTransparent, hasPartAlpha, isGray) := countNRGBAColors src in
  let hasAlpha := hasTransparent || hasPartAlpha in
  variants ←
    (if isGray && negb hasAlpha then
       b ← wrapErr "error encode gray" (encode (ImgGray (nrgba2gray src)));
       mret (variants ++ [(b, "gray"%string)])
     else mret variants);
  if nColors <=? 256 then
    b ← asPaletted ColNRGBA src (paletteFromNRGBA src nColors);
    mret (variants ++ [(b, "paletted"%string)])
  else mret variants.

(** [optimizeNRGBA]. *)
Definition optimizeNRGBA (src : raster NRGBA) : result variant :=
  variantsNRGBA src ≫= best.

(** [optimizeRGBA]: redraw as [NRGBA] at the origin, then [optimizeNRGBA]. *)
Definition rgba2nrgba (src : raster RGBA) : raster NRGBA :=
  let b := Bounds src in
  let r := Rect0 (Dx b) (Dy b) in
  mkRaster r (fun x y =>
    if inRect r x y then unpremultiply (At src (MinX b + x) (MinY b + y))
    else mkNRGBA x00 x00 x00 x00).

Definition optimizeRGBA (src : raster RGBA) : result variant :=
  optimizeNRGBA (rgba2nrgba src).

(** The variants assembled by [optimizePaletted]. *)
Definition variantsPaletted (src : Paletted) : result variantsList :=
  b ← wrapErr "error encode src" (encode (ImgPaletted src));
  let variants := [(b, "src (paletted)"%string)] in
  if isGrayPalette (Palette src) then
    gray ← paletted2gray src;
    b ← wrapErr "error encode gray" (encode (ImgGray gray));
    mret (variants ++ [(b, "gray"%string)])
  else mret variants.

(** [optimizePaletted]. *)
Definition optimizePaletted (src : Paletted) : result variant :=
  variantsPaletted src ≫= best.

(** The variants assembled by [optimizeGray]. *)
Definition variantsGray (src : raster byte) : result variantsList :=
  b ← wrapErr "error encode src" (encode (ImgGray src));
  let variants := [(b, "src (gray)"%string)] in
  let nColors := countGrayColors src in
  if nColors <=? 256 then
    b ← asPaletted ColGray src (paletteFromGray src nColors);
    mret (variants ++ [(b, "paletted"%string)])
  else mret variants.

(** [optimizeGray]. *)
Definition optimizeGray (src : raster byte) : result variant :=
  variantsGray src ≫= best.

(** The type switch of [Optimize]: the chosen buffer and its label. *)
Definition optimizeImage (i : Image) : result variant :=
  match i with
  | ImgRGBA v => optimizeRGBA v
  | ImgNRGBA v => optimizeNRGBA v
  | ImgPaletted v => optimizePaletted v
  | ImgGray v => optimizeGray v
  | _ =>
      opt ← wrapErr "error encode src" (encode i);
      mret (opt, ""%string)
  end.

(** [Optimize]: the file system afterwards and [(bytes saved, err)]. The
    progress lines printed on standard output are left out. *)
Definition Optimize (env : io) (fs : FS) (path : string) : FS * result Z :=
  match loadPNG fs path with
  | Err e => (fs, Err (Wrapped "PNGOptimizer optimize error" e))
  | Ok im =>
      match optimizeImage (pngImg im) with
      | Err e => (fs, Err e)
      | Ok (opt, _) =>
          let sz := Z.of_nat (length opt) in
          let delta := pngSize im - sz in
          if delta <=? 0 then (fs, Ok 0)
          else
            match PNGOptimizer_savePNG env fs path opt with
            | (fs', Err e) => (fs', Err e)
            | (fs', Ok _) => (fs', Ok (U64.wrap delta))
            end
      end
  end.

(** The image whose encoding is the first, "direct" candidate: the source
    itself, after [optimizeRGBA]'s redraw for a premultiplied source. *)
Definition directImage (i : Image) : Image :=
  match i with
  | ImgRGBA v => ImgNRGBA (rgba2nrgba v)
  | _ => i
  end.

(** The candidates among which [Optimize] chooses for an image: the
    [variants] list of the [optimize*] method its type switch calls, and
    the single direct encoding in the [default] case. *)
Definition candidates (i : Image) : result variantsList :=
  match i with
  | ImgRGBA v => variantsNRGBA (rgba2nrgba v)
  | ImgNRGBA v => variantsNRGBA v
  | ImgPaletted v => variantsPaletted v
  | ImgGray v => variantsGray v
  | _ =>
      opt ← wrapErr "error encode src" (encode i);
      mret [(opt, ""%string)]
  end.

(** The label of the direct candidate for each kind of image. *)
Definition directLabel (i : Image) : string :=
  match i with
  | ImgRGBA _ | ImgNRGBA _ => "src (nrgba/rgb)"
  | ImgPaletted _ => "src (paletted)"
  | ImgGray _ => "src (gray)"
  | _ => ""
  end.

(** What a successful run of a generator returns starts with the direct
    variant; a failing run never reports [errNoVariants]. *)
Definition directFirst (lbl : string) (direct : Image) (r : result variantsList) : Prop :=
  match r with
  | Ok vs => exists b rest, vs = (b, lbl) :: rest /\ encode direct = inr b
  | Err e => e ≠ errNoVariants
  end.

(** The number of distinct colours a generator compares with 256, for the
    image types that have such a test. *)
Definition colorCount (i : Image) : option Z :=
  match i with
  | ImgRGBA v => Some (countNRGBAColors (rgba2nrgba v)).1.1.1
  | ImgNRGBA v => Some (countNRGBAColors v).1.1.1
  | ImgGray v => Some (countGrayColors v)
  | _ => None
  end.

(** The paletted image those generators encode as the "paletted" variant:
    the source redrawn over the palette built from its frequency table. *)
Definition indexedImage (i : Image) : option Image :=
  match i with
  | ImgRGBA v =>
      let src := rgba2nrgba v in
      Some (ImgPaletted (toPaletted ColNRGBA src
              (paletteFromNRGBA src (countNRGBAColors src).1.1.1)))
  | ImgNRGBA src =>
      Some (ImgPaletted (toPaletted ColNRGBA src
              (paletteFromNRGBA src (countNRGBAColors src).1.1.1)))
  | ImgGray src =>
      Some (ImgPaletted (toPaletted ColGray src
              (paletteFromGray src (countGrayColors src))))
  | _ => None
  end.

(** The images a generator goes on to encode after the direct one, in
    order, each with the context of the error it returns when the encoder
    refuses the image. *)
Definition attemptedNRGBA (src : raster NRGBA) : list (string * Image) :=
  let '(nColors, hasTransparent, hasPartAlpha, isGray) := countNRGBAColors src in
  (if isGray && negb (hasTransparent || hasPartAlpha)
   then [("error encode gray"%string, ImgGray (nrgba2gray src))]
   else [])
  ++ (if nColors <=? 256
      then [("error encode paletted"%string,
             ImgPaletted (toPaletted ColNRGBA src (paletteFromNRGBA src nColors)))]
      else []).

Definition attempted (i : Image) : list (string * Image) :=
  match i with
  | ImgRGBA v => attemptedNRGBA (rgba2nrgba v)
  | ImgNRGBA v => attemptedNRGBA v
  | ImgPaletted v =>
      if isGrayPalette (Palette v) then
        match paletted2gray v with
        | Ok gray => [("error encode gray"%string, ImgGray gray)]
        | Err _ => []
        end
      else []
  | ImgGray v =>
      if countGrayColors v <=? 256
      then [("error encode paletted"%string,
             ImgPaletted (toPaletted ColGray v
                            (paletteFromGray v (countGrayColors v))))]
      else []
  | _ => []
  end.

(** A failure of a generator after the direct encoding has succeeded: the
    encoder has refused one of the images above, or [paletted2gray] has
    panicked on a paletted source with a gray palette. *)
Definition laterFailure (i : Image) (e : error) : Prop :=
  (exists context j msg,
      (context, j) ∈ attempted i /\ encode j = inl msg
      /\ e = Wrapped context (External msg))
  \/ (exists v, i = ImgPaletted v /\ isGrayPalette (Palette v) = true
                /\ paletted2gray v = Err e).

(** [strings.Map(unicode.ToLower, s)] and [filepath.Rel(basepath, targpath)]
    of the Go library. *)
Variable unicodeLower : string -> string.
Variable filepath_Rel : string -> string -> string + string.

(** The package variable [pngOptimizer], seen through the interface. *)
Definition pngOptimizer : AssetOptimizer := mkAssetOptimizer Optimize.

(** [assetsRegistry] once the package's [init] has run. *)
Definition assetsRegistry : gmap string AssetOptimizer :=
  registryAssetOptimizer extPNG pngOptimizer ∅.

(** [AssetsOptimizer.walkerFn(path, info, err)]; [os path] is what the
    operating system does while the file at [path] is optimized. The
    progress line printed on standard output is left out. *)
Definition walkerFn (goos : GOOS) (os : string -> io) (ao : AssetsOptimizer) (fs : FS)
    (path : string) (info : FileInfo) (err : option error)
  : FS * AssetsOptimizer * result unit :=
  match err with
  | Some e => (fs, ao, Err (Wrapped "walk dir %q error" e))
  | None =>
      if negb (IsRegular info) then (fs, ao, Ok tt)
      else
        let ext := filepath_Ext goos path in
        if String.eqb ext "" then (fs, ao, Ok tt)
        else
          let ext := ToLower unicodeLower (dropDot ext) in
          match assetsRegistry !! ext with
          | None => (fs, ao, Ok tt)
          | Some optimizer =>
              match filepath_Rel (dir ao) path with
              | inl msg => (fs, ao, Err (External msg))
              | inr rel =>
                  match AssetOptimizer_Optimize optimizer (os path) fs path with
                  | (fs', Err e) => (fs', ao, Err e)
                  | (fs', Ok n) =>
                      if 0 <? n then
                        (fs',
                         mkAssetsOptimizer (dir ao)
                           (Stats.mk (U64.add (Stats.n (stats ao)) n)
                                     (U64.add (Stats.c (stats ao)) 1)),
                         Ok tt)
                      else (fs', ao, Ok tt)
                  end
              end
          end
  end.

(** [filepath.Walk(ao.dir, ao.walkerFn)]: the callback is called on one
    entry after the other, and the first error it returns ends the walk
    ([walkerFn] never returns [filepath.SkipDir] or [filepath.SkipAll]). *)
Fixpoint Walk (goos : GOOS) (os : string -> io) (ao : AssetsOptimizer) (fs : FS)
    (calls : list walkCall) : FS * AssetsOptimizer * result unit :=
  match calls with
  | [] => (fs, ao, Ok tt)
  | (path, info, err) :: calls' =>
      match walkerFn goos os ao fs path info err with
      | (fs', ao', Ok _) => Walk goos os ao' fs' calls'
      | (fs', ao', Err e) => (fs', ao', Err e)
      end
  end.

(** [AssetsOptimizer.Run], [calls] being the entries met by the walk. *)
Definition Run (goos : GOOS) (os : string -> io) (ao : AssetsOptimizer) (fs : FS)
    (calls : list walkCall) : FS * AssetsOptimizer * result unit :=
  match Walk goos os ao fs calls with
  | (fs', ao', Err e) => (fs', ao', Err e)
  | (fs', ao', Ok _) => (fs', ao', Ok tt)
  end.


(** * Properties *)

Ltac run := repeat (simpl; unfold mbind, mret, result_bind, result_ret).

(** ** Insertion sort *)

Section SortFacts.
Context {A : Type} (less : A -> A -> bool).
Implicit Types (l rp pre suf : list A) (x y : A).

Lemma swap_adjacent pre x y suf :
  GoSort.swap (pre ++ y :: x :: suf) (S (length pre)) (length pre)
  = pre ++ x :: y :: suf.
Proof.
  unfold GoSort.swap.
  rewrite !(lookup_app_r pre) by lia.
  replace (S (length pre) - length pre)%nat with 1%nat by lia.
  rewrite Nat.sub_diag. simpl.
  rewrite (insert_app_r_alt pre _ (length pre)) by lia.
  rewrite (insert_app_r_alt pre _ (S (length pre))) by lia.
  replace (S (length pre) - length pre)%nat with 1%nat by lia.
  by rewrite Nat.sub_diag.
Qed.

Lemma lessAt_adjacent pre x y suf :
  GoSort.lessAt less (pre ++ y :: x :: suf) (S (length pre)) (length pre)
  = less x y.
Proof.
  unfold GoSort.lessAt.
  rewrite !(lookup_app_r pre) by lia.
  replace (S (length pre) - length pre)%nat with 1%nat by lia.
  by rewrite Nat.sub_diag.
Qed.

(** The inner loop inserts the element at index [length rp] into the
    prefix before it. *)
Lemma siftLeft_insertRev rp x suf :
  GoSort.siftLeft less (reverse rp ++ x :: suf) (length rp)
  = reverse (GoSort.insertRev less x rp) ++ suf.
Proof.
  revert suf. induction rp as [|y rp IH]; intros suf; simpl; [done|].
  rewrite reverse_cons, <- (length_reverse rp).
  rewrite <- (app_assoc (reverse rp) [y]). simpl.
  rewrite lessAt_adjacent, swap_adjacent.
  destruct (less x y) eqn:E; simpl.
  - rewrite length_reverse, IH. by rewrite reverse_cons, <- app_assoc.
  - by rewrite !reverse_cons, <- !app_assoc.
Qed.

Lemma sortRev_snoc pre x :
  GoSort.sortRev less (pre ++ [x])
  = GoSort.insertRev less x (GoSort.sortRev less pre).
Proof. unfold GoSort.sortRev. by rewrite foldl_app. Qed.

Lemma insertRev_perm x rp : GoSort.insertRev less x rp ≡ₚ x :: rp.
Proof.
  induction rp as [|y rp IH]; simpl; [done|].
  destruct (less x y); [|done].
  rewrite IH. apply perm_swap.
Qed.

Lemma sortRev_perm l : GoSort.sortRev less l ≡ₚ l.
Proof.
  induction l as [|x l IH] using rev_ind; [done|].
  rewrite sortRev_snoc, insertRev_perm, IH.
  by rewrite Permutation_app_comm.
Qed.

Lemma sortRev_length l : length (GoSort.sortRev less l) = length l.
Proof. apply Permutation_length, sortRev_perm. Qed.

(** The outer loop, started after index [length pre]. *)
Lemma insertionSort_steps suf : forall pre,
  foldl (GoSort.siftLeft less) (reverse (GoSort.sortRev less pre) ++ suf)
        (seq (length pre) (length suf))
  = reverse (GoSort.sortRev less (pre ++ suf)).
Proof.
  induction suf as [|x suf IH]; intros pre; simpl.
  - by rewrite !app_nil_r.
  - pose proof (siftLeft_insertRev (GoSort.sortRev less pre) x suf) as Hs.
    rewrite sortRev_length in Hs. rewrite Hs.
    rewrite <- sortRev_snoc.
    replace (S (length pre)) with (length (pre ++ [x]))
      by (rewrite length_app; simpl; lia).
    rewrite IH. by rewrite <- app_assoc.
Qed.

Lemma insertionSort_sortRev l :
  GoSort.insertionSort less l = reverse (GoSort.sortRev less l).
Proof.
  unfold GoSort.insertionSort. destruct l as [|x l]; [done|].
  simpl. rewrite Nat.sub_0_r.
  apply (insertionSort_steps l [x]).
Qed.

Lemma insertionSort_perm l : GoSort.insertionSort less l ≡ₚ l.
Proof.
  rewrite insertionSort_sortRev, reverse_Permutation. apply sortRev_perm.
Qed.

(** [sort.Sort] only swaps: whatever [less] is, the result is a
    rearrangement, provided the long path is one. *)
Lemma Sort_perm (long : list A -> list A) l :
  (forall k, long k ≡ₚ k) -> GoSort.Sort less long l ≡ₚ l.
Proof.
  intros Hlong. unfold GoSort.Sort.
  destruct (length l <=? GoSort.maxInsertion)%nat; [|done].
  apply insertionSort_perm.
Qed.

(** A comparator that puts the elements satisfying [P] below all others,
    and is arbitrary otherwise. *)
Variable P : A -> bool.
Hypothesis less_P_other :
  forall x y, P x = true -> P y = false -> less x y = true.
Hypothesis less_other_P :
  forall x y, P x = false -> P y = true -> less x y = false.

Lemma insertRev_block x rp :
  GoSort.blockRev P rp -> GoSort.blockRev P (GoSort.insertRev less x rp).
Proof.
  unfold GoSort.blockRev. induction 1 as [|y rp Hs IH Hall]; simpl.
  - repeat constructor.
  - destruct (less x y) eqn:E.
    + constructor; [done|].
      rewrite insertRev_perm. constructor; [|done].
      intros Hy. destruct (P x) eqn:Hx; [done|].
      rewrite (less_other_P x y) in E; done.
    + constructor; [by constructor|].
      assert (P x = true -> P y = true) as Hxy.
      { intros Hx. destruct (P y) eqn:Hy; [done|].
        rewrite (less_P_other x y) in E; done. }
      constructor; [done|].
      eapply Forall_impl; [exact Hall|]. simpl. intros z Hz Hx. auto.
Qed.

Lemma sortRev_block l : GoSort.blockRev P (GoSort.sortRev less l).
Proof.
  induction l as [|x l IH] using rev_ind; [constructor|].
  rewrite sortRev_snoc. by apply insertRev_block.
Qed.

(** ** Heap sort *)

Lemma less_true_P x y : less x y = true -> P y = true -> P x = true.
Proof.
  intros Hl Hy. destruct (P x) eqn:Hx; [done|].
  rewrite (less_other_P x y) in Hl; done.
Qed.

Lemma less_false_P x y : less x y = false -> P x = true -> P y = true.
Proof.
  intros Hl Hx. destruct (P y) eqn:Hy; [done|].
  rewrite (less_P_other x y) in Hl; done.
Qed.

Lemma swap_length l (i j : nat) : length (GoSort.swap l i j) = length l.
Proof.
  unfold GoSort.swap. destruct (l !! i), (l !! j); try done.
  by rewrite !length_insert.
Qed.

Lemma swap_lookup l (i j k : nat) :
  (i < length l)%nat -> (j < length l)%nat ->
  GoSort.swap l i j !! k
  = if decide (k = i) then l !! j else if decide (k = j) then l !! i else l !! k.
Proof.
  intros Hi Hj. unfold GoSort.swap.
  destruct (lookup_lt_is_Some_2 l i Hi) as [x Hx].
  destruct (lookup_lt_is_Some_2 l j Hj) as [y Hy].
  rewrite Hx, Hy.
  destruct (decide (k = i)) as [->|Hki].
  - rewrite list_lookup_insert_eq; [done|by rewrite length_insert].
  - rewrite list_lookup_insert_ne by done.
    destruct (decide (k = j)) as [->|Hkj].
    + by rewrite list_lookup_insert_eq.
    + by rewrite list_lookup_insert_ne.
Qed.

Lemma swap_perm l (i j : nat) : GoSort.swap l i j ≡ₚ l.
Proof.
  destruct (decide (i < length l)%nat) as [Hi|Hi].
  2:{ unfold GoSort.swap. rewrite (lookup_ge_None_2 l i) by lia. done. }
  destruct (decide (j < length l)%nat) as [Hj|Hj].
  2:{ unfold GoSort.swap. rewrite (lookup_ge_None_2 l j) by lia.
      by destruct (l !! i). }
  apply Permutation_inj. split; [apply swap_length|].
  exists (fun k => if decide (k = i) then j else if decide (k = j) then i else k).
  split.
  - intros a b Hab. repeat case_decide; lia.
  - intros k. rewrite swap_lookup by done. by repeat case_decide.
Qed.

Lemma select_child l (r hi csel : nat) :
  (hi <= length l)%nat -> (2 * r + 1 < hi)%nat ->
  csel = (if (2 * r + 1 + 1 <? hi)%nat && GoSort.lessAt less l (2 * r + 1) (2 * r + 1 + 1)
          then (2 * r + 1 + 1)%nat else (2 * r + 1)%nat) ->
  GoSort.isChild r csel /\ (csel < hi)%nat
  /\ forall (c : nat) y xc, GoSort.isChild r c -> (c < hi)%nat ->
       l !! c = Some y -> l !! csel = Some xc -> P xc = true -> P y = true.
Proof.
  intros Hlen Hc ->. unfold GoSort.lessAt.
  destruct (lookup_lt_is_Some_2 l (2 * r + 1)) as [x1 H1]; [lia|]. rewrite H1.
  destruct (Nat.ltb_spec (2 * r + 1 + 1) hi) as [H2|H2]; cbn [andb].
  - destruct (lookup_lt_is_Some_2 l (2 * r + 1 + 1)) as [x2 Hx2]; [lia|].
    rewrite Hx2. destruct (less x1 x2) eqn:Hl.
    + split_and!; [right; lia|lia|].
      intros c y xc [->| ->] Hclt Hy Hxc HP.
      * rewrite H1 in Hy. rewrite Hx2 in Hxc.
        injection Hy as <-. injection Hxc as <-. by eapply less_true_P.
      * replace (2 * r + 2)%nat with (2 * r + 1 + 1)%nat in Hy by lia. congruence.
    + split_and!; [left; lia|lia|].
      intros c y xc [->| ->] Hclt Hy Hxc HP.
      * congruence.
      * replace (2 * r + 2)%nat with (2 * r + 1 + 1)%nat in Hy by lia.
        rewrite H1 in Hxc. rewrite Hx2 in Hy.
        injection Hy as <-. injection Hxc as <-. by eapply less_false_P.
  - split_and!; [left; lia|lia|].
    intros c y xc [->| ->] Hclt Hy Hxc HP; [congruence|lia].
Qed.

Lemma siftDown_loop_spec (lo hi : nat) (fuel : nat) : forall l (root : nat),
  (hi <= length l)%nat -> (lo <= root)%nat -> (hi - root <= fuel)%nat ->
  (forall i : nat, (lo <= i)%nat -> i ≠ root -> GoSort.HeapAt P l hi i) ->
  (forall (p c : nat) x y, (lo <= p)%nat -> GoSort.isChild p root -> GoSort.isChild root c ->
     (c < hi)%nat -> l !! p = Some x -> l !! c = Some y -> P x = true -> P y = true) ->
  GoSort.PHeap P (GoSort.siftDown_loop less fuel l root hi) lo hi
  /\ length (GoSort.siftDown_loop less fuel l root hi) = length l
  /\ GoSort.siftDown_loop less fuel l root hi ≡ₚ l
  /\ (forall k : nat, (hi <= k)%nat ->
        GoSort.siftDown_loop less fuel l root hi !! k = l !! k)
  /\ GoSort.SegFrom (GoSort.siftDown_loop less fuel l root hi) l hi.
Proof.
  induction fuel as [|fuel IH]; intros l root Hlen Hlo Hfuel Hheap Hpar;
    cbn [GoSort.siftDown_loop].
  - split_and!; [|done|done|done|intros j x ? ?; by eauto].
    intros i Hi. destruct (decide (i = root)) as [->|Hne]; [|by apply Hheap].
    intros c x y [->| ->] Hc; lia.
  - destruct (Nat.leb_spec hi (2 * root + 1)) as [Hnochild|Hchild].
    { split_and!; [|done|done|done|intros j x ? ?; by eauto].
      intros i Hi. destruct (decide (i = root)) as [->|Hne]; [|by apply Hheap].
      intros c x y [->| ->] Hc; lia. }
    set (csel := if (2 * root + 1 + 1 <? hi)%nat && GoSort.lessAt less l (2 * root + 1) (2 * root + 1 + 1)
                 then (2 * root + 1 + 1)%nat else (2 * root + 1)%nat).
    fold csel.
    destruct (select_child l root hi csel Hlen Hchild eq_refl) as (Hcs & Hcslt & Hdom).
    assert (root < csel)%nat as Hrc by (destruct Hcs; lia).
    destruct (lookup_lt_is_Some_2 l root) as [xr Hxr]; [lia|].
    destruct (lookup_lt_is_Some_2 l csel) as [xc Hxc]; [lia|].
    assert (GoSort.lessAt less l root csel = less xr xc) as ->
      by (unfold GoSort.lessAt; by rewrite Hxr, Hxc).
    destruct (less xr xc) eqn:Hless; cbn [negb].
    2:{ split_and!; [|done|done|done|intros j x ? ?; by eauto].
        intros i Hi. destruct (decide (i = root)) as [->|Hne]; [|by apply Hheap].
        intros c x y Hc Hclt Hx Hy HP.
        rewrite Hxr in Hx. injection Hx as <-.
        eapply (Hdom c y xc); try done. by eapply less_false_P. }
    assert (forall k : nat, GoSort.swap l root csel !! k
              = if decide (k = root) then l !! csel
                else if decide (k = csel) then l !! root else l !! k) as Hsw
      by (intros k; apply swap_lookup; lia).
    destruct (IH (GoSort.swap l root csel) csel) as (H1 & H2 & H3 & H4 & H5).
    + by rewrite swap_length.
    + lia.
    + lia.
    + intros i Hi Hne c x y Hc Hclt Hx Hy HP.
      rewrite Hsw in Hx. rewrite Hsw in Hy.
      destruct (decide (i = root)) as [->|Hir].
      * (* the former child now sits at root *)
        destruct (decide (c = root)) as [->|Hcr]; [destruct Hc; lia|].
        destruct (decide (c = csel)) as [->|Hcc].
        -- rewrite Hxr in Hy. rewrite Hxc in Hx.
           injection Hx as <-. injection Hy as <-. by eapply less_true_P.
        -- rewrite Hxc in Hx. injection Hx as <-. by eapply (Hdom c y xc).
      * destruct (decide (i = csel)) as [->|Hic]; [done|].
        destruct (decide (c = root)) as [->|Hcr].
        -- (* i is the parent of root *)
           eapply (Hpar i csel x y); try done.
        -- destruct (decide (c = csel)) as [->|Hcc].
           ++ exfalso. destruct Hc, Hcs; lia.
           ++ eapply (Hheap i Hi Hir c x y); done.
    + intros p c x y Hp Hpc Hcc Hclt Hx Hy HP.
      assert (p = root) as -> by (destruct Hpc, Hcs; lia).
      rewrite Hsw in Hx. rewrite Hsw in Hy.
      rewrite decide_True in Hx by done.
      rewrite decide_False in Hy by (destruct Hcc; lia).
      rewrite decide_False in Hy by (destruct Hcc; lia).
      eapply (Hheap csel ltac:(lia) ltac:(lia) c x y); done.
    + split_and!; [done| | | |].
      * by rewrite H2, swap_length.
      * by rewrite H3, swap_perm.
      * intros k Hk. rewrite H4 by done. rewrite Hsw.
        rewrite decide_False by lia. by rewrite decide_False by lia.
      * intros j x Hj Hx. destruct (H5 j x Hj Hx) as (j0 & Hj0 & Hx0).
        rewrite Hsw in Hx0.
        repeat case_decide; [exists csel|exists root|exists j0]; split; try done; lia.
Qed.

(** Beyond [hi - root] the fuel of [siftDown_loop] plays no part: the loop
    has returned before it runs out. *)
Lemma siftDown_loop_fuel (hi : nat) (f1 : nat) : forall (f2 : nat) l (root : nat),
  (hi - root <= f1)%nat -> (hi - root <= f2)%nat ->
  GoSort.siftDown_loop less f1 l root hi = GoSort.siftDown_loop less f2 l root hi.
Proof.
  induction f1 as [|f1 IH]; intros f2 l root H1 H2.
  - destruct f2 as [|f2]; [done|]. cbn [GoSort.siftDown_loop].
    by destruct (Nat.leb_spec hi (2 * root + 1)); [|lia].
  - destruct f2 as [|f2]; cbn [GoSort.siftDown_loop].
    + by destruct (Nat.leb_spec hi (2 * root + 1)); [|lia].
    + destruct (Nat.leb_spec hi (2 * root + 1)); [done|].
      destruct (negb _); [done|].
      apply IH; destruct (_ && _); lia.
Qed.

Lemma siftDown_spec l (lo hi : nat) :
  (hi <= length l)%nat ->
  GoSort.PHeap P l (S lo) hi ->
  GoSort.PHeap P (GoSort.siftDown less l lo hi) lo hi
  /\ length (GoSort.siftDown less l lo hi) = length l
  /\ GoSort.siftDown less l lo hi ≡ₚ l
  /\ (forall k : nat, (hi <= k)%nat -> GoSort.siftDown less l lo hi !! k = l !! k)
  /\ GoSort.SegFrom (GoSort.siftDown less l lo hi) l hi.
Proof.
  intros Hlen Hheap. unfold GoSort.siftDown.
  apply siftDown_loop_spec; [done|lia|lia| |].
  - intros i Hi Hne. apply Hheap. lia.
  - intros p c x y Hp Hpc. destruct Hpc; lia.
Qed.

Lemma reverse_seq_S (m : nat) : reverse (seq 0 (S m)) = m :: reverse (seq 0 m).
Proof. by rewrite seq_S, reverse_app. Qed.

Lemma heapify_fold (m : nat) : forall l,
  GoSort.PHeap P l m (length l) ->
  GoSort.PHeap P (foldl (fun l i => GoSort.siftDown less l i (length l)) l (reverse (seq 0 m)))
        0 (length l)
  /\ length (foldl (fun l i => GoSort.siftDown less l i (length l)) l (reverse (seq 0 m)))
     = length l
  /\ foldl (fun l i => GoSort.siftDown less l i (length l)) l (reverse (seq 0 m)) ≡ₚ l.
Proof.
  induction m as [|m IH]; intros l Hheap.
  - done.
  - rewrite reverse_seq_S. cbn [foldl].
    destruct (siftDown_spec l m (length l)) as (H1 & H2 & H3 & _ & _); [done|done|].
    destruct (IH (GoSort.siftDown less l m (length l))) as (I1 & I2 & I3).
    { by rewrite H2. }
    rewrite H2 in I1, I2. split_and!; [done|done|]. by rewrite I3.
Qed.

Lemma PHeap_leaves l : GoSort.PHeap P l ((length l - 1) / 2 + 1) (length l).
Proof.
  intros i Hi c x y Hc Hclt. exfalso.
  pose proof (Nat.div_mod (length l - 1) 2 ltac:(lia)) as Hd.
  pose proof (Nat.mod_upper_bound (length l - 1) 2 ltac:(lia)) as Hm.
  destruct Hc; lia.
Qed.

Lemma heapify_spec l :
  GoSort.PHeap P (GoSort.heapify less l) 0 (length l)
  /\ length (GoSort.heapify less l) = length l
  /\ GoSort.heapify less l ≡ₚ l.
Proof. apply heapify_fold, PHeap_leaves. Qed.

(** In a heap whose root satisfies [P], every element does. *)
Lemma PHeap_root l (k : nat) r :
  GoSort.PHeap P l 0 k -> (k <= length l)%nat -> l !! 0%nat = Some r -> P r = true ->
  forall (j : nat) x, (j < k)%nat -> l !! j = Some x -> P x = true.
Proof.
  intros Hheap Hk Hr HP j. induction j as [j IH] using lt_wf_ind.
  intros x Hj Hx. destruct j as [|j]; [congruence|].
  assert (exists p : nat, GoSort.isChild p (S j) /\ (p < S j)%nat) as (p & Hpc & Hp).
  { exists (j / 2)%nat.
    pose proof (Nat.div_mod j 2 ltac:(lia)) as Hd.
    pose proof (Nat.mod_upper_bound j 2 ltac:(lia)) as Hm.
    unfold GoSort.isChild. split; lia. }
  destruct (lookup_lt_is_Some_2 l p) as [xp Hxp]; [lia|].
  eapply (Hheap p ltac:(lia) (S j) xp x); try done.
  eapply (IH p); [done|lia|done].
Qed.

Lemma popAll_fold (m : nat) : forall l,
  (m <= length l)%nat -> GoSort.PHeap P l 0 m -> GoSort.Dom P l m ->
  GoSort.Dom P (foldl (fun l i => GoSort.siftDown less (GoSort.swap l 0 i) 0 i) l
             (reverse (seq 0 m))) 0
  /\ foldl (fun l i => GoSort.siftDown less (GoSort.swap l 0 i) 0 i) l
           (reverse (seq 0 m)) ≡ₚ l.
Proof.
  induction m as [|i IH]; intros l Hm Hheap Hdom.
  - done.
  - rewrite reverse_seq_S. cbn [foldl].
    set (l0 := GoSort.swap l 0 i).
    assert (forall k : nat, l0 !! k
              = if decide (k = 0%nat) then l !! i
                else if decide (k = i) then l !! 0%nat else l !! k) as Hsw
      by (intros k; apply swap_lookup; lia).
    assert (length l0 = length l) as Hl0 by apply swap_length.
    destruct (siftDown_spec l0 0 i) as (H1 & H2 & H3 & H4 & H5).
    { lia. }
    { intros p Hp c x y Hc Hclt Hx Hy. rewrite Hsw in Hx. rewrite Hsw in Hy.
      rewrite decide_False in Hx by lia.
      rewrite decide_False in Hx by (destruct Hc; lia).
      rewrite decide_False in Hy by (destruct Hc; lia).
      rewrite decide_False in Hy by lia.
      eapply (Hheap p ltac:(lia) c x y); [done|lia|done|done]. }
    destruct (IH (GoSort.siftDown less l0 0 i)) as (I1 & I2).
    + lia.
    + done.
    + intros j j' x y Hjj Hj' Hx Hy HP.
      rewrite H4 in Hy by lia. rewrite Hsw in Hy.
      rewrite decide_False in Hy by lia.
      destruct (decide (j < i)%nat) as [Hlt|Hge].
      * destruct (H5 j x Hlt Hx) as (j0 & Hj0 & Hx0). rewrite Hsw in Hx0.
        assert (exists j1 : nat, (j1 <= i)%nat /\ l !! j1 = Some x) as (j1 & Hj1 & Hx1).
        { destruct (decide (j0 = 0%nat)); [by exists i|].
          rewrite decide_False in Hx0 by lia. exists j0. split; [lia|done]. }
        destruct (decide (j' = i)) as [->|Hne].
        -- eapply (PHeap_root l (S i) y Hheap Hm Hy HP j1); [lia|done].
        -- eapply (Hdom j1 j' x y); [lia|lia|done|done|done].
      * rewrite H4 in Hx by lia. rewrite Hsw in Hx.
        rewrite decide_False in Hy by lia.
        destruct (decide (j = 0%nat)) as [->|Hj0].
        -- assert (i = 0%nat) as -> by lia.
           eapply (Hdom 0%nat j' x y); [lia|lia|done|done|done].
        -- destruct (decide (j = i)) as [->|Hji].
           ++ eapply (Hdom 0%nat j' x y); [lia|lia|done|done|done].
           ++ eapply (Hdom j j' x y); [lia|lia|done|done|done].
    + split; [done|]. rewrite I2, H3. apply swap_perm.
Qed.

Lemma Dom_blockFirst l : GoSort.Dom P l 0 -> GoSort.blockFirst P l.
Proof.
  unfold GoSort.blockFirst. induction l as [|a l IH]; intros Hdom; constructor.
  - apply IH. intros j j' x y Hjj _ Hx Hy.
    apply (Hdom (S j) (S j') x y); [lia|lia|done|done].
  - apply Forall_forall. intros y Hy HP.
    apply list_elem_of_lookup_1 in Hy as [j Hj].
    apply (Hdom 0%nat (S j) a y); [lia|lia|done|done|done].
Qed.

(** [heapSort] rearranges, and puts the elements satisfying [P] first. *)
Lemma heapSort_perm l : GoSort.heapSort less l ≡ₚ l.
Proof.
  unfold GoSort.heapSort, GoSort.popAll.
  destruct (heapify_spec l) as (H1 & H2 & H3).
  destruct (popAll_fold (length (GoSort.heapify less l)) (GoSort.heapify less l))
    as (_ & Hp); [lia|by rewrite H2| |by rewrite Hp].
  intros j j' x y _ Hj' _ Hy. apply lookup_lt_Some in Hy. lia.
Qed.

Lemma heapSort_block l : GoSort.blockFirst P (GoSort.heapSort less l).
Proof.
  unfold GoSort.heapSort, GoSort.popAll.
  destruct (heapify_spec l) as (H1 & H2 & H3).
  destruct (popAll_fold (length (GoSort.heapify less l)) (GoSort.heapify less l))
    as (Hd & _); [lia|by rewrite H2| |by apply Dom_blockFirst].
  intros j j' x y _ Hj' _ Hy. apply lookup_lt_Some in Hy. lia.
Qed.

(** ** Runs of [pdqsort] *)

Lemma blockRev_reverse rp :
  GoSort.blockRev P rp -> GoSort.blockFirst P (reverse rp).
Proof.
  unfold GoSort.blockRev, GoSort.blockFirst.
  induction 1 as [|a rp Hs IH Hall]; [constructor|].
  rewrite reverse_cons. apply StronglySorted_app_2; [|done|repeat constructor].
  intros x1 x2 Hx1 ->%list_elem_of_singleton.
  rewrite Forall_forall in Hall. apply Hall. by apply elem_of_reverse.
Qed.

Lemma insertionSort_block l : GoSort.blockFirst P (GoSort.insertionSort less l).
Proof. rewrite insertionSort_sortRev. apply blockRev_reverse, sortRev_block. Qed.

Lemma blockFirst_all l1 l2 :
  Forall (fun x => P x = true) l1 -> GoSort.blockFirst P l2 ->
  GoSort.blockFirst P (l1 ++ l2).
Proof.
  unfold GoSort.blockFirst. intros Hall Hs.
  induction Hall as [|a l1 Ha Hall IH]; [done|].
  simpl. constructor; [done|]. apply Forall_forall. by intros.
Qed.

Lemma blockFirst_none l :
  Forall (fun x => P x = false) l -> GoSort.blockFirst P l.
Proof.
  unfold GoSort.blockFirst. intros Hall.
  induction Hall as [|a l Ha Hall IH]; constructor; [done|].
  eapply Forall_impl; [exact Hall|]. simpl. intros y Hy HP. congruence.
Qed.

Lemma blockFirst_reverse l :
  GoSort.blockFirst P l -> GoSort.blockRev P (reverse l).
Proof.
  unfold GoSort.blockRev, GoSort.blockFirst.
  induction 1 as [|a l Hs IH Hall]; [constructor|].
  rewrite reverse_cons. apply StronglySorted_app_2; [|done|repeat constructor].
  intros x1 x2 Hx1 ->%list_elem_of_singleton.
  rewrite Forall_forall in Hall. apply Hall. by apply elem_of_reverse.
Qed.

Lemma blockFirst_snoc l x :
  GoSort.blockFirst P l -> (P x = true -> Forall (fun z => P z = true) l) ->
  GoSort.blockFirst P (l ++ [x]).
Proof.
  unfold GoSort.blockFirst. intros Hs Hx.
  apply StronglySorted_app_2; [|done|repeat constructor].
  intros x1 x2 Hx1 ->%list_elem_of_singleton HP.
  specialize (Hx HP). rewrite Forall_forall in Hx. by apply Hx.
Qed.

(** In a list with the [P]-elements first, if the last element satisfies
    [P] then all do. *)
Lemma blockFirst_last l y :
  GoSort.blockFirst P l -> last l = Some y -> P y = true ->
  Forall (fun z => P z = true) l.
Proof.
  unfold GoSort.blockFirst. induction 1 as [|a l Hs IH Hall]; intros Hl HP.
  - constructor.
  - destruct l as [|b l'].
    + simpl in Hl. injection Hl as <-. by repeat constructor.
    + change (last (a :: b :: l')) with (last (b :: l')) in Hl.
      constructor; [|by apply IH].
      rewrite Forall_forall in Hall. apply (Hall y); [|done].
      rewrite last_lookup in Hl. by eapply list_elem_of_lookup_2.
Qed.

(** A successful [partialInsertionSort] leaves the [P]-elements first. *)
Lemma PartialRun_block pred p rest out :
  GoSort.PartialRun less pred p rest out ->
  GoSort.blockFirst P p ->
  GoSort.blockFirst P out /\ out ≡ₚ p ++ rest.
Proof.
  induction 1 as [pred p|pred p y x r out Hlast Hless Hrun IH
                  |pred p' y x r p1 rest' out Hless Hp1 Hleak Hrest Hrun IH];
    intros Hb.
  - by rewrite app_nil_r.
  - destruct IH as [B Pm].
    { apply blockFirst_snoc; [done|]. intros HP.
      eapply blockFirst_last; [done|done|]. by eapply less_false_P. }
    split; [done|]. by rewrite Pm, <- app_assoc.
  - destruct IH as [B Pm].
    { subst p1. apply blockRev_reverse, insertRev_block, blockFirst_reverse.
      unfold GoSort.blockFirst in *. by apply StronglySorted_app_1_l in Hb. }
    split; [done|].
    rewrite Pm, Hrest, Hp1, reverse_Permutation, insertRev_perm, reverse_Permutation.
    rewrite <- app_assoc. simpl.
    rewrite (Permutation_middle p' (y :: r) x).
    apply Permutation_app_head, perm_swap.
Qed.

Lemma blockFirst_head l t :
  GoSort.blockFirst P l -> t ∈ l -> P t = true ->
  exists z, head l = Some z /\ P z = true.
Proof.
  unfold GoSort.blockFirst. intros Hs Ht HP.
  destruct Hs as [|z l Hs Hall]; [by apply elem_of_nil in Ht|].
  exists z. split; [done|].
  apply elem_of_cons in Ht as [->|Ht]; [done|].
  rewrite Forall_forall in Hall. by apply (Hall t).
Qed.

(** Every run of [pdqsort] rearranges its segment and puts the elements
    satisfying [P] first, provided the segment holds no such element when
    the element before it does not satisfy [P]. *)
Lemma PdqRun_block pred l out :
  GoSort.PdqRun less pred l out ->
  (forall p0, pred = Some p0 -> P p0 = false -> Forall (fun x => P x = false) l) ->
  GoSort.blockFirst P out /\ out ≡ₚ l.
Proof.
  induction 1 as [pred l|pred l|pred l x0 r0 out Hperm Hpartial
                  |pred l left pv right outL outR Hperm Hleft Hright HL IHL HR IHR
                  |p0 l pv eqs rest e out Hperm Hp0 Heqs Hrest Hlast Hrun IH];
    intros Hinv.
  - split; [apply insertionSort_block|apply insertionSort_perm].
  - split; [apply heapSort_block|apply heapSort_perm].
  - destruct (PartialRun_block pred [x0] r0 out Hpartial) as [B Pm];
      [repeat constructor|].
    split; [done|]. by rewrite Pm, Hperm.
  - destruct IHL as [BL PL].
    { intros p0 Hp Hn. specialize (Hinv p0 Hp Hn).
      rewrite Hperm in Hinv. by apply Forall_app in Hinv as [? _]. }
    destruct IHR as [BR PR].
    { intros p0 [= <-] Hn. eapply Forall_impl; [exact Hright|].
      simpl. intros x Hx. destruct (P x) eqn:HPx; [|done].
      rewrite (less_P_other x pv) in Hx; done. }
    split; [|by rewrite PL, PR].
    unfold GoSort.blockFirst in *.
    apply StronglySorted_app_2; [|done|].
    + intros x1 x2 Hx1 Hx2 HP2. rewrite PL in Hx1.
      rewrite Forall_forall in Hleft. rewrite Forall_forall in Hright.
      assert (P pv = true) as Hpv.
      { apply elem_of_cons in Hx2 as [->|Hx2]; [done|].
        rewrite PR in Hx2. by eapply less_false_P; [apply Hright|]. }
      by eapply less_true_P; [apply Hleft|].
    + constructor; [done|]. apply Forall_forall. intros y Hy HP.
      rewrite PR in Hy. rewrite Forall_forall in Hright.
      by eapply less_false_P; [apply Hright|].
  - destruct (P pv) eqn:Hpv.
    + assert (Forall (fun x => P x = true) (pv :: eqs)) as Hall.
      { constructor; [done|]. eapply Forall_impl; [exact Heqs|].
        simpl. intros x Hx. by eapply less_false_P. }
      destruct IH as [B Pm].
      { intros p [= <-] Hn. exfalso.
        rewrite Forall_forall in Hall. rewrite (Hall e) in Hn; [done|].
        rewrite last_lookup in Hlast. by eapply list_elem_of_lookup_2. }
      split; [by apply blockFirst_all|by rewrite Pm].
    + assert (P p0 = false) as Hn0.
      { destruct (P p0) eqn:Hq; [|done].
        rewrite (less_P_other p0 pv) in Hp0; done. }
      specialize (Hinv p0 eq_refl Hn0).
      destruct IH as [B Pm].
      { intros p _ _. rewrite Hperm in Hinv. by apply Forall_app in Hinv as [_ ?]. }
      split; [|by rewrite Pm].
      apply blockFirst_none. rewrite Pm, <- Hperm. done.
Qed.

(** [sort.Sort] as a whole: on a short slice, or when the long path is a run
    of [pdqsort]. *)
Lemma Sort_block (long : list A -> list A) l :
  (length l <= GoSort.maxInsertion)%nat \/ GoSort.PdqRun less None l (long l) ->
  GoSort.blockFirst P (GoSort.Sort less long l) /\ GoSort.Sort less long l ≡ₚ l.
Proof.
  intros Hrun. unfold GoSort.Sort.
  destruct (Nat.leb_spec (length l) GoSort.maxInsertion) as [Hshort|Hlong].
  - split; [apply insertionSort_block|apply insertionSort_perm].
  - destruct Hrun as [Hshort|Hrun]; [lia|].
    apply (PdqRun_block None); [done|]. by intros.
Qed.

Lemma blockFirst_lookup l (i j : nat) x y :
  GoSort.blockFirst P l -> (i < j)%nat ->
  l !! i = Some x -> l !! j = Some y -> P y = true -> P x = true.
Proof.
  unfold GoSort.blockFirst. intros Hs. revert i j.
  induction Hs as [|a l Hs IH Hall]; intros i j Hij Hx Hy HP; [done|].
  destruct j as [|j]; [lia|]. simpl in Hy. destruct i as [|i]; simpl in Hx.
  - injection Hx as <-. rewrite Forall_forall in Hall.
    apply (Hall y); [by eapply list_elem_of_lookup_2|done].
  - apply (IH i j); [lia|done|done|done].
Qed.
End SortFacts.

(** Without a predicate: the runs are rearrangements. *)
Lemma heapSort_Permutation {A} (less : A -> A -> bool) (l : list A) :
  GoSort.heapSort less l ≡ₚ l.
Proof. apply (heapSort_perm less (fun _ => true)); intros; discriminate. Qed.

Lemma PdqRun_Permutation {A} (less : A -> A -> bool) pred (l out : list A) :
  GoSort.PdqRun less pred l out -> out ≡ₚ l.
Proof.
  intros Hrun.
  apply (PdqRun_block less (fun _ => true)) in Hrun as [_ Hp];
    [done|intros; discriminate..].
Qed.

Lemma runsPdqsort_rearranges sort : runsPdqsort sort -> rearranges sort.
Proof. intros Hrun A less l. by eapply PdqRun_Permutation. Qed.


(** ** The selector *)

Lemma best_loop_spec (rest : variantsList) : forall cur : variant,
  (best_loop cur rest = cur
   /\ forall w, w ∈ rest -> (length cur.1 <= length w.1)%nat)
  \/ (exists k : nat,
        rest !! k = Some (best_loop cur rest)
        /\ (length (best_loop cur rest).1 < length cur.1)%nat
        /\ (forall w, w ∈ rest -> (length (best_loop cur rest).1 <= length w.1)%nat)
        /\ (forall (j : nat) w, (j < k)%nat -> rest !! j = Some w ->
              (length (best_loop cur rest).1 < length w.1)%nat)).
Proof.
  induction rest as [|vv rest IH]; intros cur; simpl.
  - left. split; [done|]. intros w Hw. by apply elem_of_nil in Hw.
  - destruct (Nat.ltb_spec (length vv.1) (length cur.1)) as [Hlt|Hge].
    + right. destruct (IH vv) as [[Heq Hmin]|(k & Hk & Hlen & Hmin & Hfirst)].
      * exists 0%nat. rewrite Heq. repeat split; [done| |lia].
        intros w [->|Hw]%elem_of_cons; [lia|by apply Hmin].
      * exists (S k). repeat split; [done|lia| |].
        -- intros w [->|Hw]%elem_of_cons; [lia|by apply Hmin].
        -- intros [|j] w Hj Hw; simpl in Hw.
           ++ injection Hw as <-. lia.
           ++ apply (Hfirst j); [lia|done].
    + destruct (IH cur) as [[Heq Hmin]|(k & Hk & Hlen & Hmin & Hfirst)].
      * left. split; [done|].
        intros w [->|Hw]%elem_of_cons; [lia|by apply Hmin].
      * right. exists (S k). repeat split; [done|lia| |].
        -- intros w [->|Hw]%elem_of_cons; [lia|by apply Hmin].
        -- intros [|j] w Hj Hw; simpl in Hw.
           ++ injection Hw as <-. lia.
           ++ apply (Hfirst j); [lia|done].
Qed.

(** C5. On a non-empty list [best] succeeds and returns the entry at some
    index [i] whose buffer is no longer than any other entry's and strictly
    shorter than that of every entry generated before it: the smallest
    variant, and among equally small ones the first generated. *)
Theorem best_first_smallest (v : variantsList) :
  v ≠ [] ->
  exists (i : nat) (chosen : variant),
    best v = Ok chosen
    /\ v !! i = Some chosen
    /\ (forall (j : nat) w, v !! j = Some w ->
          (length chosen.1 <= length w.1)%nat)
    /\ (forall (j : nat) w, (j < i)%nat -> v !! j = Some w ->
          (length chosen.1 < length w.1)%nat).
Proof.
  destruct v as [|v0 rest]; [done|]. intros _. simpl.
  destruct (best_loop_spec rest v0) as [[Heq Hmin]|(k & Hk & Hlen & Hmin & Hfirst)].
  - exists 0%nat, v0. rewrite Heq. repeat split; [|intros; lia].
    intros [|j] w Hw; simpl in Hw.
    + by injection Hw as <-.
    + apply Hmin. by eapply list_elem_of_lookup_2.
  - exists (S k), (best_loop v0 rest). repeat split; [done| |].
    + intros [|j] w Hw; simpl in Hw.
      * injection Hw as <-. lia.
      * apply Hmin. by eapply list_elem_of_lookup_2.
    + intros [|j] w Hj Hw; simpl in Hw.
      * injection Hw as <-. lia.
      * apply (Hfirst j); [lia|done].
Qed.


(** ** The variant generators *)

Lemma optimizeImage_candidates (i : Image) :
  optimizeImage i = candidates i ≫= best.
Proof.
  destruct i; try reflexivity; simpl;
    unfold mbind, result_bind; by destruct (wrapErr _ _).
Qed.

Lemma variantsNRGBA_directFirst (src : raster NRGBA) :
  directFirst "src (nrgba/rgb)" (ImgNRGBA src) (variantsNRGBA src).
Proof.
  unfold variantsNRGBA, directFirst, asPaletted.
  destruct (countNRGBAColors src) as [[[n ht] hp] g].
  destruct (encode (ImgNRGBA src)) as [msg|b0] eqn:E0; run; [done|].
  destruct (g && negb (ht || hp)); run.
  - destruct (encode (ImgGray _)) as [?|b1]; run; [done|].
    destruct (n <=? 256); run; [|by eauto].
    destruct (encode (ImgPaletted _)) as [?|b2]; run; [done|by eauto].
  - destruct (n <=? 256); run; [|by eauto].
    destruct (encode (ImgPaletted _)) as [?|b2]; run; [done|by eauto].
Qed.

Lemma variantsPaletted_directFirst (src : Paletted) :
  directFirst "src (paletted)" (ImgPaletted src) (variantsPaletted src).
Proof.
  unfold variantsPaletted, directFirst.
  destruct (encode (ImgPaletted src)) as [msg|b0] eqn:E0; run; [done|].
  destruct (isGrayPalette _); run; [|by eauto].
  unfold paletted2gray. destruct (forallb _ _); run; [|done].
  destruct (encode (ImgGray _)) as [?|b1]; run; [done|by eauto].
Qed.

Lemma variantsGray_directFirst (src : raster byte) :
  directFirst "src (gray)" (ImgGray src) (variantsGray src).
Proof.
  unfold variantsGray, directFirst, asPaletted.
  destruct (encode (ImgGray src)) as [msg|b0] eqn:E0; run; [done|].
  destruct (countGrayColors src <=? 256); run; [|by eauto].
  destruct (encode (ImgPaletted _)) as [?|b2]; run; [done|by eauto].
Qed.

(** What the generator of a truecolor image returns, by what the encoder
    answers. *)
Lemma variantsNRGBA_outcome (src : raster NRGBA) :
  match encode (ImgNRGBA src) with
  | inl msg => variantsNRGBA src = Err (Wrapped "error encode src" (External msg))
  | inr b =>
      match variantsNRGBA src with
      | Ok vs => exists rest, vs = (b, "src (nrgba/rgb)"%string) :: rest
      | Err e =>
          exists context j msg,
            (context, j) ∈ attemptedNRGBA src /\ encode j = inl msg
            /\ e = Wrapped context (External msg)
      end
  end.
Proof.
  unfold variantsNRGBA, attemptedNRGBA, asPaletted.
  destruct (countNRGBAColors src) as [[[n ht] hp] g].
  destruct (encode (ImgNRGBA src)) as [msg|b0]; run; [done|].
  destruct (g && negb (ht || hp)); run.
  - destruct (encode (ImgGray (nrgba2gray src))) as [msg|b1] eqn:E1; run.
    { eexists _, _, msg. split_and!; [apply list_elem_of_here|exact E1|done]. }
    destruct (n <=? 256); run; [|by eauto].
    destruct (encode (ImgPaletted _)) as [msg|b2] eqn:E2; run; [|by eauto].
    eexists _, _, msg.
    split_and!; [apply list_elem_of_further, list_elem_of_here|exact E2|done].
  - destruct (n <=? 256); run; [|by eauto].
    destruct (encode (ImgPaletted _)) as [msg|b2] eqn:E2; run; [|by eauto].
    eexists _, _, msg. split_and!; [apply list_elem_of_here|exact E2|done].
Qed.

(** What the generators return for every image, by what the encoder
    answers for the direct encoding. *)
Lemma candidates_outcome (i : Image) :
  match encode (directImage i) with
  | inl msg => candidates i = Err (Wrapped "error encode src" (External msg))
  | inr b =>
      match candidates i with
      | Ok vs => exists rest, vs = (b, directLabel i) :: rest
      | Err e => laterFailure i e
      end
  end.
Proof.
  destruct i as [v|v|v|v|v|v|v]; simpl.
  - pose proof (variantsNRGBA_outcome (rgba2nrgba v)) as H.
    destruct (encode (ImgNRGBA (rgba2nrgba v))); [done|].
    destruct (variantsNRGBA (rgba2nrgba v)); [done|]. by left.
  - pose proof (variantsNRGBA_outcome v) as H.
    destruct (encode (ImgNRGBA v)); [done|].
    destruct (variantsNRGBA v); [done|]. by left.
  - unfold variantsPaletted, laterFailure. simpl.
    destruct (encode (ImgPaletted v)) as [msg|b0]; run; [done|].
    destruct (isGrayPalette (Palette v)) eqn:Hg; run; [|by eauto].
    destruct (paletted2gray v) as [gray|e] eqn:Hp; run.
    + destruct (encode (ImgGray gray)) as [msg|b1] eqn:E1; run; [|by eauto].
      left. eexists _, _, msg. split_and!; [apply list_elem_of_here|exact E1|done].
    + right. by exists v.
  - unfold variantsGray, laterFailure, asPaletted. simpl.
    destruct (encode (ImgGray v)) as [msg|b0]; run; [done|].
    destruct (countGrayColors v <=? 256); run; [|by eauto].
    destruct (encode (ImgPaletted _)) as [msg|b1] eqn:E1; run; [|by eauto].
    left. eexists _, _, msg. split_and!; [apply list_elem_of_here|exact E1|done].
  - destruct (encode (ImgGray16 v)); run; [done|by eauto].
  - destruct (encode (ImgRGBA64 v)); run; [done|by eauto].
  - destruct (encode (ImgNRGBA64 v)); run; [done|by eauto].
Qed.

(** C6. For every decoded image the generator starts with the direct
    encoding. If the encoder refuses it, the generator returns that error,
    wrapped as ["error encode src"]. If the encoder accepts it, the generator
    returns a list of candidates headed by the direct variant under its
    label, unless the encoder refuses one of the images encoded afterwards
    or [paletted2gray] panics, in which case it returns that failure; so it
    returns candidates whenever the encoder accepts every image it is given
    and nothing panics. The list is never empty, the selection then succeeds
    with one of the candidates, and no run ends in [errNoVariants]. *)
Theorem direct_variant_always_first (i : Image) :
  match encode (directImage i) with
  | inl msg => candidates i = Err (Wrapped "error encode src" (External msg))
  | inr b =>
      match candidates i with
      | Ok vs => exists rest, vs = (b, directLabel i) :: rest
      | Err e => laterFailure i e
      end
  end
  /\ (forall b,
        encode (directImage i) = inr b ->
        (forall context j, (context, j) ∈ attempted i ->
           exists b', encode j = inr b') ->
        (forall v, i = ImgPaletted v -> isGrayPalette (Palette v) = true ->
           exists gray, paletted2gray v = Ok gray) ->
        exists rest, candidates i = Ok ((b, directLabel i) :: rest))
  /\ candidates i ≠ Ok []
  /\ optimizeImage i ≠ Err errNoVariants
  /\ match candidates i with
     | Ok vs => exists chosen, optimizeImage i = Ok chosen /\ chosen ∈ vs
     | Err e => optimizeImage i = Err e
     end.
Proof.
  pose proof (candidates_outcome i) as Hout.
  split; [exact Hout|]. split.
  { intros b Hb Hall Hpanic. rewrite Hb in Hout.
    destruct (candidates i) as [vs|e]; [destruct Hout as [rest ->]; by eauto|].
    exfalso. destruct Hout as [(context & j & msg & Hin & Hj & _)|(v & -> & Hg & Hp)].
    - destruct (Hall context j Hin) as [b' Hb']. congruence.
    - destruct (Hpanic v eq_refl Hg) as [gray Hgray]. congruence. }
  rewrite optimizeImage_candidates.
  destruct (candidates i) as [vs|e]; simpl.
  - assert (exists b rest, vs = (b, directLabel i) :: rest) as (b & rest & ->).
    { destruct (encode (directImage i)); [done|].
      destruct Hout as [rest ->]. by eauto. }
    split_and!; [done|done|]. eexists. split; [done|].
    destruct (best_loop_spec rest (b, directLabel i))
      as [[-> _]|(k & Hk & _)]; [apply list_elem_of_here|].
    apply list_elem_of_further. by eapply list_elem_of_lookup_2.
  - split_and!; [done| |done]. intros [= ->].
    destruct (encode (directImage i)); [done|].
    destruct Hout as [(context & j & msg & _ & _ & ?)|(v & _ & _ & Hp)]; [done|].
    unfold paletted2gray in Hp. by destruct (forallb _ _).
Qed.


(** ** The commit step *)

Lemma string_app_length (s1 s2 : string) :
  String.length (s1 +:+ s2) = (String.length s1 + String.length s2)%nat.
Proof. induction s1 as [|a s1 IH]; simpl; [done|]. by rewrite IH. Qed.

(** The temporary path differs from the path of the original. *)
Lemma tmp_ne (path : string) : (path +:+ ".pngtmp")%string ≠ path.
Proof.
  intros Heq. apply (f_equal String.length) in Heq.
  rewrite string_app_length in Heq. simpl in Heq. lia.
Qed.

(** [PNGOptimizer.savePNG] by cases on what the operating system does. *)
Lemma PNGOptimizer_savePNG_cases env (fs : FS) path b :
  let tmp := (path +:+ ".pngtmp")%string in
  PNGOptimizer_savePNG env fs path b =
    if createOk env then
      match writeFailsAfter env with
      | Some k => (<[tmp := take k b]> (<[tmp := []]> fs), Err (External "write"))
      | None =>
          if renameOk env
          then (delete tmp (<[path := b]> (<[tmp := b]> (<[tmp := []]> fs))), Ok tt)
          else (<[tmp := b]> (<[tmp := []]> fs), Err (External "rename"))
      end
    else (fs, Err (External "create")).
Proof.
  intros tmp. unfold PNGOptimizer_savePNG, savePNG, os_Create, WriteTo, os_Rename.
  fold tmp. destruct (createOk env); [|done].
  destruct (writeFailsAfter env) as [k|]; [done|].
  rewrite lookup_insert_eq. by destruct (renameOk env).
Qed.

(** A failed commit leaves the original as it was; a successful one puts
    the whole new buffer in its place. *)
Lemma PNGOptimizer_savePNG_original env (fs : FS) path b :
  match PNGOptimizer_savePNG env fs path b with
  | (fs', Err _) => fs' !! path = fs !! path
  | (fs', Ok _) => fs' !! path = Some b /\ renameOk env = true
  end.
Proof.
  rewrite PNGOptimizer_savePNG_cases. pose proof (tmp_ne path) as Hne.
  destruct (createOk env); [|done].
  destruct (writeFailsAfter env) as [k|].
  - by rewrite !lookup_insert_ne.
  - destruct (renameOk env).
    + split; [|done]. rewrite lookup_delete_ne by done. apply lookup_insert_eq.
    + by rewrite !lookup_insert_ne.
Qed.

(** [Optimize] once the file is loaded and a variant chosen. *)
Lemma Optimize_loaded env (fs : FS) path content i opt lbl :
  fs !! path = Some content ->
  decode content = inr i ->
  optimizeImage i = Ok (opt, lbl) ->
  Optimize env fs path =
    if Z.of_nat (length content) - Z.of_nat (length opt) <=? 0 then (fs, Ok 0)
    else
      match PNGOptimizer_savePNG env fs path opt with
      | (fs', Err e) => (fs', Err e)
      | (fs', Ok _) =>
          (fs', Ok (U64.wrap (Z.of_nat (length content) - Z.of_nat (length opt))))
      end.
Proof.
  intros Hf Hd Ho. unfold Optimize, loadPNG. rewrite Hf, Hd. simpl.
  by rewrite Ho.
Qed.

(** Before the commit decision [Optimize] does not touch the file system. *)
Lemma Optimize_not_loaded env (fs : FS) path :
  (forall content i opt lbl,
      fs !! path = Some content -> decode content = inr i ->
      optimizeImage i = Ok (opt, lbl) -> False) ->
  exists e, Optimize env fs path = (fs, Err e).
Proof.
  intros Hno. unfold Optimize, loadPNG.
  destruct (fs !! path) as [content|] eqn:Hf; [|by eauto].
  destruct (decode content) as [msg|i] eqn:Hd; [by eauto|]. simpl.
  destruct (optimizeImage i) as [[opt lbl]|e] eqn:Ho; [|by eauto].
  exfalso. eauto.
Qed.

(** C2. Let the file at [path] decode and let [opt] be the selected
    variant. If [opt] is not strictly shorter than the file, [Optimize]
    returns zero and the file system is unchanged, whatever the operating
    system would do. If it is strictly shorter and the temporary write and
    the rename succeed, the file holds [opt] afterwards and the difference
    of the lengths is returned. In every run, the content at [path] differs
    afterwards only if [opt] is strictly shorter. *)
Theorem Optimize_replaces_iff_smaller env (fs : FS) path content i opt lbl :
  fs !! path = Some content ->
  decode content = inr i ->
  optimizeImage i = Ok (opt, lbl) ->
  Z.of_nat (length content) < 2 ^ 63 ->
  ((length content <= length opt)%nat -> Optimize env fs path = (fs, Ok 0))
  /\ ((length opt < length content)%nat ->
      createOk env = true -> writeFailsAfter env = None -> renameOk env = true ->
      (Optimize env fs path).2
        = Ok (Z.of_nat (length content) - Z.of_nat (length opt))
      /\ (Optimize env fs path).1 !! path = Some opt)
  /\ ((Optimize env fs path).1 !! path ≠ fs !! path ->
      (length opt < length content)%nat).
Proof.
  intros Hf Hd Ho Hsz.
  rewrite (Optimize_loaded env fs path content i opt lbl) by done.
  destruct (Z.leb_spec (Z.of_nat (length content) - Z.of_nat (length opt)) 0)
    as [Hle|Hlt].
  - split_and!; [done|intros; lia|done].
  - split_and!; [intros; lia| |intros; lia].
    intros _ Hc Hw Hr.
    rewrite PNGOptimizer_savePNG_cases, Hc, Hw, Hr. simpl. split.
    + unfold U64.wrap, U64.modulus. f_equal. apply Z.mod_small. lia.
    + rewrite lookup_delete_ne by apply tmp_ne. apply lookup_insert_eq.
Qed.

(** C3. After [Optimize], whatever the operating system did, the original
    either has the content it had before, or the rename succeeded and it
    holds the complete selected variant, strictly shorter than the old
    content; whenever an error is returned it has the content it had. *)
Theorem original_untouched_or_replaced env (fs : FS) path :
  ((Optimize env fs path).1 !! path = fs !! path
   \/ exists content i opt lbl,
        fs !! path = Some content /\ decode content = inr i
        /\ optimizeImage i = Ok (opt, lbl)
        /\ (length opt < length content)%nat
        /\ renameOk env = true
        /\ (Optimize env fs path).1 !! path = Some opt
        /\ exists saved, (Optimize env fs path).2 = Ok saved)
  /\ (forall e, (Optimize env fs path).2 = Err e ->
        (Optimize env fs path).1 !! path = fs !! path).
Proof.
  destruct (fs !! path) as [content|] eqn:Hf.
  2:{ destruct (Optimize_not_loaded env fs path) as [e ->]; [congruence|].
      simpl. rewrite Hf. by split; [left|]. }
  destruct (decode content) as [msg|i] eqn:Hd.
  1:{ destruct (Optimize_not_loaded env fs path) as [e ->]; [congruence|].
      simpl. rewrite Hf. by split; [left|]. }
  destruct (optimizeImage i) as [[opt lbl]|e0] eqn:Ho.
  2:{ destruct (Optimize_not_loaded env fs path) as [e ->]; [congruence|].
      simpl. rewrite Hf. by split; [left|]. }
  rewrite (Optimize_loaded env fs path content i opt lbl) by done.
  destruct (Z.leb_spec (Z.of_nat (length content) - Z.of_nat (length opt)) 0) as [Hle|Hlt].
  { simpl. rewrite Hf. by split; [left|]. }
  pose proof (PNGOptimizer_savePNG_original env fs path opt) as Hs.
  destruct (PNGOptimizer_savePNG env fs path opt) as [fs' [[]|e]]; simpl.
  - destruct Hs as [Hnew Hren]. split; [|done].
    right. exists content, i, opt, lbl.
    split_and!; [done|done|done|lia|done|done|by eauto].
  - rewrite Hs, Hf. by split; [left|].
Qed.

(** C8, as the code has it. When the temporary file has been created and
    the write to it fails, [PNGOptimizer.savePNG] returns the write error
    without attempting the rename and nothing removes the temporary path:
    it stays on disk with the bytes written so far; every other path,
    the original included, is as before. *)
Theorem failed_write_keeps_temporary env (fs : FS) path b (k : nat) :
  createOk env = true ->
  writeFailsAfter env = Some k ->
  (PNGOptimizer_savePNG env fs path b).2 = Err (External "write")
  /\ (PNGOptimizer_savePNG env fs path b).1 !! (path +:+ ".pngtmp")%string
     = Some (take k b)
  /\ forall p, p ≠ (path +:+ ".pngtmp")%string ->
       (PNGOptimizer_savePNG env fs path b).1 !! p = fs !! p.
Proof.
  intros Hc Hw. rewrite PNGOptimizer_savePNG_cases, Hc, Hw. simpl.
  repeat split.
  - apply lookup_insert_eq.
  - intros p Hp. by rewrite !lookup_insert_ne.
Qed.


(** ** Scanning and counting *)

Lemma elem_of_zrange (lo hi x : Z) : x ∈ zrange lo hi <-> lo <= x < hi.
Proof.
  unfold zrange. rewrite list_elem_of_fmap. split.
  - intros (i & -> & Hi). apply elem_of_seq in Hi. lia.
  - intros Hx. exists (Z.to_nat (x - lo)). split; [lia|].
    apply elem_of_seq. lia.
Qed.

Lemma zrange_empty (lo hi : Z) : hi <= lo -> zrange lo hi = [].
Proof.
  intros Hle. unfold zrange.
  by replace (Z.to_nat (hi - lo)) with 0%nat by lia.
Qed.

(** Every pixel inside the bounds is visited by the loops. *)
Lemma scan_elem {C} (img : raster C) (x y : Z) :
  inRect (Bounds img) x y = true -> At img x y ∈ scan img.
Proof.
  unfold inRect, scan. intros Hin.
  apply andb_prop in Hin as [Hin Hy2]. apply andb_prop in Hin as [Hin Hy1].
  apply andb_prop in Hin as [Hx1 Hx2].
  apply list_elem_of_bind. exists y. split.
  - apply list_elem_of_bind. exists x. split; [apply list_elem_of_here|].
    apply elem_of_zrange. lia.
  - apply elem_of_zrange. lia.
Qed.

(** Empty bounds: the loops run no iteration. *)
Lemma scan_empty {C} (img : raster C) :
  MaxX (Bounds img) <= MinX (Bounds img)
  \/ MaxY (Bounds img) <= MinY (Bounds img) ->
  scan img = [].
Proof.
  unfold scan. intros [Hx|Hy].
  - rewrite (zrange_empty (MinX _)) by done.
    induction (zrange (MinY _) (MaxY _)) as [|y l IH]; [done|].
    simpl in *. exact IH.
  - by rewrite (zrange_empty (MinY _)) by done.
Qed.

Lemma colorsSeen_foldl (l : list NRGBA) : forall st,
  colorsSeen (foldl countStep st l) = list_to_set l ∪ colorsSeen st.
Proof.
  induction l as [|c l IH]; intros st; simpl.
  - set_solver.
  - rewrite IH. simpl. set_solver.
Qed.

(** The colour set of the classifier is the set of pixel values. *)
Lemma colorsSeen_scan (img : raster NRGBA) :
  colorsSeen (countNRGBAStats img) = list_to_set (scan img).
Proof.
  unfold countNRGBAStats. rewrite colorsSeen_foldl. simpl. set_solver.
Qed.

Lemma frequencies_dom_foldl `{Countable K} (l : list K) : forall m : gmap K Z,
  dom (foldl bump m l) = list_to_set l ∪ dom m.
Proof.
  induction l as [|c l IH]; intros m; simpl.
  - set_solver.
  - rewrite IH. unfold bump. rewrite dom_insert_L. set_solver.
Qed.

(** The keys of the frequency table are the pixel values. *)
Lemma frequencies_dom `{Countable K} (l : list K) :
  dom (frequencies l) = (list_to_set l : gset K).
Proof.
  unfold frequencies. rewrite frequencies_dom_foldl, dom_empty_L. set_solver.
Qed.

Lemma keys_elem `{Countable K} (m : gmap K Z) (c : K) :
  c ∈ (map_to_list m).*1 <-> c ∈ dom m.
Proof.
  rewrite list_elem_of_fmap, elem_of_dom. split.
  - intros ([c' v] & -> & Hcv). apply elem_of_map_to_list in Hcv. by eauto.
  - intros [v Hv]. exists (c, v). split; [done|]. by apply elem_of_map_to_list.
Qed.

Lemma keys_length `{Countable K} (m : gmap K Z) :
  length ((map_to_list m).*1) = size (dom m).
Proof. by rewrite length_fmap, length_map_to_list, size_dom. Qed.

(** Counters stay within [uint]. *)
Lemma frequencies_in_range `{Countable K} (l : list K) (c : K) :
  U64.in_range (freq (frequencies l) c).
Proof.
  unfold frequencies.
  assert (forall m : gmap K Z,
            (forall k, U64.in_range (freq m k)) ->
            U64.in_range (freq (foldl bump m l) c)) as Hgen.
  { induction l as [|x l IH]; intros m Hm; simpl; [done|].
    apply IH. intros k. unfold bump, freq.
    destruct (decide (x = k)) as [->|Hne].
    - rewrite lookup_insert_eq. simpl. unfold U64.add, U64.wrap, U64.in_range.
      apply Z.mod_pos_bound. by unfold U64.modulus.
    - rewrite lookup_insert_ne by done. apply Hm. }
  apply Hgen. intros k. unfold freq. rewrite lookup_empty. simpl.
  unfold U64.in_range, U64.modulus. lia.
Qed.

(** [a - b > 0] on [uint] only says that the operands differ. *)
Lemma usub_pos (a b : Z) :
  U64.in_range a -> U64.in_range b -> (0 <? U64.sub a b) = negb (a =? b).
Proof.
  unfold U64.in_range, U64.sub, U64.wrap, U64.modulus. intros Ha Hb.
  destruct (Z.eqb_spec a b) as [->|Hne]; simpl.
  - by rewrite Z.sub_diag.
  - apply Z.ltb_lt.
    destruct (Z_lt_le_dec a b).
    + rewrite <- (Z_mod_plus_full _ 1). rewrite Z.mod_small; lia.
    + rewrite Z.mod_small; lia.
Qed.


Lemma size_list_to_set_le `{Countable K} (l : list K) :
  (size (list_to_set l : gset K) <= length l)%nat.
Proof.
  induction l as [|a l IH].
  - rewrite list_to_set_nil, size_empty. simpl. lia.
  - rewrite list_to_set_cons, size_union_alt, size_singleton.
    assert ((list_to_set l : gset K) ∖ {[a]} ⊆ list_to_set l) as Hsub
      by set_solver.
    apply subseteq_size in Hsub. simpl. lia.
Qed.

Lemma set_map_size_le `{Countable K} (f : K -> K) (X : gset K) :
  (size (set_map f X : gset K) <= size X)%nat.
Proof.
  unfold set_map. etrans; [apply size_list_to_set_le|].
  by rewrite length_fmap.
Qed.

(** Merging two members of a set makes it smaller. *)
Lemma set_map_size_lt `{Countable K} (f : K -> K) (X : gset K) (x y : K) :
  x ∈ X -> y ∈ X -> x ≠ y -> f x = f y ->
  (size (set_map f X : gset K) < size X)%nat.
Proof.
  intros Hx Hy Hne Hf.
  assert ((set_map f X : gset K) ⊆ set_map f (X ∖ {[x]})) as Hsub.
  { intros z (w & -> & Hw)%elem_of_map.
    destruct (decide (w = x)) as [->|Hwx].
    - rewrite Hf. apply elem_of_map_2, elem_of_difference.
      split; [done|]. rewrite elem_of_singleton. congruence.
    - apply elem_of_map_2, elem_of_difference.
      split; [done|]. by rewrite elem_of_singleton. }
  apply subseteq_size in Hsub.
  pose proof (set_map_size_le f (X ∖ {[x]})) as Hle.
  assert (X ∖ {[x]} ⊂ X) as Hstrict.
  { split.
    - intros z Hz. apply elem_of_difference in Hz. tauto.
    - intros Hsup. specialize (Hsup x Hx).
      apply elem_of_difference in Hsup as [_ Hn].
      apply Hn. by apply elem_of_singleton. }
  apply subset_size in Hstrict. lia.
Qed.

Lemma u8_zero (b : byte) : u8 b = 0 -> b = x00.
Proof.
  unfold u8. intros Hb.
  assert (Byte.to_N b = 0%N) as Hn by lia.
  pose proof (Byte.of_to_N b) as Hof. rewrite Hn in Hof.
  simpl in Hof. congruence.
Qed.

(** ** The palette builders *)

Section Palettes.
Hypothesis range_ok : enumerates rangeNRGBA.

Lemma rawPalette_elem (img : raster NRGBA) (c : NRGBA) :
  c ∈ rangeNRGBA (frequencies (scan img)) <-> c ∈ scan img.
Proof.
  rewrite (range_ok _), keys_elem, frequencies_dom.
  apply elem_of_list_to_set.
Qed.

Lemma rawPalette_length (img : raster NRGBA) :
  length (rangeNRGBA (frequencies (scan img)))
  = size (colorsSeen (countNRGBAStats img)).
Proof.
  rewrite (Permutation_length (range_ok _)), keys_length.
  by rewrite frequencies_dom, colorsSeen_scan.
Qed.

Lemma rawPalette_NoDup (img : raster NRGBA) :
  NoDup (rangeNRGBA (frequencies (scan img))).
Proof. rewrite (range_ok _). apply NoDup_fst_map_to_list. Qed.

(** The palette is a rearrangement of the enumerated keys. *)
Lemma paletteFromNRGBA_perm (img : raster NRGBA) (hint : Z) :
  rearranges pdqsort ->
  paletteFromNRGBA img hint
  ≡ₚ ColNRGBA <$> rangeNRGBA (frequencies (scan img)).
Proof.
  intros Hsort. unfold paletteFromNRGBA.
  apply fmap_Permutation, Sort_perm. intros k. apply Hsort.
Qed.
End Palettes.


(** The comparator puts every fully transparent colour below every other
    colour, whatever the frequencies are. *)
Lemma Less_transparent_other colors (ci cj : NRGBA) :
  (u8 (cA ci) =? 0) = true -> (u8 (cA cj) =? 0) = false ->
  nrgbaPaletteSorter_Less colors ci cj = true.
Proof.
  intros Hi Hj. unfold nrgbaPaletteSorter_Less.
  apply Z.eqb_eq in Hi. apply Z.eqb_neq in Hj.
  destruct (Z.eqb_spec (u8 (cA ci)) (u8 (cA cj))); [lia|].
  by destruct (Z.eqb_spec (u8 (cA ci)) 0).
Qed.

Lemma Less_other_transparent colors (ci cj : NRGBA) :
  (u8 (cA ci) =? 0) = false -> (u8 (cA cj) =? 0) = true ->
  nrgbaPaletteSorter_Less colors ci cj = false.
Proof.
  intros Hi Hj. unfold nrgbaPaletteSorter_Less.
  apply Z.eqb_neq in Hi. apply Z.eqb_eq in Hj.
  destruct (Z.eqb_spec (u8 (cA ci)) (u8 (cA cj))); [lia|].
  destruct (Z.eqb_spec (u8 (cA ci)) 0); [done|].
  by destruct (Z.eqb_spec (u8 (cA cj)) 0).
Qed.

Lemma u8_range (b : byte) : 0 <= u8 b <= 255.
Proof. unfold u8. pose proof (Byte.to_N_bounded b). lia. Qed.

(** Likewise every colour that is not opaque is below every opaque one. *)
Lemma Less_alpha_opaque colors (ci cj : NRGBA) :
  (u8 (cA ci) <? MaxUint8) = true -> (u8 (cA cj) <? MaxUint8) = false ->
  nrgbaPaletteSorter_Less colors ci cj = true.
Proof.
  intros Hi Hj. unfold nrgbaPaletteSorter_Less, MaxUint8 in *.
  apply Z.ltb_lt in Hi. apply Z.ltb_ge in Hj.
  pose proof (u8_range (cA ci)). pose proof (u8_range (cA cj)).
  repeat match goal with
         | |- context [Z.eqb ?a ?b] => destruct (Z.eqb_spec a b)
         | |- context [Z.ltb ?a ?b] => destruct (Z.ltb_spec a b)
         end; simpl; try done; lia.
Qed.

Lemma Less_opaque_alpha colors (ci cj : NRGBA) :
  (u8 (cA ci) <? MaxUint8) = false -> (u8 (cA cj) <? MaxUint8) = true ->
  nrgbaPaletteSorter_Less colors ci cj = false.
Proof.
  intros Hi Hj. unfold nrgbaPaletteSorter_Less, MaxUint8 in *.
  apply Z.ltb_ge in Hi. apply Z.ltb_lt in Hj.
  pose proof (u8_range (cA ci)). pose proof (u8_range (cA cj)).
  repeat match goal with
         | |- context [Z.eqb ?a ?b] => destruct (Z.eqb_spec a b)
         | |- context [Z.ltb ?a ?b] => destruct (Z.ltb_spec a b)
         end; simpl; try done; lia.
Qed.

(** An image of at most 12 distinct colours is sorted by [insertionSort]. *)
Lemma short_sortRunsOn (img : raster NRGBA) :
  enumerates rangeNRGBA ->
  (size (colorsSeen (countNRGBAStats img)) <= 12)%nat ->
  sortRunsOn img.
Proof. intros Hrange Hshort. left. by rewrite (rawPalette_length Hrange). Qed.

Lemma runsPdqsort_sortRunsOn (img : raster NRGBA) :
  runsPdqsort pdqsort -> sortRunsOn img.
Proof. intros Hrun. right. apply Hrun. Qed.

(** The category part of the ordering holds whatever the frequencies are:
    transparent entries, then translucent ones, then opaque ones. *)
Lemma palette_category_order (img : raster NRGBA) (hint : Z) (i j : nat) (ci cj : NRGBA) :
  sortRunsOn img ->
  (i < j)%nat ->
  paletteFromNRGBA img hint !! i = Some (ColNRGBA ci) ->
  paletteFromNRGBA img hint !! j = Some (ColNRGBA cj) ->
  (category ci <= category cj)%nat.
Proof.
  intros Hrun' Hij Hi Hj. unfold paletteFromNRGBA in Hi, Hj. unfold sortRunsOn in Hrun'.
  set (colors := frequencies (scan img)) in *.
  rewrite list_lookup_fmap in Hi. rewrite list_lookup_fmap in Hj.
  destruct (GoSort.Sort _ _ _ !! i) as [ci'|] eqn:Ei; [|done].
  destruct (GoSort.Sort _ _ _ !! j) as [cj'|] eqn:Ej; [|done].
  injection Hi as ->. injection Hj as ->.
  destruct (Sort_block (nrgbaPaletteSorter_Less colors) (fun c => u8 (cA c) =? 0)
              (Less_transparent_other colors) (Less_other_transparent colors)
              (pdqsort NRGBA (nrgbaPaletteSorter_Less colors)) (rangeNRGBA colors)
              Hrun') as [B1 _].
  destruct (Sort_block (nrgbaPaletteSorter_Less colors) (fun c => u8 (cA c) <? MaxUint8)
              (Less_alpha_opaque colors) (Less_opaque_alpha colors)
              (pdqsort NRGBA (nrgbaPaletteSorter_Less colors)) (rangeNRGBA colors)
              Hrun') as [B2 _].
  pose proof (blockFirst_lookup _ _ i j ci cj B1 Hij Ei Ej) as H1.
  pose proof (blockFirst_lookup _ _ i j ci cj B2 Hij Ei Ej) as H2.
  unfold category. simpl in H1, H2.
  destruct (u8 (cA cj) =? 0) eqn:Z1; [rewrite H1 by done; lia|].
  destruct (u8 (cA cj) <? MaxUint8) eqn:Z2; [rewrite H2 by done|].
  - destruct (u8 (cA ci) =? 0); lia.
  - destruct (u8 (cA ci) =? 0); [lia|]. destruct (u8 (cA ci) <? MaxUint8); lia.
Qed.

(** C4, as the code has it. When the image has a fully transparent pixel,
    index 0 of the palette holds a fully transparent colour of the image; if
    the image has only one such colour, it is that colour. This holds for
    every enumeration order of the map, whenever the sort proceeds as
    [sort.Sort] does: outright for an image of at most 12 distinct colours
    ([short_sortRunsOn]), and through any run of [pdqsort] beyond. *)
Theorem transparent_at_index_0 (img : raster NRGBA) (hint : Z) (t : NRGBA) :
  enumerates rangeNRGBA ->
  sortRunsOn img ->
  t ∈ scan img ->
  cA t = x00 ->
  exists z : NRGBA,
    paletteFromNRGBA img hint !! 0%nat = Some (ColNRGBA z)
    /\ cA z = x00
    /\ z ∈ scan img
    /\ ((forall c, c ∈ scan img -> cA c = x00 -> c = t) -> z = t).
Proof.
  intros Hrange Hrun' Ht Ha. unfold sortRunsOn in Hrun'.
  set (colors := frequencies (scan img)) in *.
  destruct (Sort_block (nrgbaPaletteSorter_Less colors) (fun c => u8 (cA c) =? 0)
              (Less_transparent_other colors) (Less_other_transparent colors)
              (pdqsort NRGBA (nrgbaPaletteSorter_Less colors)) (rangeNRGBA colors)
              Hrun') as [Hblock Hperm].
  destruct (blockFirst_head _ _ t Hblock) as (z & Hz & Hzt).
  { rewrite Hperm. by apply rawPalette_elem. }
  { by rewrite Ha. }
  assert (z ∈ scan img) as Hzs.
  { apply (rawPalette_elem Hrange). fold colors. rewrite <- Hperm.
    apply head_Some_elem_of, Hz. }
  assert (cA z = x00) as Hza by (apply u8_zero; lia).
  exists z. split_and!; [|done|done|by auto].
  unfold paletteFromNRGBA. fold colors.
  by rewrite list_lookup_fmap, <- head_lookup, Hz.
Qed.

(** C9. Two fully transparent pixels whose RGB components differ are two
    members of the classifier's colour set and two entries of the palette:
    the count is the number of distinct [NRGBA] values, at least 2 here and
    strictly larger than it would be with the transparent colours unified;
    the palette has one entry per counted colour, without repetition. *)
Theorem transparent_colors_not_unified (img : raster NRGBA) (x1 y1 x2 y2 hint : Z) :
  enumerates rangeNRGBA ->
  rearranges pdqsort ->
  inRect (Bounds img) x1 y1 = true ->
  inRect (Bounds img) x2 y2 = true ->
  cA (At img x1 y1) = x00 ->
  cA (At img x2 y2) = x00 ->
  (cR (At img x1 y1), cG (At img x1 y1), cB (At img x1 y1))
    ≠ (cR (At img x2 y2), cG (At img x2 y2), cB (At img x2 y2)) ->
  let c1 := At img x1 y1 in
  let c2 := At img x2 y2 in
  let n := (countNRGBAColors img).1.1.1 in
  let colors := colorsSeen (countNRGBAStats img) in
  let palette := paletteFromNRGBA img hint in
  c1 ∈ colors /\ c2 ∈ colors
  /\ n = Z.of_nat (size (list_to_set (scan img) : gset NRGBA))
  /\ 2 <= n
  /\ Z.of_nat (size (set_map unifyTransparent colors : gset NRGBA)) < n
  /\ NoDup palette
  /\ Z.of_nat (length palette) = n
  /\ exists i j : nat,
       i ≠ j /\ palette !! i = Some (ColNRGBA c1)
       /\ palette !! j = Some (ColNRGBA c2).
Proof.
  intros Hrange Hsort Hin1 Hin2 Ha1 Ha2 Hrgb c1 c2 n colors palette.
  assert (c1 ≠ c2) as Hne.
  { intros Heq. apply Hrgb. unfold c1, c2 in Heq. by rewrite Heq. }
  assert (c1 ∈ colors) as H1.
  { unfold colors. rewrite colorsSeen_scan, elem_of_list_to_set.
    by apply scan_elem. }
  assert (c2 ∈ colors) as H2.
  { unfold colors. rewrite colorsSeen_scan, elem_of_list_to_set.
    by apply scan_elem. }
  assert (n = Z.of_nat (size colors)) as Hn by done.
  assert (unifyTransparent c1 = unifyTransparent c2) as Hu.
  { unfold unifyTransparent, c1, c2. by rewrite Ha1, Ha2. }
  pose proof (set_map_size_lt unifyTransparent colors c1 c2 H1 H2 Hne Hu) as Hlt.
  assert (1 <= size (set_map unifyTransparent colors : gset NRGBA))%nat as Hpos.
  { assert (size (set_map unifyTransparent colors : gset NRGBA) ≠ 0%nat) as Hnz.
    { intros Hs. apply size_empty_iff in Hs.
      assert (unifyTransparent c1 ∈ (set_map unifyTransparent colors : gset NRGBA))
        as Hi by (by apply elem_of_map_2).
      rewrite Hs in Hi. by apply not_elem_of_empty in Hi. }
    lia. }
  assert (palette ≡ₚ ColNRGBA <$> rangeNRGBA (frequencies (scan img))) as Hp
    by (by apply paletteFromNRGBA_perm).
  assert (forall c, c ∈ colors -> ColNRGBA c ∈ palette) as Hmem.
  { intros c Hc. rewrite Hp. apply list_elem_of_fmap_2.
    apply (rawPalette_elem Hrange).
    unfold colors in Hc. by rewrite colorsSeen_scan, elem_of_list_to_set in Hc. }
  split_and!; [done|done| |lia|lia| | |].
  - rewrite Hn. unfold colors. by rewrite colorsSeen_scan.
  - rewrite Hp. apply NoDup_fmap_2; [by intros ?? [=]|].
    by apply rawPalette_NoDup.
  - rewrite (Permutation_length Hp), length_fmap, (rawPalette_length Hrange).
    done.
  - destruct (list_elem_of_lookup_1 _ _ (Hmem c1 H1)) as [i Hi].
    destruct (list_elem_of_lookup_1 _ _ (Hmem c2 H2)) as [j Hj].
    exists i, j. split_and!; [|done|done].
    intros ->. congruence.
Qed.


(** C10, as the code has it. On an image with empty bounds the classifier
    returns [(0, false, false, true)] and the palette is empty, so both
    tests of the generator pass and the gray and the paletted image over the
    empty palette are the two it would go on to encode. The generator gets
    no further than the direct encoding, though: [png.Encoder.Encode]
    refuses an image without pixels, so [optimizeNRGBA] returns
    "error encode src" and no variant at all. *)
Theorem empty_image_variants (src : raster NRGBA) :
  enumerates rangeNRGBA ->
  MaxX (Bounds src) <= MinX (Bounds src)
  \/ MaxY (Bounds src) <= MinY (Bounds src) ->
  countNRGBAColors src = (0, false, false, true)
  /\ paletteFromNRGBA src 0 = []
  /\ attemptedNRGBA src
     = [("error encode gray"%string, ImgGray (nrgba2gray src));
        ("error encode paletted"%string, ImgPaletted (toPaletted ColNRGBA src []))]
  /\ (refusesEmpty encode ->
      exists msg,
        encode (ImgNRGBA src) = inl msg
        /\ variantsNRGBA src = Err (Wrapped "error encode src" (External msg))
        /\ optimizeNRGBA src = Err (Wrapped "error encode src" (External msg))).
Proof.
  intros Hrange Hempty.
  pose proof (scan_empty src Hempty) as Hscan.
  assert (countNRGBAColors src = (0, false, false, true)) as Hcount.
  { unfold countNRGBAColors, countNRGBAStats. rewrite Hscan.
    change (foldl countStep countInit []) with countInit.
    unfold countInit. cbn [colorsSeen hasTransparent hasPartAlpha isGray].
    by rewrite size_empty. }
  assert (paletteFromNRGBA src 0 = []) as Hpal.
  { unfold paletteFromNRGBA. rewrite Hscan.
    assert (rangeNRGBA (frequencies []) = []) as ->; [|done].
    apply Permutation_nil_r. rewrite (Hrange _).
    unfold frequencies. simpl. by rewrite map_to_list_empty. }
  split_and!; [done|done| |].
  - unfold attemptedNRGBA. rewrite Hcount. cbn [andb orb negb app].
    change (0 <=? 256) with true. cbn [app]. by rewrite Hpal.
  - intros Hrefuses.
    destruct (Hrefuses (ImgNRGBA src)) as [msg Hmsg].
    { unfold Dx, Dy. cbn [imageBounds]. lia. }
    exists msg. split; [done|].
    assert (variantsNRGBA src = Err (Wrapped "error encode src" (External msg)))
      as Hvariants.
    { unfold variantsNRGBA. rewrite Hmsg. by run. }
    split; [done|]. unfold optimizeNRGBA. rewrite Hvariants. by run.
Qed.

(** C7, as the code has it. For an 8-bit truecolor image (premultiplied or
    not) and for an 8-bit grayscale image, if the count of distinct colours
    is at most 256 and the encoder accepts the images the generator gives it
    (the direct one and those encoded after it), the candidates end with the
    "paletted" variant: the encoding of the source redrawn over the palette
    built from its frequency table. The other image types (paletted,
    [Gray16], [RGBA64], [NRGBA64]) have no count, no such image and never a
    "paletted" candidate. *)
Theorem paletted_variant_present (i : Image) :
  (forall (n : Z) (b0 : list byte),
     colorCount i = Some n ->
     n <= 256 ->
     encode (directImage i) = inr b0 ->
     (forall context j, (context, j) ∈ attempted i -> exists b, encode j = inr b) ->
     exists (p : Image) (vs : variantsList) (bp : list byte),
       indexedImage i = Some p
       /\ ("error encode paletted"%string, p) ∈ attempted i
       /\ encode p = inr bp
       /\ candidates i = Ok vs
       /\ last vs = Some (bp, "paletted"%string))
  /\ (colorCount i = None ->
      indexedImage i = None
      /\ forall vs b, candidates i = Ok vs -> (b, "paletted"%string) ∉ vs).
Proof.
  assert (forall (src : raster NRGBA) (b0 : list byte),
            (countNRGBAColors src).1.1.1 <= 256 ->
            encode (ImgNRGBA src) = inr b0 ->
            (forall context j, (context, j) ∈ attemptedNRGBA src ->
               exists b, encode j = inr b) ->
            exists vs bp,
              ("error encode paletted"%string,
               ImgPaletted (toPaletted ColNRGBA src
                              (paletteFromNRGBA src (countNRGBAColors src).1.1.1)))
                ∈ attemptedNRGBA src
              /\ encode (ImgPaletted (toPaletted ColNRGBA src
                           (paletteFromNRGBA src (countNRGBAColors src).1.1.1)))
                 = inr bp
              /\ variantsNRGBA src = Ok vs
              /\ last vs = Some (bp, "paletted"%string)) as Hnrgba.
  { intros src b0 Hle E0. unfold variantsNRGBA, attemptedNRGBA, asPaletted.
    destruct (countNRGBAColors src) as [[[m ht] hp] g]. cbn [fst] in Hle |- *.
    rewrite E0. run.
    destruct (Z.leb_spec m 256) as [_|Hgt]; [|lia]. intros Henc.
    destruct (Henc "error encode paletted"%string
                (ImgPaletted (toPaletted ColNRGBA src (paletteFromNRGBA src m))))
      as [bp Ep].
    { apply elem_of_app. right. apply list_elem_of_here. }
    destruct (g && negb (ht || hp)); run.
    - destruct (Henc "error encode gray"%string (ImgGray (nrgba2gray src)))
        as [b1 E1]; [apply list_elem_of_here|].
      rewrite E1. run. rewrite Ep. run.
      eexists _, bp. split_and!; [|done|done|done].
      apply list_elem_of_further, list_elem_of_here.
    - rewrite Ep. run. eexists _, bp. split_and!; [|done|done|done].
      apply list_elem_of_here. }
  split.
  - intros n b0 Hcount Hn E0 Henc.
    destruct i as [v|v|v|v|v|v|v]; simpl in Hcount; try discriminate;
      injection Hcount as <-.
    + destruct (Hnrgba _ b0 Hn E0 Henc) as (vs & bp & Hin & Ep & Hvs & Hlast).
      eexists _, vs, bp. by split_and!.
    + destruct (Hnrgba _ b0 Hn E0 Henc) as (vs & bp & Hin & Ep & Hvs & Hlast).
      eexists _, vs, bp. by split_and!.
    + simpl in *. unfold variantsGray, asPaletted. rewrite E0. run.
      revert Henc. destruct (Z.leb_spec (countGrayColors v) 256) as [_|Hgt]; [|lia].
      intros Henc.
      destruct (Henc _ _ (list_elem_of_here _ _)) as [bp Ep].
      rewrite Ep. run. eexists _, _, bp.
      split_and!; [done|apply list_elem_of_here|done|done|done].
  - intros Hnone.
    destruct i as [v|v|v|v|v|v|v]; simpl in Hnone; try discriminate;
      (split; [done|]); simpl; intros vs b.
    + unfold variantsPaletted.
      destruct (encode (ImgPaletted v)) as [msg|b0]; run; [done|].
      destruct (isGrayPalette (Palette v)); run.
      * destruct (paletted2gray v) as [gray|e]; run; [|done].
        destruct (encode (ImgGray gray)) as [msg|b1]; run; [done|].
        intros [= <-] Hb.
        repeat (apply elem_of_cons in Hb as [Hb|Hb]; [congruence|]).
        by apply elem_of_nil in Hb.
      * intros [= <-] Hb.
        repeat (apply elem_of_cons in Hb as [Hb|Hb]; [congruence|]).
        by apply elem_of_nil in Hb.
    + destruct (encode (ImgGray16 v)) as [msg|b0]; run; [done|].
      intros [= <-] Hb. apply list_elem_of_singleton in Hb. congruence.
    + destruct (encode (ImgRGBA64 v)) as [msg|b0]; run; [done|].
      intros [= <-] Hb. apply list_elem_of_singleton in Hb. congruence.
    + destruct (encode (ImgNRGBA64 v)) as [msg|b0]; run; [done|].
      intros [= <-] Hb. apply list_elem_of_singleton in Hb. congruence.
Qed.

(** ** The frequency comparison *)

(** On the table built by the palette builders, the comparison written
    [colors[a]-colors[b] > 0] holds exactly when the two counts differ. *)
Lemma grayLess_differs (l : list byte) (ci cj : byte) :
  grayLess (frequencies l) ci cj
  = negb (freq (frequencies l) ci =? freq (frequencies l) cj).
Proof. unfold grayLess. apply usub_pos; apply frequencies_in_range. Qed.

Lemma grayLess_symmetric (l : list byte) (ci cj : byte) :
  grayLess (frequencies l) ci cj = grayLess (frequencies l) cj ci.
Proof. by rewrite !grayLess_differs, Z.eqb_sym. Qed.

Lemma Less_same_alpha_differs (l : list NRGBA) (ci cj : NRGBA) :
  cA ci = cA cj ->
  nrgbaPaletteSorter_Less (frequencies l) ci cj
  = negb (freq (frequencies l) ci =? freq (frequencies l) cj).
Proof.
  intros Ha. unfold nrgbaPaletteSorter_Less. rewrite Ha, Z.eqb_refl.
  apply usub_pos; apply frequencies_in_range.
Qed.



(** ** The classifier [countNRGBAColors] *)

Lemma u8_inj (a b : byte) : u8 a = u8 b -> a = b.
Proof.
  unfold u8. intros Hab.
  assert (Byte.to_N a = Byte.to_N b) as Hn by lia.
  pose proof (Byte.of_to_N a) as Ha. pose proof (Byte.of_to_N b) as Hb.
  rewrite Hn in Ha. congruence.
Qed.

Lemma u8_eqb_zero (b : byte) : (u8 b =? 0) = bool_decide (b = x00).
Proof.
  destruct (Z.eqb_spec (u8 b) 0) as [Hz|Hz]; symmetry.
  - apply bool_decide_eq_true. by apply u8_zero.
  - apply bool_decide_eq_false. by intros ->.
Qed.

Lemma u8_ltb_max (b : byte) : (u8 b <? MaxUint8) = bool_decide (b ≠ xff).
Proof.
  unfold MaxUint8. pose proof (u8_range b) as Hr.
  destruct (Z.ltb_spec (u8 b) 255) as [Hlt|Hge]; symmetry.
  - apply bool_decide_eq_true. intros ->. by vm_compute in Hlt.
  - apply bool_decide_eq_false. intros Hne. apply Hne.
    apply u8_inj. change (u8 xff) with 255. lia.
Qed.

(** The three flags after the pixel loop, from their values before it. *)
Lemma countStep_flags (l : list NRGBA) : forall st,
  (hasTransparent (foldl countStep st l) = true
   <-> hasTransparent st = true \/ exists c, c ∈ l /\ cA c = x00)
  /\ (hasPartAlpha (foldl countStep st l) = true
      <-> hasPartAlpha st = true \/ exists c, c ∈ l /\ cA c ≠ x00 /\ cA c ≠ xff)
  /\ (isGray (foldl countStep st l) = true
      <-> isGray st = true /\ forall c, c ∈ l -> cR c = cG c /\ cR c = cB c).
Proof.
  induction l as [|c l IH]; intros st.
  - simpl. split_and!.
    + split; [by left|]. intros [H|(c & Hc & _)]; [done|].
      by apply elem_of_nil in Hc.
    + split; [by left|]. intros [H|(c & Hc & _)]; [done|].
      by apply elem_of_nil in Hc.
    + split; [|by intros [H _]]. intros H. split; [done|].
      intros c Hc. by apply elem_of_nil in Hc.
  - change (foldl countStep st (c :: l)) with (foldl countStep (countStep st c) l).
    destruct (IH (countStep st c)) as (IHt & IHp & IHg).
    rewrite IHt, IHp, IHg. clear IH IHt IHp IHg.
    unfold countStep. cbn [hasTransparent hasPartAlpha isGray].
    rewrite u8_ltb_max, u8_eqb_zero.
    split_and!.
    + split.
      * intros [H|(c' & Hc' & Ha)].
        -- repeat case_bool_decide; try (by left);
             right; exists c; split; [apply list_elem_of_here|done].
        -- right. exists c'. split; [by apply list_elem_of_further|done].
      * intros [H|(c' & [->|Hc']%elem_of_cons & Ha)].
        -- left. by repeat case_bool_decide.
        -- left. rewrite Ha. by repeat case_bool_decide.
        -- right. by eauto.
    + split.
      * intros [H|(c' & Hc' & Ha)].
        -- repeat case_bool_decide; try (by left);
             right; exists c; split; [apply list_elem_of_here|done].
        -- right. exists c'. split; [by apply list_elem_of_further|done].
      * intros [H|(c' & [->|Hc']%elem_of_cons & Ha0 & Ha1)].
        -- left. by repeat case_bool_decide.
        -- left. by repeat case_bool_decide.
        -- right. by eauto.
    + split.
      * intros [H Hall].
        repeat case_bool_decide; simpl in H; try discriminate.
        split; [done|]. intros c' [->|Hc']%elem_of_cons; [|by auto].
        split; [by destruct (decide (cR c = cG c))|by destruct (decide (cR c = cB c))].
      * intros [H Hall]. split; [|intros c' Hc'; apply Hall; by apply list_elem_of_further].
        destruct (Hall c (list_elem_of_here _ _)) as [Hrg Hrb].
        rewrite !bool_decide_eq_false_2; [done|congruence|congruence|congruence].
Qed.

(** What the classifier returns, read on the pixels. *)
Lemma countNRGBAColors_flags (img : raster NRGBA) :
  (countNRGBAColors img).1.1.1
    = Z.of_nat (size (list_to_set (scan img) : gset NRGBA))
  /\ ((countNRGBAColors img).1.1.2 = true
      <-> exists c, c ∈ scan img /\ cA c = x00)
  /\ ((countNRGBAColors img).1.2 = true
      <-> exists c, c ∈ scan img /\ cA c ≠ x00 /\ cA c ≠ xff)
  /\ ((countNRGBAColors img).2 = true
      <-> forall c, c ∈ scan img -> cR c = cG c /\ cR c = cB c).
Proof.
  unfold countNRGBAColors. cbn [fst snd].
  destruct (countStep_flags (scan img) countInit) as (Ht & Hp & Hg).
  fold (countNRGBAStats img) in Ht, Hp, Hg.
  split_and!.
  - by rewrite colorsSeen_scan.
  - rewrite Ht. simpl. split; [by intros [?|?]|by right].
  - rewrite Hp. simpl. split; [by intros [?|?]|by right].
  - rewrite Hg. simpl. split; [by intros [_ ?]|by split].
Qed.

(** X1. The classifier's answer, read on the pixels inside the bounds: the
    count is the number of distinct [NRGBA] values; [hasTransparent] says
    that some pixel has alpha 0; [hasPartAlpha] that some pixel has an alpha
    strictly between 0 and 255; [isGray] that every pixel has its three
    colour channels equal. *)
Theorem classifier_flags (img : raster NRGBA) :
  (countNRGBAColors img).1.1.1
    = Z.of_nat (size (list_to_set (scan img) : gset NRGBA))
  /\ ((countNRGBAColors img).1.1.2 = true
      <-> exists c, c ∈ scan img /\ cA c = x00)
  /\ ((countNRGBAColors img).1.2 = true
      <-> exists c, c ∈ scan img /\ cA c ≠ x00 /\ cA c ≠ xff)
  /\ ((countNRGBAColors img).2 = true
      <-> forall c, c ∈ scan img -> cR c = cG c /\ cR c = cB c).
Proof.
  unfold countNRGBAColors. cbn [fst snd].
  destruct (countStep_flags (scan img) countInit) as (Ht & Hp & Hg).
  fold (countNRGBAStats img) in Ht, Hp, Hg.
  split_and!.
  - by rewrite colorsSeen_scan.
  - rewrite Ht. simpl. split; [by intros [?|?]|by right].
  - rewrite Hp. simpl. split; [by intros [?|?]|by right].
  - rewrite Hg. simpl. split; [by intros [_ ?]|by split].
Qed.


Lemma bind_length_const {X Y} (f : X -> list Y) (m : nat) (l : list X) :
  (forall x, length (f x) = m) -> length (l ≫= f) = (length l * m)%nat.
Proof.
  intros Hf. induction l as [|x l IH]; [done|].
  change ((x :: l) ≫= f) with (f x ++ (l ≫= f)).
  rewrite length_app, Hf, IH. simpl. lia.
Qed.

Lemma zrange_length (lo hi : Z) : length (zrange lo hi) = Z.to_nat (hi - lo).
Proof. unfold zrange. by rewrite length_fmap, length_seq. Qed.

(** The loops visit [Dy] rows of [Dx] pixels. *)
Lemma scan_length {C} (img : raster C) :
  length (scan img)
  = (Z.to_nat (Dy (Bounds img)) * Z.to_nat (Dx (Bounds img)))%nat.
Proof.
  unfold scan, Dx, Dy.
  rewrite (bind_length_const _ (Z.to_nat (MaxX (Bounds img) - MinX (Bounds img)))).
  - by rewrite zrange_length.
  - intros y. rewrite (bind_length_const _ 1%nat) by done.
    rewrite zrange_length. lia.
Qed.

(** X2. The count returned by the classifier lies between 0 and the number
    of pixels [Dx * Dy], and it is 0 exactly when the image has no pixel
    (the boundary case the source marks with a [TODO]). *)
Theorem color_count_bounds (img : raster NRGBA) :
  wellFormed (Bounds img) ->
  0 <= (countNRGBAColors img).1.1.1 <= Dx (Bounds img) * Dy (Bounds img)
  /\ ((countNRGBAColors img).1.1.1 = 0
      <-> Dx (Bounds img) = 0 \/ Dy (Bounds img) = 0).
Proof.
  intros [Hx Hy].
  assert (0 <= Dx (Bounds img)) as HDx by (unfold Dx; lia).
  assert (0 <= Dy (Bounds img)) as HDy by (unfold Dy; lia).
  unfold countNRGBAColors. cbn [fst]. rewrite colorsSeen_scan.
  pose proof (size_list_to_set_le (scan img)) as Hle.
  pose proof (scan_length img) as Hlen.
  split.
  - split; [lia|]. nia.
  - split.
    + intros Hz.
      assert (size (list_to_set (scan img) : gset NRGBA) = 0%nat) as Hs by lia.
      apply size_empty_iff in Hs.
      destruct (scan img) as [|c l] eqn:Hscan.
      * simpl in Hlen. nia.
      * exfalso. assert (c ∈ (list_to_set (c :: l) : gset NRGBA)) as Hc
          by (apply elem_of_list_to_set, list_elem_of_here).
        rewrite Hs in Hc. by apply not_elem_of_empty in Hc.
    + intros Hd. rewrite scan_empty; [by rewrite list_to_set_nil, size_empty|].
      unfold Dx, Dy in Hd. lia.
Qed.

(** ** Exactness of the palettes *)

(** X3. The palette built by [paletteFromNRGBA] holds every colour of the
    image and nothing else, each once: it has as many entries as the
    classifier counts colours, and every pixel has exactly one palette
    index. (The map enumeration may be in any order, and the sort is only
    asked to rearrange its input.) *)
Theorem paletteFromNRGBA_exact (img : raster NRGBA) (hint : Z) :
  enumerates rangeNRGBA ->
  rearranges pdqsort ->
  NoDup (paletteFromNRGBA img hint)
  /\ (forall col, col ∈ paletteFromNRGBA img hint
        <-> exists c, col = ColNRGBA c /\ c ∈ scan img)
  /\ Z.of_nat (length (paletteFromNRGBA img hint)) = (countNRGBAColors img).1.1.1
  /\ (forall x y, inRect (Bounds img) x y = true ->
        exists i : nat,
          paletteFromNRGBA img hint !! i = Some (ColNRGBA (At img x y))
          /\ forall j : nat,
               paletteFromNRGBA img hint !! j = Some (ColNRGBA (At img x y)) ->
               j = i).
Proof.
  intros Hrange Hsort.
  pose proof (paletteFromNRGBA_perm img hint Hsort) as Hp.
  assert (NoDup (paletteFromNRGBA img hint)) as Hnd.
  { rewrite Hp. apply NoDup_fmap_2; [by intros ?? [=]|].
    by apply rawPalette_NoDup. }
  assert (forall col, col ∈ paletteFromNRGBA img hint
            <-> exists c, col = ColNRGBA c /\ c ∈ scan img) as Hmem.
  { intros col. rewrite Hp, list_elem_of_fmap.
    split; intros (c & -> & Hc); exists c; split; try done;
      by apply (rawPalette_elem Hrange). }
  split_and!; [done|done| |].
  - rewrite (Permutation_length Hp), length_fmap, (rawPalette_length Hrange).
    done.
  - intros x y Hin.
    assert (ColNRGBA (At img x y) ∈ paletteFromNRGBA img hint) as Hel.
    { apply Hmem. exists (At img x y). split; [done|by apply scan_elem]. }
    apply list_elem_of_lookup_1 in Hel as [i Hi]. exists i. split; [done|].
    intros j Hj. by eapply NoDup_lookup.
Qed.

Lemma graySeen_foldl (l : list byte) : forall s : gset byte,
  foldl (fun (s : gset byte) y => {[y]} ∪ s) s l = list_to_set l ∪ s.
Proof.
  induction l as [|c l IH]; intros s; simpl.
  - by rewrite (left_id_L ∅ (∪)).
  - rewrite IH, (assoc_L (∪)). f_equal. apply (comm_L (∪)).
Qed.

Lemma countGrayColors_size (img : raster byte) :
  countGrayColors img = Z.of_nat (size (list_to_set (scan img) : gset byte)).
Proof.
  unfold countGrayColors. rewrite graySeen_foldl.
  by rewrite (right_id_L ∅ (∪)).
Qed.

Lemma paletteFromGray_perm (img : raster byte) (hint : Z) :
  rearranges pdqsort ->
  paletteFromGray img hint ≡ₚ ColGray <$> rangeGray (frequencies (scan img)).
Proof.
  intros Hsort. unfold paletteFromGray.
  apply fmap_Permutation, Sort_perm. intros k. apply Hsort.
Qed.

(** X4. The same for [paletteFromGray]: its palette holds every gray level
    of the image once and nothing else, it has [countGrayColors] entries,
    and every sample has exactly one palette index. *)
Theorem paletteFromGray_exact (img : raster byte) (hint : Z) :
  enumerates rangeGray ->
  rearranges pdqsort ->
  NoDup (paletteFromGray img hint)
  /\ (forall col, col ∈ paletteFromGray img hint
        <-> exists v, col = ColGray v /\ v ∈ scan img)
  /\ Z.of_nat (length (paletteFromGray img hint)) = countGrayColors img
  /\ (forall x y, inRect (Bounds img) x y = true ->
        exists i : nat,
          paletteFromGray img hint !! i = Some (ColGray (At img x y))
          /\ forall j : nat,
               paletteFromGray img hint !! j = Some (ColGray (At img x y)) ->
               j = i).
Proof.
  intros Hrange Hsort.
  pose proof (paletteFromGray_perm img hint Hsort) as Hp.
  assert (forall v, v ∈ rangeGray (frequencies (scan img)) <-> v ∈ scan img) as Hraw.
  { intros v. rewrite (Hrange _), keys_elem, frequencies_dom.
    apply elem_of_list_to_set. }
  assert (NoDup (paletteFromGray img hint)) as Hnd.
  { rewrite Hp. apply NoDup_fmap_2; [by intros ?? [=]|].
    rewrite (Hrange _). apply NoDup_fst_map_to_list. }
  assert (forall col, col ∈ paletteFromGray img hint
            <-> exists v, col = ColGray v /\ v ∈ scan img) as Hmem.
  { intros col. rewrite Hp, list_elem_of_fmap.
    split; intros (v & -> & Hv); exists v; split; try done; by apply Hraw. }
  split_and!; [done|done| |].
  - rewrite (Permutation_length Hp), length_fmap.
    rewrite (Permutation_length (Hrange _)), keys_length, frequencies_dom.
    by rewrite countGrayColors_size.
  - intros x y Hin.
    assert (ColGray (At img x y) ∈ paletteFromGray img hint) as Hel.
    { apply Hmem. exists (At img x y). split; [done|by apply scan_elem]. }
    apply list_elem_of_lookup_1 in Hel as [i Hi]. exists i. split; [done|].
    intros j Hj. by eapply NoDup_lookup.
Qed.

(** ** Gray sources *)

Lemma byte_NoDup_length (l : list byte) : NoDup l -> (length l <= 256)%nat.
Proof.
  intros Hnd.
  assert (NoDup (Byte.to_nat <$> l)) as Hnd'.
  { apply NoDup_fmap_2; [|done]. intros a b Hab.
    pose proof (Byte.of_to_nat a) as Ha. pose proof (Byte.of_to_nat b) as Hb.
    rewrite Hab in Ha. congruence. }
  assert (Byte.to_nat <$> l ⊆+ seq 0 256) as Hsub.
  { apply NoDup_submseteq; [done|]. intros k (b & -> & _)%list_elem_of_fmap.
    apply elem_of_seq. pose proof (Byte.to_nat_bounded b). lia. }
  apply submseteq_length in Hsub. by rewrite length_fmap, length_seq in Hsub.
Qed.

(** A set of [uint8] values has at most 256 members. *)
Lemma byte_set_size (X : gset byte) : (size X <= 256)%nat.
Proof.
  unfold size, set_size. simpl. apply byte_NoDup_length, NoDup_elements.
Qed.

(** X5. An 8-bit gray image never has more than 256 gray levels, so the test
    [nColors <= 256] of [optimizeGray] always passes and the generator is
    decided by the encoder alone: it fails with "error encode src" when the
    source is refused, with "error encode paletted" when the image redrawn
    over the palette of [paletteFromGray] is refused, and otherwise returns
    exactly the direct encoding and the "paletted" one, in this order. *)
Theorem gray_source_always_indexed (src : raster byte) :
  0 <= countGrayColors src <= 256
  /\ variantsGray src
     = match encode (ImgGray src) with
       | inl msg => Err (Wrapped "error encode src" (External msg))
       | inr b0 =>
           match encode (ImgPaletted
                           (toPaletted ColGray src
                              (paletteFromGray src (countGrayColors src)))) with
           | inl msg => Err (Wrapped "error encode paletted" (External msg))
           | inr b1 => Ok [(b0, "src (gray)"%string); (b1, "paletted"%string)]
           end
       end.
Proof.
  assert (0 <= countGrayColors src <= 256) as Hn.
  { rewrite countGrayColors_size.
    pose proof (byte_set_size (list_to_set (scan src))). lia. }
  split; [done|].
  unfold variantsGray, asPaletted.
  destruct (encode (ImgGray src)) as [msg|b0] eqn:E0; run; [done|].
  destruct (Z.leb_spec (countGrayColors src) 256) as [_|Hgt]; [|lia].
  destruct (encode (ImgPaletted _)) as [msg|b1] eqn:E1; by run.
Qed.

(** ** The gray conversions *)

Lemma bind_ext_in {X Y} (f g : X -> list Y) (l : list X) :
  (forall x, x ∈ l -> f x = g x) -> l ≫= f = l ≫= g.
Proof.
  induction l as [|x l IH]; intros Hfg; [done|].
  change ((x :: l) ≫= f) with (f x ++ (l ≫= f)).
  change ((x :: l) ≫= g) with (g x ++ (l ≫= g)).
  rewrite Hfg by apply list_elem_of_here.
  rewrite IH; [done|]. intros y Hy. apply Hfg. by apply list_elem_of_further.
Qed.

Lemma bind_fmap_l {X Y W} (h : X -> Y) (f : Y -> list W) (l : list X) :
  (h <$> l) ≫= f = l ≫= (fun x => f (h x)).
Proof.
  induction l as [|x l IH]; [done|].
  change ((h <$> x :: l) ≫= f) with (f (h x) ++ ((h <$> l) ≫= f)).
  by rewrite IH.
Qed.

Lemma fmap_bind_r {X Y W} (h : Y -> W) (f : X -> list Y) (l : list X) :
  h <$> (l ≫= f) = l ≫= (fun x => h <$> f x).
Proof.
  induction l as [|x l IH]; [done|].
  change ((x :: l) ≫= f) with (f x ++ (l ≫= f)).
  by rewrite fmap_app, IH.
Qed.

(** The pixels in loop order, by row and column offsets. *)
Lemma scan_offsets {C} (img : raster C) :
  scan img
  = seq 0 (Z.to_nat (Dy (Bounds img))) ≫= (fun i : nat =>
      seq 0 (Z.to_nat (Dx (Bounds img))) ≫= (fun j : nat =>
        [At img (MinX (Bounds img) + Z.of_nat j) (MinY (Bounds img) + Z.of_nat i)])).
Proof.
  unfold scan, zrange, Dx, Dy. rewrite bind_fmap_l.
  apply bind_ext_in. intros i _. by rewrite bind_fmap_l.
Qed.

(** A copy drawn at the origin, pixel by pixel, has the pixels of the source
    in the same order. *)
Lemma scan_origin {C D} (src : raster C) (f : C -> D) (d : D) :
  scan (mkRaster (Rect0 (Dx (Bounds src)) (Dy (Bounds src)))
          (fun x y =>
             if inRect (Rect0 (Dx (Bounds src)) (Dy (Bounds src))) x y
             then f (At src (MinX (Bounds src) + x) (MinY (Bounds src) + y))
             else d))
  = f <$> scan src.
Proof.
  assert (forall w h, Dx (Rect0 w h) = w) as HDx
    by (intros; unfold Dx, Rect0; simpl; lia).
  assert (forall w h, Dy (Rect0 w h) = h) as HDy
    by (intros; unfold Dy, Rect0; simpl; lia).
  rewrite (scan_offsets src), scan_offsets. cbn [Bounds At].
  rewrite HDy, fmap_bind_r.
  apply bind_ext_in. intros i Hi. rewrite HDx, fmap_bind_r.
  apply bind_ext_in. intros j Hj.
  apply elem_of_seq in Hi. apply elem_of_seq in Hj.
  unfold inRect, Rect0. cbn [MinX MinY MaxX MaxY].
  replace (0 <=? 0 + Z.of_nat j) with true by (symmetry; apply Z.leb_le; lia).
  replace (0 + Z.of_nat j <? Dx (Bounds src)) with true
    by (symmetry; apply Z.ltb_lt; lia).
  replace (0 <=? 0 + Z.of_nat i) with true by (symmetry; apply Z.leb_le; lia).
  replace (0 + Z.of_nat i <? Dy (Bounds src)) with true
    by (symmetry; apply Z.ltb_lt; lia).
  simpl. by rewrite !Z.add_0_l.
Qed.

Lemma inRect_origin (b : Rectangle) (x y : Z) :
  inRect b x y = true ->
  inRect (Rect0 (Dx b) (Dy b)) (x - MinX b) (y - MinY b) = true.
Proof.
  unfold inRect, Rect0, Dx, Dy. cbn [MinX MinY MaxX MaxY]. intros Hin.
  apply andb_prop in Hin as [Hin Hy2]. apply andb_prop in Hin as [Hin Hy1].
  apply andb_prop in Hin as [Hx1 Hx2].
  apply Z.leb_le in Hx1, Hy1. apply Z.ltb_lt in Hx2, Hy2.
  repeat (apply andb_true_intro; split);
    first [apply Z.leb_le; lia|apply Z.ltb_lt; lia].
Qed.

(** X6. When the classifier reports a gray image without any alpha (the
    condition under which [optimizeNRGBA] makes the "gray" variant),
    [nrgba2gray] loses nothing: each pixel of the source is the opaque gray
    colour of the sample at the same place, counted from the origin, and
    the samples read back as colours are the pixels of the source in the
    same order. *)
Theorem nrgba2gray_lossless (img : raster NRGBA) :
  (countNRGBAColors img).2 = true ->
  (countNRGBAColors img).1.1.2 = false ->
  (countNRGBAColors img).1.2 = false ->
  grayNRGBA <$> scan (nrgba2gray img) = scan img
  /\ forall x y, inRect (Bounds img) x y = true ->
       inRect (Bounds (nrgba2gray img))
              (x - MinX (Bounds img)) (y - MinY (Bounds img)) = true
       /\ At img x y
          = grayNRGBA (At (nrgba2gray img)
                          (x - MinX (Bounds img)) (y - MinY (Bounds img))).
Proof.
  intros Hg Ht Hp.
  destruct (countNRGBAColors_flags img) as (_ & Ft & Fp & Fg).
  assert (forall c, c ∈ scan img -> grayNRGBA (cR c) = c) as Hpix.
  { intros c Hc. destruct (proj1 Fg Hg c Hc) as [Hrg Hrb].
    assert (cA c = xff) as Ha.
    { destruct (decide (cA c = xff)) as [|Hnf]; [done|].
      destruct (decide (cA c = x00)) as [Hz|Hnz].
      - assert ((countNRGBAColors img).1.1.2 = true) as Hc'
          by (apply Ft; by eauto).
        congruence.
      - assert ((countNRGBAColors img).1.2 = true) as Hc'
          by (apply Fp; by eauto).
        congruence. }
    destruct c as [r g b a]. simpl in *. unfold grayNRGBA. congruence. }
  split.
  - unfold nrgba2gray. cbv zeta. rewrite scan_origin, <- list_fmap_compose.
    rewrite <- (list_fmap_id (scan img)) at 2.
    apply Forall_fmap_ext_1, Forall_forall. intros c Hc. simpl. by apply Hpix.
  - intros x y Hin. split; [by apply inRect_origin|].
    unfold nrgba2gray. cbv zeta. cbn [At Bounds].
    rewrite (inRect_origin _ _ _ Hin).
    replace (MinX (Bounds img) + (x - MinX (Bounds img))) with x by lia.
    replace (MinY (Bounds img) + (y - MinY (Bounds img))) with y by lia.
    symmetry. apply Hpix. by apply scan_elem.
Qed.

(** ** Gray palettes *)

Lemma widen_257 (b : byte) : widen b = 257 * u8 b.
Proof. by destruct b. Qed.

Lemma widen_inj (a b : byte) : widen a = widen b -> a = b.
Proof. rewrite !widen_257. intros Hab. apply u8_inj. lia. Qed.

Lemma widen_max (b : byte) : (widen b <? MaxUint16) = bool_decide (b ≠ xff).
Proof.
  rewrite <- u8_ltb_max, widen_257. unfold MaxUint16, MaxUint8.
  destruct (Z.ltb_spec (u8 b) 255); [apply Z.ltb_lt|apply Z.ltb_ge]; lia.
Qed.

Lemma byte_of_widen (v : byte) : byte_of_Z (Z.shiftr (widen v) 8) = v.
Proof. by destruct v. Qed.

(** The test made by [isGrayPalette] on one palette entry. *)
Lemma grayEntry_spec (c : Color) :
  (let '(r, g, b, a) := Color_RGBA c in
   negb ((a <? MaxUint16) || negb (r =? g) || negb (r =? b) || negb (g =? b)))
  = true
  <-> opaqueGray c.
Proof.
  destruct c as [[r g b a]|[r g b a]|y]; simpl.
  - rewrite widen_max. case_bool_decide as Ha.
    + simpl. split; [done|]. by intros [-> _].
    + assert (a = xff) as -> by (by destruct (decide (a = xff))).
      change (u8 xff) with 255. rewrite !Z.div_mul by done. simpl.
      split.
      * intros H. split; [done|].
        destruct (Z.eqb_spec (widen r) (widen g)) as [Hrg|]; [|done].
        destruct (Z.eqb_spec (widen r) (widen b)) as [Hrb|]; [|done].
        split; by apply widen_inj.
      * intros (_ & -> & ->). by rewrite !Z.eqb_refl.
  - rewrite widen_max. case_bool_decide as Ha.
    + simpl. split; [done|]. by intros [-> _].
    + assert (a = xff) as -> by (by destruct (decide (a = xff))).
      simpl. split.
      * intros H. split; [done|].
        destruct (Z.eqb_spec (widen r) (widen g)) as [Hrg|]; [|done].
        destruct (Z.eqb_spec (widen r) (widen b)) as [Hrb|]; [|done].
        split; by apply widen_inj.
      * intros (_ & -> & ->). by rewrite !Z.eqb_refl.
  - rewrite !Z.eqb_refl. by vm_compute.
Qed.

Lemma isGrayPalette_Forall (palette : list Color) :
  isGrayPalette palette = true <-> Forall opaqueGray palette.
Proof.
  unfold isGrayPalette. rewrite forallb_forall, Forall_forall.
  split; intros H c Hc.
  - apply grayEntry_spec, H. by apply list_elem_of_In.
  - apply grayEntry_spec, H. by apply list_elem_of_In.
Qed.

(** X7. [isGrayPalette] accepts a palette exactly when every entry is fully
    opaque with equal colour channels (a [color.Gray] entry always is); in
    particular it accepts the empty palette. *)
Theorem isGrayPalette_spec (palette : list Color) :
  (isGrayPalette palette = true <-> Forall opaqueGray palette)
  /\ isGrayPalette [] = true.
Proof.
  split; [|done].
  unfold isGrayPalette. rewrite forallb_forall, Forall_forall.
  split; intros H c Hc.
  - apply grayEntry_spec, H. by apply list_elem_of_In.
  - apply grayEntry_spec, H. by apply list_elem_of_In.
Qed.

(** What an opaque gray entry looks like through [Color.RGBA()]. *)
Lemma opaqueGray_RGBA (c : Color) :
  opaqueGray c ->
  Color_RGBA (ColGray (byte_of_Z (Z.shiftr (Color_RGBA c).1.1.1 8)))
  = Color_RGBA c.
Proof.
  destruct c as [[r g b a]|[r g b a]|y]; simpl.
  - intros (-> & <- & <-). change (u8 xff) with 255.
    rewrite !Z.div_mul by done. by rewrite byte_of_widen.
  - intros (-> & <- & <-). by rewrite byte_of_widen.
  - intros _. by rewrite byte_of_widen.
Qed.

(** X8. On a palette accepted by [isGrayPalette], and with every pixel index
    inside the palette, [paletted2gray] returns a gray image (it does not
    panic) that loses nothing: each sample, read as a colour, has the
    [RGBA()] value of the palette entry of the source pixel at the same place
    counted from the origin. *)
Theorem paletted2gray_lossless (img : Paletted) :
  isGrayPalette (Palette img) = true ->
  (forall i, i ∈ scan (Pix img) -> (colorIndex i < length (Palette img))%nat) ->
  exists gray : raster byte,
    paletted2gray img = Ok gray
    /\ forall x y, inRect (Bounds (Pix img)) x y = true ->
         exists c : Color,
           Palette img !! colorIndex (At (Pix img) x y) = Some c
           /\ inRect (Bounds gray) (x - MinX (Bounds (Pix img)))
                     (y - MinY (Bounds (Pix img))) = true
           /\ Color_RGBA (ColGray (At gray (x - MinX (Bounds (Pix img)))
                                           (y - MinY (Bounds (Pix img)))))
              = Color_RGBA c.
Proof.
  intros Hgray Hidx. unfold paletted2gray. cbv zeta.
  assert (forallb (fun i : byte => (N.to_nat (Byte.to_N i) <? length (Palette img))%nat)
                  (scan (Pix img)) = true) as ->.
  { apply forallb_forall. intros i Hi. apply Nat.ltb_lt, Hidx.
    by apply list_elem_of_In. }
  eexists. split; [done|].
  intros x y Hin.
  assert ((colorIndex (At (Pix img) x y) < length (Palette img))%nat) as Hlt
    by (apply Hidx; by apply scan_elem).
  apply lookup_lt_is_Some_2 in Hlt as [c Hc].
  exists c. split; [done|]. split; [by apply inRect_origin|].
  cbn [At Bounds]. rewrite (inRect_origin _ _ _ Hin).
  replace (MinX (Bounds (Pix img)) + (x - MinX (Bounds (Pix img)))) with x by lia.
  replace (MinY (Bounds (Pix img)) + (y - MinY (Bounds (Pix img)))) with y by lia.
  unfold colorIndex in Hc. rewrite Hc.
  apply opaqueGray_RGBA.
  apply isGrayPalette_Forall in Hgray.
  rewrite Forall_forall in Hgray. apply Hgray.
  by eapply list_elem_of_lookup_2.
Qed.

(** ** When the gray variant is made *)

(** The test [isGray && !hasAlpha] of [optimizeNRGBA], on the pixels. *)
Lemma grayTest_spec (src : raster NRGBA) :
  (countNRGBAColors src).2
  && negb ((countNRGBAColors src).1.1.2 || (countNRGBAColors src).1.2) = true
  <-> forall c, c ∈ scan src -> cR c = cG c /\ cR c = cB c /\ cA c = xff.
Proof.
  destruct (countNRGBAColors_flags src) as (_ & Ft & Fp & Fg).
  rewrite andb_true_iff, negb_true_iff, orb_false_iff, Fg.
  split.
  - intros (Hgray & Hnt & Hnp) c Hc.
    destruct (Hgray c Hc) as [Hrg Hrb]. split_and!; [done|done|].
    destruct (decide (cA c = xff)) as [|Hnf]; [done|].
    destruct (decide (cA c = x00)) as [Hz|Hnz].
    + assert ((countNRGBAColors src).1.1.2 = true) by (apply Ft; by eauto).
      congruence.
    + assert ((countNRGBAColors src).1.2 = true) by (apply Fp; by eauto).
      congruence.
  - intros Hall. split_and!.
    + intros c Hc. destruct (Hall c Hc) as (? & ? & ?). by split.
    + apply not_true_is_false. intros (c & Hc & Ha)%Ft.
      destruct (Hall c Hc) as (_ & _ & Hf). congruence.
    + apply not_true_is_false. intros (c & Hc & _ & Ha)%Fp.
      destruct (Hall c Hc) as (_ & _ & Hf). congruence.
Qed.

(** X9. Among the candidates of a truecolor image the "gray" variant is
    present exactly when every pixel is fully opaque with equal colour
    channels; it is then the second candidate, and its buffer is the
    encoding of [nrgba2gray]'s image. *)
Theorem gray_variant_iff (src : raster NRGBA) (vs : variantsList) :
  variantsNRGBA src = Ok vs ->
  ((exists b, (b, "gray"%string) ∈ vs)
   <-> forall c, c ∈ scan src -> cR c = cG c /\ cR c = cB c /\ cA c = xff)
  /\ (forall b, (b, "gray"%string) ∈ vs ->
        vs !! 1%nat = Some (b, "gray"%string)
        /\ encode (ImgGray (nrgba2gray src)) = inr b).
Proof.
  pose proof (grayTest_spec src) as Htest.
  unfold variantsNRGBA, asPaletted.
  destruct (countNRGBAColors src) as [[[n ht] hp] g]. cbn [fst snd] in Htest.
  destruct (encode (ImgNRGBA src)) as [msg|b0]; run; [done|].
  destruct (g && negb (ht || hp)); run.
  - destruct (encode (ImgGray (nrgba2gray src))) as [?|b1] eqn:E1; run; [done|].
    intros Hvs.
    assert (vs = [(b0, "src (nrgba/rgb)"%string); (b1, "gray"%string)]
            \/ exists b2, vs = [(b0, "src (nrgba/rgb)"%string); (b1, "gray"%string);
                                (b2, "paletted"%string)]) as Hshape.
    { revert Hvs. destruct (n <=? 256); run; [|intros; left; congruence].
      destruct (encode (ImgPaletted _)) as [?|b2]; run; [done|].
      intros. right. exists b2. congruence. }
    clear Hvs.
    split.
    + split; [intros _; by apply Htest|]. intros _. exists b1.
      destruct Hshape as [->|[b2 ->]]; apply list_elem_of_further, list_elem_of_here.
    + intros b Hb.
      assert (b = b1) as ->.
      { destruct Hshape as [->|[b2 ->]];
          repeat (apply elem_of_cons in Hb as [Hb|Hb]; [congruence|]);
          by apply elem_of_nil in Hb. }
      split; [|done]. by destruct Hshape as [->|[b2 ->]].
  - intros Hvs.
    assert (vs = [(b0, "src (nrgba/rgb)"%string)]
            \/ exists b2, vs = [(b0, "src (nrgba/rgb)"%string);
                                (b2, "paletted"%string)]) as Hshape.
    { revert Hvs. destruct (n <=? 256); run; [|intros; left; congruence].
      destruct (encode (ImgPaletted _)) as [?|b2]; run; [done|].
      intros. right. exists b2. congruence. }
    clear Hvs.
    assert (forall b, (b, "gray"%string) ∉ vs) as Hno.
    { intros b Hb.
      destruct Hshape as [->|[b2 ->]];
        repeat (apply elem_of_cons in Hb as [Hb|Hb]; [congruence|]);
        by apply elem_of_nil in Hb. }
    split.
    + split; [intros [b Hb]; by apply Hno in Hb|].
      intros Hall. apply Htest in Hall. discriminate.
    + intros b Hb. by apply Hno in Hb.
Qed.

(** X10. The candidates of a paletted source are the direct encoding and,
    exactly when every palette entry is fully opaque with equal colour
    channels, the "gray" one after it; there is never a "paletted"
    candidate. *)
Theorem paletted_source_variants (src : Paletted) (vs : variantsList) :
  variantsPaletted src = Ok vs ->
  ((exists b, (b, "gray"%string) ∈ vs) <-> Forall opaqueGray (Palette src))
  /\ (forall b, (b, "gray"%string) ∈ vs ->
        vs !! 1%nat = Some (b, "gray"%string)
        /\ exists gray, paletted2gray src = Ok gray
                        /\ encode (ImgGray gray) = inr b)
  /\ (forall b, (b, "paletted"%string) ∉ vs)
  /\ (length vs <= 2)%nat.
Proof.
  pose proof (isGrayPalette_Forall (Palette src)) as Htest.
  unfold variantsPaletted.
  destruct (encode (ImgPaletted src)) as [msg|b0]; run; [done|].
  destruct (isGrayPalette (Palette src)); run.
  - destruct (paletted2gray src) as [gray|e] eqn:Eg; run; [|done].
    destruct (encode (ImgGray gray)) as [?|b1] eqn:E1; run; [done|].
    intros Hvs. injection Hvs as <-.
    split_and!.
    + split; [intros _; by apply Htest|]. intros _. exists b1.
      apply list_elem_of_further, list_elem_of_here.
    + intros b Hb.
      repeat (apply elem_of_cons in Hb as [Hb|Hb]; [try congruence|]).
      * injection Hb as ->. split; [done|]. by exists gray.
      * by apply elem_of_nil in Hb.
    + intros b Hb.
      repeat (apply elem_of_cons in Hb as [Hb|Hb]; [congruence|]).
      by apply elem_of_nil in Hb.
    + simpl. lia.
  - intros Hvs. injection Hvs as <-.
    assert (forall b lbl, lbl ≠ "src (paletted)"%string ->
              (b, lbl) ∉ [(b0, "src (paletted)"%string)]) as Hno.
    { intros b lbl Hl Hb. apply list_elem_of_singleton in Hb. congruence. }
    split_and!.
    + split; [intros [b Hb]; by apply Hno in Hb|].
      intros Hall. apply Htest in Hall. discriminate.
    + intros b Hb. by apply Hno in Hb.
    + intros b. by apply Hno.
    + simpl. lia.
Qed.

(** ** The comparator by categories *)

(** X11. [nrgbaPaletteSorter.Less] decides by category when the two colours
    are of different categories (transparent before translucent before
    opaque), and by the [uint] difference of the two counters when they are
    of the same category. *)
Theorem Less_by_category (colors : gmap NRGBA Z) (ci cj : NRGBA) :
  nrgbaPaletteSorter_Less colors ci cj
  = if decide (category ci = category cj)
    then 0 <? U64.sub (freq colors ci) (freq colors cj)
    else bool_decide (category ci < category cj)%nat.
Proof.
  unfold nrgbaPaletteSorter_Less, category, MaxUint8.
  pose proof (u8_range (cA ci)). pose proof (u8_range (cA cj)).
  repeat match goal with
         | |- context [Z.eqb ?a ?b] => destruct (Z.eqb_spec a b)
         | |- context [Z.ltb (u8 ?a) ?b] => destruct (Z.ltb_spec (u8 a) b)
         end; simpl; try lia;
    repeat case_decide; try case_bool_decide; try done; try lia.
Qed.

(** ** The transparency table *)

(** In a list with the elements satisfying [P] first, they fill a prefix. *)
Lemma blockFirst_prefix {A} (P : A -> bool) (l : list A) :
  GoSort.blockFirst P l ->
  exists k : nat,
    (k <= length l)%nat
    /\ forall (i : nat) x, l !! i = Some x -> ((i < k)%nat <-> P x = true).
Proof.
  unfold GoSort.blockFirst. intros Hs.
  induction Hs as [|a l Hs (k & Hk & IH) Hall].
  - exists 0%nat. split; [done|]. intros i x Hx. done.
  - rewrite Forall_forall in Hall.
    destruct (P a) eqn:Ha.
    + exists (S k). split; [simpl; lia|].
      intros [|i] x Hx; simpl in Hx.
      * injection Hx as <-. split; [done|lia].
      * rewrite <- (IH i x Hx). lia.
    + exists 0%nat. split; [lia|].
      intros [|i] x Hx; simpl in Hx.
      * injection Hx as <-. split; [lia|congruence].
      * split; [lia|]. intros Hx'.
        assert (false = true) as Hft
          by (eapply Hall; [by eapply list_elem_of_lookup_2|done]).
        discriminate Hft.
Qed.

(** X12. The palette of [paletteFromNRGBA] starts with its fully
    transparent colours, goes on with the other colours that are not opaque,
    and ends with the opaque ones: there are two indices [k0 <= k1] such that
    the entry at index [i] is fully transparent exactly when [i < k0] and
    not opaque exactly when [i < k1]. So the [tRNS] table of the indexed
    image needs [k1] entries, the number of colours that are not opaque.
    This holds whatever the frequencies are. *)
Theorem non_opaque_colors_first (img : raster NRGBA) (hint : Z) :
  sortRunsOn img ->
  exists k0 k1 : nat,
    (k0 <= k1 <= length (paletteFromNRGBA img hint))%nat
    /\ forall (i : nat) (c : NRGBA),
         paletteFromNRGBA img hint !! i = Some (ColNRGBA c) ->
         ((i < k0)%nat <-> cA c = x00) /\ ((i < k1)%nat <-> cA c ≠ xff).
Proof.
  intros Hrun'. unfold sortRunsOn in Hrun'. unfold paletteFromNRGBA.
  set (colors := frequencies (scan img)) in *.
  set (sorted := GoSort.Sort _ _ _).
  destruct (Sort_block (nrgbaPaletteSorter_Less colors) (fun c => u8 (cA c) =? 0)
              (Less_transparent_other colors) (Less_other_transparent colors)
              (pdqsort NRGBA (nrgbaPaletteSorter_Less colors)) (rangeNRGBA colors)
              Hrun') as [B0 _].
  destruct (Sort_block (nrgbaPaletteSorter_Less colors) (fun c => u8 (cA c) <? MaxUint8)
              (Less_alpha_opaque colors) (Less_opaque_alpha colors)
              (pdqsort NRGBA (nrgbaPaletteSorter_Less colors)) (rangeNRGBA colors)
              Hrun') as [B1 _].
  fold sorted in B0, B1.
  destruct (blockFirst_prefix _ _ B0) as (k0 & Hk0 & H0).
  destruct (blockFirst_prefix _ _ B1) as (k1 & Hk1 & H1).
  assert (forall (i : nat) c, sorted !! i = Some c ->
            ((i < k0)%nat <-> cA c = x00) /\ ((i < k1)%nat <-> cA c ≠ xff)) as Hchar.
  { intros i c Hc. rewrite (H0 i c Hc), (H1 i c Hc). simpl.
    rewrite u8_eqb_zero, u8_ltb_max, !bool_decide_eq_true. done. }
  exists k0, k1. rewrite length_fmap. split.
  - split; [|done].
    destruct (Nat.le_gt_cases k0 k1) as [|Hgt]; [done|exfalso].
    destruct (lookup_lt_is_Some_2 sorted k1) as [c Hc]; [lia|].
    destruct (Hchar k1 c Hc) as [Hc0 Hc1].
    assert (cA c = x00) as Hz by (apply Hc0; lia).
    assert (cA c ≠ xff) as Hnf by (by rewrite Hz).
    apply Hc1 in Hnf. lia.
  - intros i c Hi. rewrite list_lookup_fmap in Hi.
    destruct (sorted !! i) as [c'|] eqn:Ei; [|done].
    injection Hi as ->. by apply Hchar.
Qed.

(** ** The frequency table *)

Lemma wrap_add_wrap (a b : Z) : U64.wrap (U64.wrap a + b) = U64.wrap (a + b).
Proof. unfold U64.wrap. by rewrite Zplus_mod_idemp_l. Qed.

Lemma filter_absent `{EqDecision K} (l : list K) (c : K) :
  c ∉ l -> filter (fun x => x = c) l = [].
Proof.
  induction l as [|x l IH]; intros Hc; [done|].
  rewrite filter_cons_False.
  - apply IH. intros Hin. apply Hc. by apply list_elem_of_further.
  - intros ->. apply Hc. apply list_elem_of_here.
Qed.

Lemma frequencies_lookup_foldl `{Countable K} (l : list K) (c : K) :
  forall m : gmap K Z,
    foldl bump m l !! c
    = if decide (c ∈ l)
      then Some (U64.wrap (freq m c + Z.of_nat (length (filter (fun x => x = c) l))))
      else m !! c.
Proof.
  induction l as [|x l IH]; intros m.
  - simpl. destruct (decide (c ∈ [])) as [Hc|]; [|done].
    by apply elem_of_nil in Hc.
  - change (foldl bump m (x :: l)) with (foldl bump (bump m x) l).
    rewrite IH. unfold bump at 1 2. unfold freq at 1.
    destruct (decide (x = c)) as [->|Hne].
    + rewrite lookup_insert_eq. simpl.
      rewrite (decide_True (P := c ∈ c :: l)) by apply list_elem_of_here.
      rewrite filter_cons_True by done.
      cbn [length]. unfold U64.add.
      destruct (decide (c ∈ l)) as [Hc|Hc].
      * rewrite wrap_add_wrap. f_equal. f_equal. lia.
      * by rewrite (filter_absent l c Hc).
    + rewrite lookup_insert_ne by done. rewrite filter_cons_False by done.
      fold (freq m c).
      destruct (decide (c ∈ l)) as [Hc|Hc].
      * by rewrite decide_True by (by apply list_elem_of_further).
      * rewrite decide_False; [done|].
        intros [->|Hin]%elem_of_cons; done.
Qed.

(** X13. The table built by the first loop of the palette builders maps each
    value present among the pixels to the number of pixels holding it,
    reduced modulo [2^64] as a [uint] counter is, and has no other key. *)
Theorem frequencies_count `{Countable K} (l : list K) (c : K) :
  frequencies l !! c
  = if decide (c ∈ l)
    then Some (U64.wrap (Z.of_nat (length (filter (fun x => x = c) l))))
    else None.
Proof.
  unfold frequencies. rewrite frequencies_lookup_foldl.
  unfold freq. rewrite lookup_empty. simpl.
  by destruct (decide (c ∈ l)).
Qed.

(** ** What [Optimize] does to the file system *)

(** The file system after a commit that went through. *)
Lemma commit_state (fs : FS) (path : string) (opt : list byte) :
  let tmp := (path +:+ ".pngtmp")%string in
  delete tmp (<[path := opt]> (<[tmp := opt]> (<[tmp := []]> fs)))
  = delete tmp (<[path := opt]> fs).
Proof.
  intros tmp. apply map_eq. intros p.
  destruct (decide (p = tmp)) as [->|Hp]; [by rewrite !lookup_delete_eq|].
  rewrite !lookup_delete_ne by done.
  destruct (decide (p = path)) as [->|Hp']; [by rewrite !lookup_insert_eq|].
  by rewrite !lookup_insert_ne by done.
Qed.

(** [Optimize] either leaves the file system alone or goes through
    [savePNG] with a variant strictly shorter than the file. *)
Lemma Optimize_cases env (fs : FS) path :
  (exists r, Optimize env fs path = (fs, r)
             /\ forall saved, r = Ok saved -> saved = 0)
  \/ exists content opt,
       fs !! path = Some content
       /\ (length opt < length content)%nat
       /\ Optimize env fs path =
            match PNGOptimizer_savePNG env fs path opt with
            | (fs', Err e) => (fs', Err e)
            | (fs', Ok _) =>
                (fs', Ok (U64.wrap (Z.of_nat (length content)
                                    - Z.of_nat (length opt))))
            end.
Proof.
  destruct (fs !! path) as [content|] eqn:Hf.
  2:{ left. destruct (Optimize_not_loaded env fs path) as [e He]; [congruence|].
      exists (Err e). by split. }
  destruct (decode content) as [msg|i] eqn:Hd.
  1:{ left. destruct (Optimize_not_loaded env fs path) as [e He]; [congruence|].
      exists (Err e). by split. }
  destruct (optimizeImage i) as [[opt lbl]|e0] eqn:Ho.
  2:{ left. destruct (Optimize_not_loaded env fs path) as [e He]; [congruence|].
      exists (Err e). by split. }
  rewrite (Optimize_loaded env fs path content i opt lbl) by done.
  destruct (Z.leb_spec (Z.of_nat (length content) - Z.of_nat (length opt)) 0) as [Hle|Hlt].
  - left. exists (Ok 0). split; [done|]. by intros saved [= <-].
  - right. exists content, opt. split_and!; [done|lia|done].
Qed.

(** The paths [Optimize] does not use keep their content. *)
Lemma Optimize_frame env (fs : FS) (path p : string) :
  p ≠ path ->
  p ≠ (path +:+ ".pngtmp")%string ->
  (Optimize env fs path).1 !! p = fs !! p.
Proof.
  intros Hp Htmp.
  destruct (Optimize_cases env fs path)
    as [(r & -> & _)|(content & opt & _ & _ & ->)]; [done|].
  rewrite PNGOptimizer_savePNG_cases.
  destruct (createOk env); [|done].
  destruct (writeFailsAfter env) as [k|]; simpl.
  - by rewrite !lookup_insert_ne.
  - destruct (renameOk env); simpl.
    + rewrite lookup_delete_ne by done. by rewrite !lookup_insert_ne.
    + by rewrite !lookup_insert_ne.
Qed.

(** X14. [Optimize(path)] reads and writes two paths only: whatever the
    operating system does, every path other than [path] and
    [path + ".pngtmp"] holds afterwards what it held before. *)
Theorem Optimize_touches_only_its_paths env (fs : FS) (path p : string) :
  p ≠ path ->
  p ≠ (path +:+ ".pngtmp")%string ->
  (Optimize env fs path).1 !! p = fs !! p.
Proof.
  intros Hp Htmp.
  destruct (Optimize_cases env fs path)
    as [(r & -> & _)|(content & opt & _ & _ & ->)]; [done|].
  rewrite PNGOptimizer_savePNG_cases.
  destruct (createOk env); [|done].
  destruct (writeFailsAfter env) as [k|]; simpl.
  - by rewrite !lookup_insert_ne.
  - destruct (renameOk env); simpl.
    + rewrite lookup_delete_ne by done. by rewrite !lookup_insert_ne.
    + by rewrite !lookup_insert_ne.
Qed.

(** The file system after a run of [Optimize] that returns no error. *)
Lemma Optimize_Ok_state env (fs : FS) (path : string) (saved : Z) :
  (Optimize env fs path).2 = Ok saved ->
  ((Optimize env fs path).1 = fs /\ saved = 0)
  \/ exists content opt : list byte,
       fs !! path = Some content
       /\ (length opt < length content)%nat
       /\ saved = U64.wrap (Z.of_nat (length content) - Z.of_nat (length opt))
       /\ (Optimize env fs path).1
          = delete (path +:+ ".pngtmp")%string (<[path := opt]> fs).
Proof.
  destruct (Optimize_cases env fs path)
    as [(r & -> & Hr)|(content & opt & Hf & Hlen & ->)].
  - simpl. intros ->. left. split; [done|]. by apply Hr.
  - rewrite PNGOptimizer_savePNG_cases.
    destruct (createOk env); [|done].
    destruct (writeFailsAfter env) as [k|]; [done|].
    destruct (renameOk env); [|done]. simpl. intros [= <-].
    right. exists content, opt. split_and!; [done|done|done|].
    apply commit_state.
Qed.

(** X15. When [Optimize] returns without error, either nothing was written
    and it reports 0 bytes, or the file system is the old one with the
    selected variant at [path] and no file at [path + ".pngtmp"] (a file
    that was there before is gone), the variant being strictly shorter than
    the old content and the report being the difference of the lengths. *)
Theorem Optimize_success_state env (fs : FS) (path : string) (saved : Z) :
  (Optimize env fs path).2 = Ok saved ->
  ((Optimize env fs path).1 = fs /\ saved = 0)
  \/ exists content opt : list byte,
       fs !! path = Some content
       /\ (length opt < length content)%nat
       /\ saved = U64.wrap (Z.of_nat (length content) - Z.of_nat (length opt))
       /\ (Optimize env fs path).1
          = delete (path +:+ ".pngtmp")%string (<[path := opt]> fs).
Proof.
  destruct (Optimize_cases env fs path)
    as [(r & -> & Hr)|(content & opt & Hf & Hlen & ->)].
  - simpl. intros ->. left. split; [done|]. by apply Hr.
  - rewrite PNGOptimizer_savePNG_cases.
    destruct (createOk env); [|done].
    destruct (writeFailsAfter env) as [k|]; [done|].
    destruct (renameOk env); [|done]. simpl. intros [= <-].
    right. exists content, opt. split_and!; [done|done|done|].
    apply commit_state.
Qed.

(** ** The directory walk *)

Lemma list_byte_of_string_app (s1 s2 : string) :
  String.list_byte_of_string (s1 +:+ s2)
  = String.list_byte_of_string s1 ++ String.list_byte_of_string s2.
Proof.
  unfold String.list_byte_of_string.
  induction s1 as [|a s1 IH]; simpl; [done|]. by rewrite IH.
Qed.

(** The extension of a temporary path. *)
Lemma Ext_tmp (goos : GOOS) (path : string) :
  filepath_Ext goos (path +:+ ".pngtmp") = ".pngtmp"%string.
Proof.
  unfold filepath_Ext. rewrite list_byte_of_string_app, reverse_app.
  by destruct goos.
Qed.

(** The registry holds the PNG optimizer under ["png"] and nothing else. *)
Lemma assetsRegistry_lookup (ext : string) (o : AssetOptimizer) :
  assetsRegistry !! ext = Some o <-> ext = extPNG /\ o = pngOptimizer.
Proof.
  unfold assetsRegistry, registryAssetOptimizer.
  rewrite lookup_insert_Some, lookup_empty. split.
  - intros [[<- <-]|[_ ?]]; done.
  - intros [-> ->]. by left.
Qed.

(** X16. The walk never optimizes a temporary file: on a path ending in
    [".pngtmp"] (what a failed commit leaves behind) [walkerFn] returns
    [nil] and changes neither the file system nor the statistics, on Unix
    and on Windows alike. *)
Theorem walkerFn_skips_temporary (goos : GOOS) (os : string -> io)
    (ao : AssetsOptimizer) (fs : FS) (path : string) (info : FileInfo) :
  walkerFn goos os ao fs (path +:+ ".pngtmp") info None = (fs, ao, Ok tt).
Proof.
  unfold walkerFn. destruct (IsRegular info); [|done]. simpl.
  rewrite Ext_tmp. simpl.
  destruct (assetsRegistry !! _) as [o|] eqn:Hreg; [|done].
  apply assetsRegistry_lookup in Hreg as [Hext _]. by vm_compute in Hext.
Qed.

(** One call of [walkerFn]: nothing changes, or the entry is a regular file
    whose lower-cased extension is ["png"] and [Optimize] runs on it. *)
Lemma walkerFn_cases (goos : GOOS) (os : string -> io) (ao : AssetsOptimizer)
    (fs : FS) (path : string) (info : FileInfo) (err : option error) :
  (exists r, walkerFn goos os ao fs path info err = (fs, ao, r))
  \/ (err = None
      /\ IsRegular info = true
      /\ ToLower unicodeLower (dropDot (filepath_Ext goos path)) = extPNG
      /\ walkerFn goos os ao fs path info err =
           match Optimize (os path) fs path with
           | (fs', Err e) => (fs', ao, Err e)
           | (fs', Ok n) =>
               if 0 <? n then
                 (fs',
                  mkAssetsOptimizer (dir ao)
                    (Stats.mk (U64.add (Stats.n (stats ao)) n)
                              (U64.add (Stats.c (stats ao)) 1)),
                  Ok tt)
               else (fs', ao, Ok tt)
           end).
Proof.
  unfold walkerFn. destruct err as [e|]; [left; by eauto|].
  destruct (IsRegular info); simpl; [|left; by eauto].
  destruct (String.eqb _ _); [left; by eauto|].
  destruct (assetsRegistry !! _) as [o|] eqn:Hreg; [|left; by eauto].
  apply assetsRegistry_lookup in Hreg as [Hext ->].
  destruct (filepath_Rel _ _) as [msg|rel]; [left; by eauto|].
  right. by split_and!.
Qed.

Lemma totalSize_insert (fs : FS) (path : string) (content opt : list byte) :
  fs !! path = Some content ->
  totalSize (<[path := opt]> fs)
  = totalSize fs - Z.of_nat (length content) + Z.of_nat (length opt).
Proof.
  intros Hf. unfold totalSize.
  rewrite (map_fold_delete_L _ _ path content fs); [|intros; lia|done].
  rewrite <- insert_delete_eq.
  rewrite map_fold_insert_L; [lia|intros; lia|apply lookup_delete_eq].
Qed.

Lemma wrap_add_wrap_r (a b : Z) : U64.wrap (a + U64.wrap b) = U64.wrap (a + b).
Proof. unfold U64.wrap. by rewrite Zplus_mod_idemp_r. Qed.

Lemma wrap_in_range (a : Z) : U64.in_range (U64.wrap a).
Proof.
  unfold U64.in_range, U64.wrap. apply Z.mod_pos_bound. by unfold U64.modulus.
Qed.

Lemma wrap_small (a : Z) : U64.in_range a -> U64.wrap a = a.
Proof. unfold U64.in_range, U64.wrap. intros Ha. by apply Z.mod_small. Qed.

Lemma walkerFn_walkInv (goos : GOOS) (os : string -> io) (fs0 : FS) (n0 : Z)
    (ao : AssetsOptimizer) (fs : FS) (path : string) (info : FileInfo)
    (err : option error) (fs' : FS) (ao' : AssetsOptimizer) :
  walkInv fs0 n0 fs ao ->
  walkerFn goos os ao fs path info err = (fs', ao', Ok tt) ->
  walkInv fs0 n0 fs' ao' /\ dir ao' = dir ao.
Proof.
  intros (Htmp & Hrange & Hn & Hdom & Hshrink) Hstep.
  destruct (walkerFn_cases goos os ao fs path info err)
    as [[r Hr]|(_ & _ & _ & Hw)].
  { rewrite Hr in Hstep. injection Hstep as <- <- _. by split. }
  rewrite Hw in Hstep. clear Hw.
  pose proof (Optimize_Ok_state (os path) fs path) as Hok.
  destruct (Optimize (os path) fs path) as [fs1 [saved|e]]; [|done].
  destruct (Hok saved eq_refl) as [[Hfs Hs]|(content & opt & Hf & Hlen & Hs & Hfs)];
    simpl in Hfs; subst fs1.
  { subst saved. simpl in Hstep. injection Hstep as <- <-. by split. }
  assert (delete (path +:+ ".pngtmp")%string (<[path := opt]> fs)
          = <[path := opt]> fs) as Hdel.
  { apply delete_id. rewrite lookup_insert_ne by (symmetry; apply tmp_ne).
    apply Htmp. }
  rewrite Hdel in Hstep.
  assert (totalSize fs0 - totalSize (<[path := opt]> fs)
          = totalSize fs0 - totalSize fs
            + (Z.of_nat (length content) - Z.of_nat (length opt))) as Hsize.
  { rewrite (totalSize_insert fs path content opt Hf). lia. }
  assert (fs' = <[path := opt]> fs
          /\ Stats.n (stats ao')
             = U64.wrap (Stats.n (stats ao)
                         + (Z.of_nat (length content) - Z.of_nat (length opt)))
          /\ dir ao' = dir ao) as (-> & Hn' & Hdir).
  { destruct (Z.ltb_spec 0 saved) as [Hpos|Hzero].
    - injection Hstep as <- <-. simpl. split_and!; [done| |done].
      unfold U64.add. rewrite Hs. apply wrap_add_wrap_r.
    - injection Hstep as <- <-. split_and!; [done| |done].
      assert (saved = 0) as Hz.
      { pose proof (wrap_in_range (Z.of_nat (length content) - Z.of_nat (length opt))) as Hr.
        rewrite <- Hs in Hr. unfold U64.in_range in Hr. lia. }
      rewrite <- wrap_add_wrap_r, <- Hs, Hz, Z.add_0_r.
      symmetry. by apply wrap_small. }
  split; [|done]. split_and!.
  - intros p. destruct (decide ((p +:+ ".pngtmp")%string = path)) as [Hp|Hp].
    + specialize (Htmp p). rewrite Hp in Htmp. congruence.
    + rewrite lookup_insert_ne by done. apply Htmp.
  - rewrite Hn'. apply wrap_in_range.
  - rewrite Hn', Hn, Hsize, wrap_add_wrap. f_equal. lia.
  - rewrite dom_insert_L, <- Hdom.
    assert (path ∈ dom fs) by (apply elem_of_dom; by eauto). set_solver.
  - intros p c Hc. destruct (decide (p = path)) as [->|Hp].
    + rewrite lookup_insert_eq in Hc. injection Hc as <-.
      destruct (Hshrink path content Hf) as (c0 & Hc0 & Hle).
      exists c0. split; [done|lia].
    + rewrite lookup_insert_ne in Hc by done. by apply Hshrink.
Qed.

Lemma Walk_walkInv (goos : GOOS) (os : string -> io) (fs0 : FS) (n0 : Z)
    (calls : list walkCall) :
  forall (ao : AssetsOptimizer) (fs fs' : FS) (ao' : AssetsOptimizer),
    walkInv fs0 n0 fs ao ->
    Walk goos os ao fs calls = (fs', ao', Ok tt) ->
    walkInv fs0 n0 fs' ao' /\ dir ao' = dir ao.
Proof.
  induction calls as [|[[path info] err] calls IH]; intros ao fs fs' ao' Hinv Hw.
  - simpl in Hw. injection Hw as <- <-. by split.
  - simpl in Hw.
    destruct (walkerFn goos os ao fs path info err) as [[fs1 ao1] [[]|e]] eqn:Hstep;
      [|done].
    destruct (walkerFn_walkInv goos os fs0 n0 ao fs path info err fs1 ao1 Hinv Hstep)
      as [Hinv1 Hdir1].
    destruct (IH ao1 fs1 fs' ao' Hinv1 Hw) as [Hinv' Hdir'].
    split; [done|congruence].
Qed.

(** X17. Accounting of a successful run. If no file named [*.pngtmp] exists
    beforehand and [Run] returns no error, then the saved bytes it reports
    are the bytes by which the files have shrunk altogether (as a [uint64],
    modulo [2^64]); the set of files is the same; no temporary file is left;
    and no file is longer than it was. *)
Theorem Run_reports_size_reduction (goos : GOOS) (os : string -> io)
    (ao : AssetsOptimizer) (fs : FS) (calls : list walkCall)
    (fs' : FS) (ao' : AssetsOptimizer) :
  (forall p, fs !! (p +:+ ".pngtmp")%string = None) ->
  U64.in_range (Stats.n (stats ao)) ->
  Run goos os ao fs calls = (fs', ao', Ok tt) ->
  Stats.n (stats ao')
    = U64.wrap (Stats.n (stats ao) + (totalSize fs - totalSize fs'))
  /\ dom fs' = dom fs
  /\ (forall p, fs' !! (p +:+ ".pngtmp")%string = None)
  /\ (forall p content', fs' !! p = Some content' ->
        exists content, fs !! p = Some content
                        /\ (length content' <= length content)%nat)
  /\ dir ao' = dir ao.
Proof.
  intros Htmp Hrange Hrun. unfold Run in Hrun.
  destruct (Walk goos os ao fs calls) as [[fs1 ao1] [[]|e]] eqn:Hw; [|done].
  injection Hrun as <- <-.
  assert (walkInv fs (Stats.n (stats ao)) fs ao) as Hinv.
  { split_and!; [done|done| |done|by eauto].
    rewrite Z.sub_diag, Z.add_0_r. symmetry. by apply wrap_small. }
  destruct (Walk_walkInv goos os fs (Stats.n (stats ao)) calls ao fs fs1 ao1 Hinv Hw)
    as [(H1 & _ & H3 & H4 & H5) Hdir].
  by split_and!.
Qed.

(** The paths a walk does not own keep their content. *)
Lemma Walk_frame (goos : GOOS) (os : string -> io) (p : string)
    (calls : list walkCall) :
  forall (ao : AssetsOptimizer) (fs : FS),
    (forall q info, (q, info, None) ∈ calls ->
       IsRegular info = true ->
       ToLower unicodeLower (dropDot (filepath_Ext goos q)) = extPNG ->
       p ≠ q /\ p ≠ (q +:+ ".pngtmp")%string) ->
    (Walk goos os ao fs calls).1.1 !! p = fs !! p.
Proof.
  induction calls as [|[[path info] err] calls IH]; intros ao fs Hp; [done|].
  simpl.
  assert ((walkerFn goos os ao fs path info err).1.1 !! p = fs !! p) as Hstep.
  { destruct (walkerFn_cases goos os ao fs path info err)
      as [[r ->]|(-> & Hreg & Hext & ->)]; [done|].
    destruct (Hp path info (list_elem_of_here _ _) Hreg Hext) as [Hne Hnt].
    pose proof (Optimize_frame (os path) fs path p Hne Hnt) as Hfr.
    destruct (Optimize (os path) fs path) as [fs1 [n|e]]; simpl in *; [|done].
    by destruct (0 <? n). }
  destruct (walkerFn goos os ao fs path info err) as [[fs1 ao1] [[]|e]];
    simpl in *; [|done].
  rewrite IH; [done|]. intros q info' Hq. apply Hp. by apply list_elem_of_further.
Qed.

(** X18. A run writes only to PNG assets and their temporary names: a path
    [p] that is neither a visited regular file with extension ["png"] (in
    any letter case) nor such a path followed by [".pngtmp"] holds after
    [Run] what it held before, whether the run succeeds or stops on an
    error. *)
Theorem Run_touches_only_png (goos : GOOS) (os : string -> io)
    (ao : AssetsOptimizer) (fs : FS) (calls : list walkCall) (p : string) :
  (forall q info, (q, info, None) ∈ calls ->
     IsRegular info = true ->
     ToLower unicodeLower (dropDot (filepath_Ext goos q)) = extPNG ->
     p ≠ q /\ p ≠ (q +:+ ".pngtmp")%string) ->
  (Run goos os ao fs calls).1.1 !! p = fs !! p.
Proof.
  intros Hp. unfold Run.
  pose proof (Walk_frame goos os p calls ao fs Hp) as Hw.
  by destruct (Walk goos os ao fs calls) as [[fs1 ao1] [[]|e]].
Qed.

(** ** When the paletted variant is made *)

(** X19. Among the candidates of a truecolor image the "paletted" variant is
    present exactly when the image has at most 256 distinct colours; it is
    then the last candidate, its buffer is the encoding of the source redrawn
    over the palette of [paletteFromNRGBA], and that palette has at most 256
    entries, so that every index fits in a byte. *)
Theorem paletted_variant_iff (src : raster NRGBA) (vs : variantsList) :
  enumerates rangeNRGBA ->
  rearranges pdqsort ->
  variantsNRGBA src = Ok vs ->
  ((exists b, (b, "paletted"%string) ∈ vs)
   <-> (size (list_to_set (scan src) : gset NRGBA) <= 256)%nat)
  /\ (forall b, (b, "paletted"%string) ∈ vs ->
        last vs = Some (b, "paletted"%string)
        /\ encode (ImgPaletted
                     (toPaletted ColNRGBA src
                        (paletteFromNRGBA src (countNRGBAColors src).1.1.1)))
           = inr b
        /\ (length (paletteFromNRGBA src (countNRGBAColors src).1.1.1) <= 256)%nat).
Proof.
  intros Hrange Hsort.
  assert (forall hint,
            Z.of_nat (length (paletteFromNRGBA src hint))
            = (countNRGBAColors src).1.1.1) as Hlen.
  { intros hint.
    rewrite (Permutation_length (paletteFromNRGBA_perm src hint Hsort)).
    by rewrite length_fmap, (rawPalette_length Hrange). }
  destruct (countNRGBAColors_flags src) as (Hn & _).
  unfold variantsNRGBA, asPaletted.
  destruct (countNRGBAColors src) as [[[n ht] hp] g]. cbn [fst snd] in Hn, Hlen.
  destruct (encode (ImgNRGBA src)) as [msg|b0]; run; [done|].
  assert (forall pre : variantsList,
            (forall b, (b, "paletted"%string) ∉ pre) ->
            (if n <=? 256
             then match wrapErr "error encode paletted"
                          (encode (ImgPaletted
                                     (toPaletted ColNRGBA src (paletteFromNRGBA src n))))
                  with
                  | Ok b => Ok (pre ++ [(b, "paletted"%string)])
                  | Err e => Err e
                  end
             else Ok pre) = Ok vs ->
            ((exists b, (b, "paletted"%string) ∈ vs)
             <-> (size (list_to_set (scan src) : gset NRGBA) <= 256)%nat)
            /\ (forall b, (b, "paletted"%string) ∈ vs ->
                  last vs = Some (b, "paletted"%string)
                  /\ encode (ImgPaletted
                               (toPaletted ColNRGBA src (paletteFromNRGBA src n)))
                     = inr b
                  /\ (length (paletteFromNRGBA src n) <= 256)%nat)) as Hgen.
  { intros pre Hpre. destruct (Z.leb_spec n 256) as [Hle|Hgt]; run.
    - destruct (encode (ImgPaletted _)) as [?|b2] eqn:E2; run; [done|].
      intros [= <-]. split.
      + split; [intros _; lia|]. intros _. exists b2.
        apply elem_of_app. right. apply list_elem_of_here.
      + intros b [Hb|Hb]%elem_of_app; [by apply Hpre in Hb|].
        apply list_elem_of_singleton in Hb. injection Hb as ->.
        split_and!; [by rewrite last_snoc|done|].
        specialize (Hlen n). lia.
    - intros [= <-]. split.
      + split; [intros [b Hb]; by apply Hpre in Hb|lia].
      + intros b Hb. by apply Hpre in Hb. }
  destruct (g && negb (ht || hp)); run.
  - destruct (encode (ImgGray (nrgba2gray src))) as [?|b1]; run; [done|].
    apply (Hgen [(b0, "src (nrgba/rgb)"%string); (b1, "gray"%string)]).
    intros b Hb.
    repeat (apply elem_of_cons in Hb as [Hb|Hb]; [congruence|]).
    by apply elem_of_nil in Hb.
  - apply (Hgen [(b0, "src (nrgba/rgb)"%string)]). intros b Hb.
    repeat (apply elem_of_cons in Hb as [Hb|Hb]; [congruence|]).
    by apply elem_of_nil in Hb.
Qed.

(** ** A rename that fails *)

(** X20. When the temporary file has been written in full and the rename
    fails, [PNGOptimizer.savePNG] returns the error of the rename; the
    temporary path then holds the complete new buffer and every other path,
    the original included, is as before. *)
Theorem failed_rename_keeps_complete_temporary env (fs : FS) (path : string)
    (b : list byte) :
  createOk env = true ->
  writeFailsAfter env = None ->
  renameOk env = false ->
  (PNGOptimizer_savePNG env fs path b).2 = Err (External "rename")
  /\ (PNGOptimizer_savePNG env fs path b).1
     = <[(path +:+ ".pngtmp")%string := b]> fs
  /\ (PNGOptimizer_savePNG env fs path b).1 !! path = fs !! path.
Proof.
  intros Hc Hw Hr. rewrite PNGOptimizer_savePNG_cases, Hc, Hw, Hr. simpl.
  split_and!; [done|apply insert_insert_eq|].
  rewrite !lookup_insert_ne; [done|apply tmp_ne..].
Qed.

(** ** The selected variant against the direct encoding *)

Lemma candidates_directFirst (i : Image) :
  directFirst (directLabel i) (directImage i) (candidates i).
Proof.
  destruct i; simpl;
    try apply variantsNRGBA_directFirst;
    try apply variantsPaletted_directFirst;
    try apply variantsGray_directFirst;
    (destruct (encode _) as [?|b] eqn:E; run; [done|by eauto]).
Qed.

(** X21. The variant [Optimize] selects for an image is one of the
    candidates and is never longer than the direct encoding, which is the
    first candidate; when it is exactly as long, it is the direct encoding
    itself, under its label. *)
Theorem selected_no_longer_than_direct (i : Image) (opt : list byte) (lbl : string) :
  optimizeImage i = Ok (opt, lbl) ->
  exists (vs : variantsList) (b0 : list byte),
    candidates i = Ok vs
    /\ (opt, lbl) ∈ vs
    /\ encode (directImage i) = inr b0
    /\ (length opt <= length b0)%nat
    /\ (length opt = length b0 -> (opt, lbl) = (b0, directLabel i)).
Proof.
  rewrite optimizeImage_candidates.
  pose proof (candidates_directFirst i) as Hd.
  destruct (candidates i) as [vs|e]; simpl in *; [|done].
  destruct Hd as (b0 & rest & -> & Hb0). simpl. intros [= Hbest].
  exists ((b0, directLabel i) :: rest), b0.
  destruct (best_loop_spec rest (b0, directLabel i))
    as [[Heq Hmin]|(k & Hk & Hlen & _)]; rewrite Hbest in *; simpl in *.
  - injection Heq as -> ->. split_and!; [done|apply list_elem_of_here|done|lia|done].
  - split_and!; [done| |done|lia|lia].
    apply list_elem_of_further. by eapply list_elem_of_lookup_2.
Qed.

(** ** The order of a small gray palette *)

Lemma insertRev_all_true {A} (less : A -> A -> bool) (x : A) (rp : list A) :
  Forall (fun y => less x y = true) rp ->
  GoSort.insertRev less x rp = rp ++ [x].
Proof.
  induction 1 as [|y rp Hy _ IH]; simpl; [done|]. by rewrite Hy, IH.
Qed.

(** A comparison that holds between any two distinct elements makes
    [insertionSort] reverse a slice without repetition. *)
Lemma insertionSort_all_true {A} (less : A -> A -> bool) (l : list A) :
  NoDup l ->
  (forall x y, x ∈ l -> y ∈ l -> x ≠ y -> less x y = true) ->
  GoSort.insertionSort less l = reverse l.
Proof.
  intros Hnd Hless. rewrite insertionSort_sortRev. f_equal.
  induction l as [|x l IH] using rev_ind; [done|].
  apply NoDup_app in Hnd as (Hnd & Hx & _).
  rewrite sortRev_snoc, IH.
  - apply insertRev_all_true, Forall_forall. intros y Hy.
    apply Hless; [apply elem_of_app; right; apply list_elem_of_here
                 |apply elem_of_app; by left|].
    intros ->. apply (Hx y Hy), list_elem_of_here.
  - done.
  - intros a b Ha Hb. apply Hless; apply elem_of_app; by left.
Qed.

(** A comparison that never holds makes [insertionSort] leave the slice as
    it is. *)
Lemma insertionSort_all_false {A} (less : A -> A -> bool) (l : list A) :
  (forall x y, x ∈ l -> y ∈ l -> less x y = false) ->
  GoSort.insertionSort less l = l.
Proof.
  intros Hless. rewrite insertionSort_sortRev.
  rewrite <- (reverse_involutive l) at 2. f_equal.
  induction l as [|x l IH] using rev_ind; [done|].
  rewrite sortRev_snoc, IH, reverse_snoc.
  - destruct (reverse l) as [|y rp] eqn:Hr; [done|]. simpl.
    rewrite Hless; [done|apply elem_of_app; right; apply list_elem_of_here|].
    apply elem_of_app. left. apply elem_of_reverse. rewrite Hr.
    apply list_elem_of_here.
  - intros a b Ha Hb. apply Hless; apply elem_of_app; by left.
Qed.

(** X22. For a gray image of at most 12 gray levels the order of the palette
    of [paletteFromGray] is fixed by the order in which the map yields its
    keys, not by the counts: when the levels have pairwise different counts
    the palette is the enumeration reversed, and when they all have the same
    count it is the enumeration itself. *)
Theorem small_gray_palette_follows_enumeration (img : raster byte) (hint : Z) :
  enumerates rangeGray ->
  countGrayColors img <= 12 ->
  ((forall a b, a ∈ scan img -> b ∈ scan img -> a ≠ b ->
      freq (frequencies (scan img)) a ≠ freq (frequencies (scan img)) b) ->
   paletteFromGray img hint
   = ColGray <$> reverse (rangeGray (frequencies (scan img))))
  /\ ((forall a b, a ∈ scan img -> b ∈ scan img ->
         freq (frequencies (scan img)) a = freq (frequencies (scan img)) b) ->
      paletteFromGray img hint = ColGray <$> rangeGray (frequencies (scan img))).
Proof.
  intros Hrange Hsmall.
  assert (forall v, v ∈ rangeGray (frequencies (scan img)) <-> v ∈ scan img) as Hraw.
  { intros v. rewrite (Hrange _), keys_elem, frequencies_dom.
    apply elem_of_list_to_set. }
  assert (NoDup (rangeGray (frequencies (scan img)))) as Hnd.
  { rewrite (Hrange _). apply NoDup_fst_map_to_list. }
  assert ((length (rangeGray (frequencies (scan img))) <=? GoSort.maxInsertion)%nat
          = true) as Hshort.
  { apply Nat.leb_le.
    rewrite (Permutation_length (Hrange _)), keys_length, frequencies_dom.
    rewrite countGrayColors_size in Hsmall. unfold GoSort.maxInsertion. lia. }
  unfold paletteFromGray, GoSort.Sort. rewrite Hshort. split.
  - intros Hdiff. f_equal. apply insertionSort_all_true; [done|].
    intros x y Hx Hy Hxy. rewrite grayLess_differs.
    apply negb_true_iff, Z.eqb_neq. apply Hdiff; [by apply Hraw..|done].
  - intros Hsame. f_equal. apply insertionSort_all_false.
    intros x y Hx Hy. rewrite grayLess_differs.
    apply negb_false_iff, Z.eqb_eq. apply Hsame; by apply Hraw.
Qed.

(** ** A walk that stops *)

Lemma Walk_app (goos : GOOS) (os : string -> io) (calls1 calls2 : list walkCall) :
  forall (ao : AssetsOptimizer) (fs : FS),
    Walk goos os ao fs (calls1 ++ calls2)
    = match Walk goos os ao fs calls1 with
      | (fs1, ao1, Ok _) => Walk goos os ao1 fs1 calls2
      | (fs1, ao1, Err e) => (fs1, ao1, Err e)
      end.
Proof.
  induction calls1 as [|[[path info] err] calls1 IH]; intros ao fs; [done|].
  simpl. destruct (walkerFn goos os ao fs path info err) as [[fs1 ao1] [[]|e]];
    [apply IH|done].
Qed.

(** X23. The first error ends the run: when the walk has gone through
    [calls1] without error and [walkerFn] fails on the next entry, [Run]
    returns that error whatever entries follow, none of which is visited;
    the statistics are those reached before the failing entry, and the
    failing call has changed no path except, possibly, the temporary one of
    its file. *)
Theorem Run_stops_at_first_error (goos : GOOS) (os : string -> io)
    (ao : AssetsOptimizer) (fs : FS) (calls1 calls2 : list walkCall)
    (path : string) (info : FileInfo) (err : option error)
    (fs1 fs2 : FS) (ao1 ao2 : AssetsOptimizer) (e : error) :
  Walk goos os ao fs calls1 = (fs1, ao1, Ok tt) ->
  walkerFn goos os ao1 fs1 path info err = (fs2, ao2, Err e) ->
  Run goos os ao fs (calls1 ++ (path, info, err) :: calls2) = (fs2, ao2, Err e)
  /\ ao2 = ao1
  /\ forall p, p ≠ (path +:+ ".pngtmp")%string -> fs2 !! p = fs1 !! p.
Proof.
  intros Hw Hstep. split.
  - unfold Run. rewrite Walk_app, Hw. simpl. by rewrite Hstep.
  - destruct (walkerFn_cases goos os ao1 fs1 path info err)
      as [[r Hr]|(_ & _ & _ & Hcase)].
    + rewrite Hr in Hstep. by injection Hstep as <- <- _.
    + rewrite Hcase in Hstep. clear Hcase.
      destruct (Optimize_cases (os path) fs1 path)
        as [(r & Ho & _)|(content & opt & _ & _ & Ho)]; rewrite Ho in Hstep.
      * destruct r as [n|e']; [by destruct (0 <? n)|].
        by injection Hstep as <- <- _.
      * rewrite PNGOptimizer_savePNG_cases in Hstep.
        destruct (createOk (os path)); [|by injection Hstep as <- <- _].
        destruct (writeFailsAfter (os path)) as [k|].
        -- injection Hstep as <- <- _. split; [done|].
           intros p Hp. by rewrite !lookup_insert_ne.
        -- destruct (renameOk (os path)).
           ++ by destruct (0 <? _).
           ++ injection Hstep as <- <- _. split; [done|].
              intros p Hp. by rewrite !lookup_insert_ne.
Qed.

(** ** The counter of optimized files *)

Lemma changedFiles_insert (fs0 fs : FS) (path : string) (content opt : list byte) :
  fs !! path = Some content ->
  fs0 !! path = Some content ->
  (length opt < length content)%nat ->
  changedFiles fs0 (<[path := opt]> fs) = {[path]} ∪ changedFiles fs0 fs
  /\ path ∉ changedFiles fs0 fs.
Proof.
  intros Hf Hf0 Hlen. unfold changedFiles. split.
  - apply set_eq. intros p.
    rewrite elem_of_union, !elem_of_filter, elem_of_singleton, !elem_of_dom.
    destruct (decide (p = path)) as [->|Hp].
    + rewrite lookup_insert_eq, Hf0. split; [by left|]. intros _.
      split; [|by eauto]. intros [= Heq]. rewrite Heq in Hlen. lia.
    + rewrite lookup_insert_ne by done. split; [by right|].
      by intros [?|?].
  - rewrite elem_of_filter. intros [Hne _]. congruence.
Qed.

Lemma walkerFn_countInv (goos : GOOS) (os : string -> io) (fs0 : FS) (c0 : Z)
    (ao : AssetsOptimizer) (fs : FS) (path : string) (info : FileInfo)
    (err : option error) (fs' : FS) (ao' : AssetsOptimizer) :
  countInv fs0 c0 fs ao ->
  fs !! path = fs0 !! path ->
  walkerFn goos os ao fs path info err = (fs', ao', Ok tt) ->
  countInv fs0 c0 fs' ao' /\ forall q, q ≠ path -> fs' !! q = fs !! q.
Proof.
  intros (Htmp & Hsize & Hc) Hsame Hstep.
  destruct (walkerFn_cases goos os ao fs path info err)
    as [[r Hr]|(_ & _ & _ & Hw)].
  { rewrite Hr in Hstep. injection Hstep as <- <- _. by split. }
  rewrite Hw in Hstep. clear Hw.
  pose proof (Optimize_Ok_state (os path) fs path) as Hok.
  destruct (Optimize (os path) fs path) as [fs1 [saved|e]]; [|done].
  destruct (Hok saved eq_refl) as [[Hfs Hs]|(content & opt & Hf & Hlen & Hs & Hfs)];
    simpl in Hfs; subst fs1.
  { subst saved. simpl in Hstep. injection Hstep as <- <-. by split. }
  assert (delete (path +:+ ".pngtmp")%string (<[path := opt]> fs)
          = <[path := opt]> fs) as Hdel.
  { apply delete_id. rewrite lookup_insert_ne by (symmetry; apply tmp_ne).
    apply Htmp. }
  rewrite Hdel in Hstep.
  pose proof (Hsize path content Hf) as Hbound.
  assert (saved = Z.of_nat (length content) - Z.of_nat (length opt)) as Hsaved.
  { rewrite Hs. apply wrap_small. unfold U64.in_range, U64.modulus. lia. }
  destruct (Z.ltb_spec 0 saved) as [_|Hzero]; [|lia].
  injection Hstep as <- <-.
  rewrite Hf in Hsame.
  destruct (changedFiles_insert fs0 fs path content opt Hf (eq_sym Hsame) Hlen)
    as [Hch Hnot].
  split; [|intros q Hq; by rewrite lookup_insert_ne].
  split_and!.
  - intros p. destruct (decide ((p +:+ ".pngtmp")%string = path)) as [Hp|Hp].
    + specialize (Htmp p). rewrite Hp in Htmp. congruence.
    + rewrite lookup_insert_ne by done. apply Htmp.
  - intros p c Hp. destruct (decide (p = path)) as [->|Hne].
    + rewrite lookup_insert_eq in Hp. injection Hp as <-. lia.
    + rewrite lookup_insert_ne in Hp by done. by eapply Hsize.
  - simpl. unfold U64.add. rewrite Hc, wrap_add_wrap, Hch.
    rewrite size_union by (by apply disjoint_singleton_l).
    rewrite size_singleton. f_equal. lia.
Qed.

Lemma Walk_countInv (goos : GOOS) (os : string -> io) (fs0 : FS) (c0 : Z)
    (calls : list walkCall) :
  forall (ao : AssetsOptimizer) (fs fs' : FS) (ao' : AssetsOptimizer),
    countInv fs0 c0 fs ao ->
    NoDup (calls.*1.*1) ->
    (forall q, q ∈ calls.*1.*1 -> fs !! q = fs0 !! q) ->
    Walk goos os ao fs calls = (fs', ao', Ok tt) ->
    countInv fs0 c0 fs' ao'.
Proof.
  induction calls as [|[[path info] err] calls IH];
    intros ao fs fs' ao' Hinv Hnd Hsame Hw.
  - simpl in Hw. by injection Hw as <- <-.
  - simpl in Hw, Hnd. apply NoDup_cons in Hnd as [Hpath Hnd].
    destruct (walkerFn goos os ao fs path info err) as [[fs1 ao1] [[]|e]] eqn:Hstep;
      [|done].
    destruct (walkerFn_countInv goos os fs0 c0 ao fs path info err fs1 ao1 Hinv)
      as [Hinv1 Hframe]; [apply Hsame, list_elem_of_here|done|].
    apply (IH ao1 fs1 fs' ao' Hinv1 Hnd); [|done].
    intros q Hq. rewrite Hframe.
    + apply Hsame. by apply list_elem_of_further.
    + intros ->. done.
Qed.

(** X24. The counter of a successful run. If no file named [*.pngtmp]
    exists beforehand, every file is shorter than [2^63] bytes, no path is
    visited twice and [Run] returns no error, then the number of optimized
    files it reports has grown by the number of files whose content has
    changed (as a [uint], modulo [2^64]). *)
Theorem Run_counts_changed_files (goos : GOOS) (os : string -> io)
    (ao : AssetsOptimizer) (fs : FS) (calls : list walkCall)
    (fs' : FS) (ao' : AssetsOptimizer) :
  (forall p, fs !! (p +:+ ".pngtmp")%string = None) ->
  (forall p content, fs !! p = Some content ->
     Z.of_nat (length content) < 2 ^ 63) ->
  NoDup (calls.*1.*1) ->
  U64.in_range (Stats.c (stats ao)) ->
  Run goos os ao fs calls = (fs', ao', Ok tt) ->
  Stats.c (stats ao')
  = U64.wrap (Stats.c (stats ao) + Z.of_nat (size (changedFiles fs fs'))).
Proof.
  intros Htmp Hsize Hnd Hrange Hrun. unfold Run in Hrun.
  destruct (Walk goos os ao fs calls) as [[fs1 ao1] [[]|e]] eqn:Hw; [|done].
  injection Hrun as <- <-.
  assert (countInv fs (Stats.c (stats ao)) fs ao) as Hinv.
  { split_and!; [done|done|].
    assert (changedFiles fs fs = ∅) as ->.
    { apply set_eq. intros p. unfold changedFiles.
      rewrite elem_of_filter. split; [by intros [? _]|].
      intros Hp. by apply not_elem_of_empty in Hp. }
    rewrite size_empty, Z.add_0_r. symmetry. by apply wrap_small. }
  by destruct (Walk_countInv goos os fs (Stats.c (stats ao)) calls ao fs fs1 ao1
                 Hinv Hnd (fun _ _ => eq_refl) Hw) as (_ & _ & Hc).
Qed.

(** ** Premultiplied sources *)

(** X25. [optimizeRGBA] works on a copy of the source drawn at the origin:
    the copy has the pixels of the source, converted one by one, in the same
    order, so the colours counted are the distinct converted pixel values,
    and the "gray" candidate is made exactly when every converted pixel is
    fully opaque with equal colour channels. *)
Theorem rgba_source_redrawn_at_origin (v : raster RGBA) (vs : variantsList) :
  candidates (ImgRGBA v) = Ok vs ->
  scan (rgba2nrgba v) = unpremultiply <$> scan v
  /\ (countNRGBAColors (rgba2nrgba v)).1.1.1
     = Z.of_nat (size (list_to_set (unpremultiply <$> scan v) : gset NRGBA))
  /\ ((exists b, (b, "gray"%string) ∈ vs)
      <-> forall c, c ∈ scan v ->
            cR (unpremultiply c) = cG (unpremultiply c)
            /\ cR (unpremultiply c) = cB (unpremultiply c)
            /\ cA (unpremultiply c) = xff).
Proof.
  intros Hvs. simpl in Hvs.
  assert (scan (rgba2nrgba v) = unpremultiply <$> scan v) as Hscan
    by apply scan_origin.
  split_and!; [done| |].
  - destruct (countNRGBAColors_flags (rgba2nrgba v)) as (-> & _).
    by rewrite Hscan.
  - pose proof (grayTest_spec (rgba2nrgba v)) as Htest.
    rewrite Hscan in Htest.
    assert ((exists b, (b, "gray"%string) ∈ vs)
            <-> (countNRGBAColors (rgba2nrgba v)).2
                && negb ((countNRGBAColors (rgba2nrgba v)).1.1.2
                         || (countNRGBAColors (rgba2nrgba v)).1.2) = true) as ->.
    { revert Hvs. unfold variantsNRGBA, asPaletted.
      destruct (countNRGBAColors (rgba2nrgba v)) as [[[n ht] hp] g]. cbn [fst snd].
      destruct (encode (ImgNRGBA _)) as [msg|b0]; run; [done|].
      destruct (g && negb (ht || hp)); run.
      - destruct (encode (ImgGray _)) as [?|b1]; run; [done|].
        intros Hvs. split; [done|]. intros _. exists b1.
        revert Hvs. destruct (n <=? 256); run.
        + destruct (encode (ImgPaletted _)) as [?|b2]; run; [done|].
          intros [= <-]. apply list_elem_of_further, list_elem_of_here.
        + intros [= <-]. apply list_elem_of_further, list_elem_of_here.
      - intros Hvs. split; [|done]. intros [b Hb]. exfalso.
        revert Hvs Hb. destruct (n <=? 256); run.
        + destruct (encode (ImgPaletted _)) as [?|b2]; run; [done|].
          intros [= <-] Hb.
          repeat (apply elem_of_cons in Hb as [Hb|Hb]; [congruence|]).
          by apply elem_of_nil in Hb.
        + intros [= <-] Hb.
          repeat (apply elem_of_cons in Hb as [Hb|Hb]; [congruence|]).
          by apply elem_of_nil in Hb. }
    rewrite Htest. split.
    + intros H c Hc. apply H. by apply list_elem_of_fmap_2.
    + intros H c' (c & -> & Hc)%list_elem_of_fmap. by apply H.
Qed.

(** ** The order of a small palette of one category *)

Lemma Less_same_category (l : list NRGBA) (ci cj : NRGBA) :
  category ci = category cj ->
  nrgbaPaletteSorter_Less (frequencies l) ci cj
  = negb (freq (frequencies l) ci =? freq (frequencies l) cj).
Proof.
  intros Hcat.
  rewrite <- (usub_pos _ _ (frequencies_in_range l ci) (frequencies_in_range l cj)).
  revert Hcat. unfold nrgbaPaletteSorter_Less, category, MaxUint8.
  pose proof (u8_range (cA ci)). pose proof (u8_range (cA cj)).
  repeat match goal with
         | |- context [Z.eqb ?a ?b] => destruct (Z.eqb_spec a b)
         | |- context [Z.ltb (u8 ?a) ?b] => destruct (Z.ltb_spec (u8 a) b)
         end; simpl; try done; try lia.
Qed.

(** X28. For a truecolor image of at most 12 colours that are all of one
    category (all opaque, say), the order of the palette of
    [paletteFromNRGBA] is fixed by the order in which the map yields its
    keys, not by the counts: with pairwise different counts the palette is
    the enumeration reversed, with equal counts it is the enumeration
    itself. *)
Theorem small_palette_follows_enumeration (img : raster NRGBA) (hint : Z) :
  enumerates rangeNRGBA ->
  (countNRGBAColors img).1.1.1 <= 12 ->
  (forall a b, a ∈ scan img -> b ∈ scan img -> category a = category b) ->
  ((forall a b, a ∈ scan img -> b ∈ scan img -> a ≠ b ->
      freq (frequencies (scan img)) a ≠ freq (frequencies (scan img)) b) ->
   paletteFromNRGBA img hint
   = ColNRGBA <$> reverse (rangeNRGBA (frequencies (scan img))))
  /\ ((forall a b, a ∈ scan img -> b ∈ scan img ->
         freq (frequencies (scan img)) a = freq (frequencies (scan img)) b) ->
      paletteFromNRGBA img hint
      = ColNRGBA <$> rangeNRGBA (frequencies (scan img))).
Proof.
  intros Hrange Hsmall Hcat.
  assert ((length (rangeNRGBA (frequencies (scan img))) <=? GoSort.maxInsertion)%nat
          = true) as Hshort.
  { apply Nat.leb_le. rewrite (rawPalette_length Hrange).
    unfold countNRGBAColors in Hsmall. cbn [fst] in Hsmall.
    unfold GoSort.maxInsertion. lia. }
  unfold paletteFromNRGBA, GoSort.Sort. rewrite Hshort. split.
  - intros Hdiff. f_equal.
    apply insertionSort_all_true; [by apply rawPalette_NoDup|].
    intros x y Hx Hy Hxy.
    apply (rawPalette_elem Hrange) in Hx. apply (rawPalette_elem Hrange) in Hy.
    rewrite Less_same_category by (by apply Hcat).
    apply negb_true_iff, Z.eqb_neq. by apply Hdiff.
  - intros Hsame. f_equal. apply insertionSort_all_false.
    intros x y Hx Hy.
    apply (rawPalette_elem Hrange) in Hx. apply (rawPalette_elem Hrange) in Hy.
    rewrite Less_same_category by (by apply Hcat).
    apply negb_false_iff, Z.eqb_eq. by apply Hsame.
Qed.

(** ** A gray image without pixels *)

(** X29. On a gray image with empty bounds [countGrayColors] returns 0 and
    the palette of [paletteFromGray] is empty, so the test [nColors <= 256]
    passes and the image over the empty palette is the one [optimizeGray]
    would go on to encode. It gets no further than the direct encoding:
    [png.Encoder.Encode] refuses an image without pixels, so the generator
    returns "error encode src". *)
Theorem empty_gray_image_variants (src : raster byte) :
  enumerates rangeGray ->
  MaxX (Bounds src) <= MinX (Bounds src)
  \/ MaxY (Bounds src) <= MinY (Bounds src) ->
  countGrayColors src = 0
  /\ paletteFromGray src 0 = []
  /\ attempted (ImgGray src)
     = [("error encode paletted"%string, ImgPaletted (toPaletted ColGray src []))]
  /\ (refusesEmpty encode ->
      exists msg,
        encode (ImgGray src) = inl msg
        /\ variantsGray src = Err (Wrapped "error encode src" (External msg))
        /\ optimizeGray src = Err (Wrapped "error encode src" (External msg))).
Proof.
  intros Hrange Hempty.
  pose proof (scan_empty src Hempty) as Hscan.
  assert (countGrayColors src = 0) as Hcount.
  { rewrite countGrayColors_size, Hscan. by rewrite list_to_set_nil, size_empty. }
  assert (paletteFromGray src 0 = []) as Hpal.
  { unfold paletteFromGray. rewrite Hscan.
    assert (rangeGray (frequencies []) = []) as ->; [|done].
    apply Permutation_nil_r. rewrite (Hrange _).
    unfold frequencies. simpl. by rewrite map_to_list_empty. }
  split_and!; [done|done| |].
  - cbn [attempted]. rewrite Hcount. change (0 <=? 256) with true.
    cbn iota. by rewrite Hpal.
  - intros Hrefuses.
    destruct (Hrefuses (ImgGray src)) as [msg Hmsg].
    { unfold Dx, Dy. cbn [imageBounds]. lia. }
    exists msg. split; [done|].
    assert (variantsGray src = Err (Wrapped "error encode src" (External msg)))
      as Hvariants.
    { unfold variantsGray. rewrite Hmsg. by run. }
    split; [done|]. unfold optimizeGray. rewrite Hvariants. by run.
Qed.

(** ** The extension, in any letter case *)

Lemma lowerASCII_inv (a b : byte) :
  lowerASCII a = b -> a = b \/ u8 a + 32 = u8 b.
Proof.
  intros <-. unfold lowerASCII. destruct (isUpperASCII a) eqn:Hup; [|by left].
  right. by destruct a.
Qed.

(** The strings that [strings.ToLower] takes to ["png"] by shifting
    letters. *)
Lemma png_casings (e : string) :
  lowerASCII <$> String.list_byte_of_string e = String.list_byte_of_string extPNG ->
  e ∈ ["png"; "pnG"; "pNg"; "pNG"; "Png"; "PnG"; "PNg"; "PNG"]%string.
Proof.
  intros He. rewrite <- (String.string_of_list_byte_of_string e).
  destruct (String.list_byte_of_string e) as [|a [|b [|c [|d l]]]];
    try discriminate He.
  injection He as Ha Hb Hc.
  assert (a = x70 \/ a = x50) as Ha'.
  { apply lowerASCII_inv in Ha as [->|Ha]; [by left|right].
    apply u8_inj. change (u8 x50) with 80. change (u8 x70) with 112 in Ha. lia. }
  assert (b = x6e \/ b = x4e) as Hb'.
  { apply lowerASCII_inv in Hb as [->|Hb]; [by left|right].
    apply u8_inj. change (u8 x4e) with 78. change (u8 x6e) with 110 in Hb. lia. }
  assert (c = x67 \/ c = x47) as Hc'.
  { apply lowerASCII_inv in Hc as [->|Hc]; [by left|right].
    apply u8_inj. change (u8 x47) with 71. change (u8 x67) with 103 in Hc. lia. }
  destruct Ha' as [-> | ->], Hb' as [-> | ->], Hc' as [-> | ->];
    apply (bool_decide_unpack _); vm_compute; exact I.
Qed.

(** X30. A regular file whose name ends in [".png"], in any letter case, is
    handed to the PNG optimizer, on Unix and on Windows alike: when
    [filepath.Rel] succeeds, [walkerFn] runs [Optimize] on it, returns its
    error if there is one, and otherwise adds the saved bytes to [stats.n]
    and one to [stats.c] when they are not zero. *)
Theorem walkerFn_png_any_case (goos : GOOS) (os : string -> io)
    (ao : AssetsOptimizer) (fs : FS) (base e : string) (info : FileInfo) :
  lowerASCII <$> String.list_byte_of_string e = String.list_byte_of_string extPNG ->
  IsRegular info = true ->
  (exists rel, filepath_Rel (dir ao) (base +:+ "." +:+ e) = inr rel) ->
  walkerFn goos os ao fs (base +:+ "." +:+ e) info None
  = match Optimize (os (base +:+ "." +:+ e)) fs (base +:+ "." +:+ e) with
    | (fs', Err err) => (fs', ao, Err err)
    | (fs', Ok n) =>
        if 0 <? n then
          (fs',
           mkAssetsOptimizer (dir ao)
             (Stats.mk (U64.add (Stats.n (stats ao)) n)
                       (U64.add (Stats.c (stats ao)) 1)),
           Ok tt)
        else (fs', ao, Ok tt)
    end.
Proof.
  intros He Hreg [rel Hrel].
  assert (String.eqb (filepath_Ext goos (base +:+ "." +:+ e)) "" = false
          /\ ToLower unicodeLower (dropDot (filepath_Ext goos (base +:+ "." +:+ e)))
             = extPNG) as [Hext Hlow].
  { apply png_casings in He.
    unfold filepath_Ext. rewrite list_byte_of_string_app, reverse_app.
    repeat (apply elem_of_cons in He as [->|He];
            [split; [by destruct goos|destruct goos; by vm_compute]|]).
    by apply elem_of_nil in He. }
  unfold walkerFn. rewrite Hreg. cbn [negb]. rewrite Hext, Hlow.
  assert (assetsRegistry !! extPNG = Some pngOptimizer) as ->
    by (by apply assetsRegistry_lookup).
  by rewrite Hrel.
Qed.

End Engine.

(** * The indexed image against its source, with [draw.Draw] written out *)

Lemma square_16bit (d : Z) :
  -65535 <= d <= 65535 -> 0 <= d * d < 4294967296.
Proof. intros H. nia. Qed.

(** [sqDiff] on 16-bit channels is the square of the difference, shifted. *)
Lemma sqDiff_spec (x y : Z) :
  0 <= x <= 65535 -> 0 <= y <= 65535 -> sqDiff x y = (x - y) * (x - y) / 4.
Proof.
  intros Hx Hy. unfold sqDiff, uint32.
  rewrite Z.shiftr_div_pow2 by lia. change (2 ^ 2) with 4. f_equal.
  rewrite Z.mul_mod_idemp_l, Z.mul_mod_idemp_r by lia.
  apply Z.mod_small. change (2 ^ 32) with 4294967296.
  apply square_16bit. lia.
Qed.

Lemma sqDiff_range (x y : Z) :
  0 <= x <= 65535 -> 0 <= y <= 65535 -> 0 <= sqDiff x y < 2 ^ 30.
Proof.
  intros Hx Hy. rewrite sqDiff_spec by done.
  assert (0 <= (x - y) * (x - y) < 4294967296) as Hsq
    by (apply square_16bit; lia).
  change (2 ^ 30) with 1073741824.
  split; [apply Z.div_pos; lia|].
  apply Z.div_lt_upper_bound; lia.
Qed.

Lemma sqDiff_zero (x y : Z) :
  0 <= x <= 65535 -> 0 <= y <= 65535 ->
  sqDiff x y = 0 <-> Z.abs (x - y) <= 1.
Proof.
  intros Hx Hy. rewrite sqDiff_spec by done.
  assert (0 <= (x - y) * (x - y) < 4294967296) as Hsq
    by (apply square_16bit; lia).
  remember (x - y) as d eqn:Hd. clear Hd Hx Hy x y.
  split.
  - intros H0. apply Z.div_small_iff in H0; [|lia]. nia.
  - intros Habs. apply Z.div_small.
    assert (d = -1 \/ d = 0 \/ d = 1) as [->|[->| ->]] by lia; lia.
Qed.

Lemma Color_RGBA_16bit (c : Color) : is16 (Color_RGBA c).
Proof.
  destruct c as [c|c|v]; cbn [Color_RGBA is16]; rewrite ?widen_257.
  - pose proof (u8_range (cR c)). pose proof (u8_range (cG c)).
    pose proof (u8_range (cB c)). pose proof (u8_range (cA c)).
    assert (forall v, 0 <= v <= 255 -> 0 <= 257 * v * u8 (cA c) / 255 <= 65535) as Hch.
    { intros v Hv. split; [apply Z.div_pos; nia|].
      apply Z.div_le_upper_bound; nia. }
    split_and!; try apply Hch; lia.
  - pose proof (u8_range (pR c)). pose proof (u8_range (pG c)).
    pose proof (u8_range (pB c)). pose proof (u8_range (pA c)). lia.
  - pose proof (u8_range v). lia.
Qed.

(** The sum is 0 exactly when the four channels are at most one apart. *)
Lemma sumSqDiff_zero (e p : Z * Z * Z * Z) :
  is16 e -> is16 p -> sumSqDiff e p = 0 <-> closeRGBA e p.
Proof.
  destruct e as [[[er eg] eb] ea], p as [[[pr pg] pb] pa].
  cbn [is16 sumSqDiff closeRGBA].
  intros (Hr & Hg & Hb & Ha) (Hr' & Hg' & Hb' & Ha').
  pose proof (sqDiff_range er pr Hr Hr') as Br.
  pose proof (sqDiff_range eg pg Hg Hg') as Bg.
  pose proof (sqDiff_range eb pb Hb Hb') as Bb.
  pose proof (sqDiff_range ea pa Ha Ha') as Ba.
  rewrite <- (sqDiff_zero er pr), <- (sqDiff_zero eg pg),
    <- (sqDiff_zero eb pb), <- (sqDiff_zero ea pa) by done.
  change (2 ^ 30) with 1073741824 in *.
  unfold uint32. rewrite Z.mod_small by (change (2 ^ 32) with 4294967296; lia).
  lia.
Qed.

Lemma sumSqDiff_nonneg (e p : Z * Z * Z * Z) : 0 <= sumSqDiff e p.
Proof.
  destruct e as [[[er eg] eb] ea], p as [[[pr pg] pb] pa].
  cbn [sumSqDiff]. unfold uint32. apply Z.mod_pos_bound. lia.
Qed.

(** The search stops at the first palette entry whose sum is 0, when there
    is one. *)
Lemma closest_first_zero (palette : list (Z * Z * Z * Z)) (e : Z * Z * Z * Z) :
  forall (index bestIndex : nat) (bestSum : Z),
    0 < bestSum ->
    (exists p, p ∈ palette /\ sumSqDiff e p = 0) ->
    exists (k : nat) (p : Z * Z * Z * Z),
      closest palette e index bestIndex bestSum = (index + k)%nat
      /\ palette !! k = Some p
      /\ sumSqDiff e p = 0
      /\ forall j q, (j < k)%nat -> palette !! j = Some q -> sumSqDiff e q ≠ 0.
Proof.
  induction palette as [|p palette IH]; intros index bestIndex bestSum Hpos Hex.
  { destruct Hex as (p & Hp & _). by apply elem_of_nil in Hp. }
  cbn [closest].
  destruct (Z.eqb_spec (sumSqDiff e p) 0) as [Hz|Hnz].
  - rewrite Hz. destruct (Z.ltb_spec 0 bestSum) as [_|]; [|lia].
    exists 0%nat, p. split_and!; [lia|done|done|]. intros j q Hj. lia.
  - assert (exists q, q ∈ palette /\ sumSqDiff e q = 0) as Hex'.
    { destruct Hex as (q & Hq & Hzero). exists q. split; [|done].
      apply elem_of_cons in Hq as [->|Hq]; [done|done]. }
    pose proof (sumSqDiff_nonneg e p) as Hnn.
    assert (exists bi bs, 0 < bs
              /\ (if sumSqDiff e p <? bestSum
                  then closest palette e (S index) index (sumSqDiff e p)
                  else closest palette e (S index) bestIndex bestSum)
                 = closest palette e (S index) bi bs) as (bi & bs & Hbs & ->).
    { destruct (sumSqDiff e p <? bestSum).
      - exists index, (sumSqDiff e p). split; [lia|done].
      - by exists bestIndex, bestSum. }
    destruct (IH (S index) bi bs Hbs Hex') as (k & q & Hk & Hq & Hzero & Hfirst).
    exists (S k), q. split_and!; [lia|done|done|].
    intros [|j] q' Hj Hq'.
    + cbn in Hq'. by injection Hq' as <-.
    + cbn in Hq'. apply (Hfirst j q'); [lia|done].
Qed.

(** [byte(bestIndex)] keeps an index below 256. *)
Lemma colorIndex_byte (k : nat) :
  (k < 256)%nat -> colorIndex (byte_of_Z (Z.of_nat k)) = k.
Proof.
  intros Hk. unfold colorIndex, byte_of_Z.
  rewrite Z.mod_small by lia.
  destruct (Byte.of_N (Z.to_N (Z.of_nat k))) as [b|] eqn:Hb.
  - simpl. apply Byte.to_of_N in Hb. rewrite Hb. lia.
  - apply Byte.of_N_None_iff in Hb. lia.
Qed.

Lemma closeRGBA_refl (e : Z * Z * Z * Z) : closeRGBA e e.
Proof.
  destruct e as [[[er eg] eb] ea]. cbn [closeRGBA].
  rewrite !Z.sub_diag. cbn. lia.
Qed.

(** On a palette of at most 256 entries that holds a colour, [draw.Draw]
    stores for this colour the index of the first entry whose [RGBA()]
    value is at most one away from the colour's in every channel. *)
Lemma drawIndex_first_close (palette : list Color) (c : Color) :
  (length palette <= 256)%nat ->
  c ∈ palette ->
  exists e,
    palette !! colorIndex (drawIndex palette c) = Some e
    /\ closeRGBA (Color_RGBA c) (Color_RGBA e)
    /\ forall j q, (j < colorIndex (drawIndex palette c))%nat ->
         palette !! j = Some q ->
         ~ closeRGBA (Color_RGBA c) (Color_RGBA q).
Proof.
  intros Hlen Hc. unfold drawIndex.
  destruct (closest_first_zero (Color_RGBA <$> palette) (Color_RGBA c)
              0 0 (2 ^ 32 - 1)) as (k & p & Hk & Hp & Hzero & Hfirst).
  { reflexivity. }
  { exists (Color_RGBA c). split; [by apply list_elem_of_fmap_2|].
    apply sumSqDiff_zero; [apply Color_RGBA_16bit..|apply closeRGBA_refl]. }
  rewrite Hk. cbn [Nat.add].
  rewrite list_lookup_fmap in Hp.
  destruct (palette !! k) as [e|] eqn:He; [|done].
  injection Hp as <-.
  assert (k < 256)%nat as Hk256.
  { apply lookup_lt_Some in He. lia. }
  rewrite colorIndex_byte by done.
  exists e. split_and!; [done| |].
  - by apply sumSqDiff_zero in Hzero; [|apply Color_RGBA_16bit..].
  - intros j q Hj Hq Hclose. apply (Hfirst j (Color_RGBA q) Hj).
    + by rewrite list_lookup_fmap, Hq.
    + apply sumSqDiff_zero; [apply Color_RGBA_16bit..|done].
Qed.

(** Two gray levels whose [RGBA()] values are one apart are the same. *)
Lemma closeRGBA_gray (a b : byte) :
  closeRGBA (Color_RGBA (ColGray a)) (Color_RGBA (ColGray b)) -> a = b.
Proof.
  cbn [Color_RGBA closeRGBA]. rewrite !widen_257. intros (H & _).
  apply u8_inj. lia.
Qed.

Lemma premultiplied_apart (v w a : Z) :
  0 <= v -> v < w -> 2 <= a -> 257 * v * a / 255 + 2 <= 257 * w * a / 255.
Proof.
  intros Hv Hvw Ha.
  pose proof (Z.div_mod (257 * v * a) 255 ltac:(lia)) as H1.
  pose proof (Z.mod_pos_bound (257 * v * a) 255 ltac:(lia)) as H2.
  pose proof (Z.div_mod (257 * w * a) 255 ltac:(lia)) as H3.
  pose proof (Z.mod_pos_bound (257 * w * a) 255 ltac:(lia)) as H4.
  assert (v * a + a <= w * a) as Hva by nia.
  lia.
Qed.

Lemma premultiplied_inj (v w a : byte) :
  2 <= u8 a ->
  Z.abs (widen v * u8 a / 255 - widen w * u8 a / 255) <= 1 -> v = w.
Proof.
  intros Ha. rewrite !widen_257. intros Hclose. apply u8_inj.
  pose proof (u8_range v) as Hv. pose proof (u8_range w) as Hw.
  destruct (Z.lt_trichotomy (u8 v) (u8 w)) as [Hlt|[Heq|Hgt]]; [|done|].
  - pose proof (premultiplied_apart (u8 v) (u8 w) (u8 a) ltac:(lia) Hlt Ha). lia.
  - pose proof (premultiplied_apart (u8 w) (u8 v) (u8 a) ltac:(lia) Hgt Ha). lia.
Qed.

(** Two [NRGBA] colours whose [RGBA()] values are one apart have the same
    alpha; they are the same colour unless this alpha is 0 or 1. *)
Lemma closeRGBA_nrgba (c e : NRGBA) :
  closeRGBA (Color_RGBA (ColNRGBA c)) (Color_RGBA (ColNRGBA e)) ->
  cA e = cA c /\ (2 <= u8 (cA c) -> e = c).
Proof.
  cbn [Color_RGBA closeRGBA]. intros (Hr & Hg & Hb & Ha).
  assert (cA e = cA c) as Halpha.
  { rewrite !widen_257 in Ha. apply u8_inj. lia. }
  split; [done|]. intros Hvisible.
  rewrite Halpha in Hr, Hg, Hb.
  apply premultiplied_inj in Hr; [|done].
  apply premultiplied_inj in Hg; [|done].
  apply premultiplied_inj in Hb; [|done].
  destruct c, e. cbn in *. by subst.
Qed.

(** The image drawn by [asPaletted], pixel by pixel. *)
Lemma toPaletted_drawn {C} (toColor : C -> Color) (src : raster C)
    (palette : list Color) (x y : Z) :
  inRect (Bounds src) x y = true ->
  inRect (Bounds (Pix (toPaletted drawIndex toColor src palette)))
         (x - MinX (Bounds src)) (y - MinY (Bounds src)) = true
  /\ At (Pix (toPaletted drawIndex toColor src palette))
        (x - MinX (Bounds src)) (y - MinY (Bounds src))
     = drawIndex palette (toColor (At src x y)).
Proof.
  intros Hin. unfold toPaletted. cbn [Pix Palette Bounds At].
  split; [by apply inRect_origin|].
  rewrite (inRect_origin _ _ _ Hin).
  replace (MinX (Bounds src) + (x - MinX (Bounds src))) with x by lia.
  by replace (MinY (Bounds src) + (y - MinY (Bounds src))) with y by lia.
Qed.

(** X27. The "paletted" variant of a gray image is lossless: in the image
    [asPaletted] draws over the palette of [paletteFromGray], with the
    search of [draw.Draw] for the closest entry written out, the index
    stored for a sample inside the bounds is that of the palette entry
    holding exactly the gray level of the source at the same place. *)
Theorem indexed_gray_lossless (rangeGray : gmap byte Z -> list byte)
    (pdqsort : forall A : Type, (A -> A -> bool) -> list A -> list A)
    (src : raster byte) (hint : Z) :
  enumerates rangeGray ->
  rearranges pdqsort ->
  forall x y, inRect (Bounds src) x y = true ->
    inRect (Bounds (Pix (toPaletted drawIndex ColGray src
                           (paletteFromGray rangeGray pdqsort src hint))))
           (x - MinX (Bounds src)) (y - MinY (Bounds src)) = true
    /\ Palette (toPaletted drawIndex ColGray src
                  (paletteFromGray rangeGray pdqsort src hint))
         !! colorIndex (At (Pix (toPaletted drawIndex ColGray src
                                   (paletteFromGray rangeGray pdqsort src hint)))
                           (x - MinX (Bounds src)) (y - MinY (Bounds src)))
       = Some (ColGray (At src x y)).
Proof.
  intros Hrange Hsort x y Hin.
  destruct (toPaletted_drawn ColGray src
              (paletteFromGray rangeGray pdqsort src hint) x y Hin) as [Hb ->].
  split; [done|].
  change (Palette (toPaletted drawIndex ColGray src
                     (paletteFromGray rangeGray pdqsort src hint)))
    with (paletteFromGray rangeGray pdqsort src hint).
  pose proof (paletteFromGray_perm rangeGray pdqsort src hint Hsort) as Hperm.
  destruct (drawIndex_first_close (paletteFromGray rangeGray pdqsort src hint)
              (ColGray (At src x y))) as (e & He & Hclose & _).
  - rewrite (Permutation_length Hperm), length_fmap.
    rewrite (Permutation_length (Hrange _)), keys_length, frequencies_dom.
    apply byte_set_size.
  - rewrite Hperm. apply list_elem_of_fmap_2.
    rewrite (Hrange _), keys_elem, frequencies_dom.
    apply elem_of_list_to_set. by apply scan_elem.
  - rewrite He. f_equal.
    assert (e ∈ ColGray <$> rangeGray (frequencies (scan src))) as Hmem.
    { rewrite <- Hperm. by apply list_elem_of_lookup_2 in He. }
    apply list_elem_of_fmap in Hmem as (v & -> & _).
    f_equal. symmetry. by apply closeRGBA_gray.
Qed.

(** X26. The "paletted" variant of a truecolor image of at most 256 colours,
    with the search of [draw.Draw] written out: the index stored for a pixel
    inside the bounds is that of the first palette entry whose [RGBA()]
    value is at most one away from the pixel's in every channel. This entry
    is a colour of the source with the alpha of the pixel, and it is the
    colour of the pixel itself unless the alpha is 0 or 1. *)
Theorem indexed_truecolor_faithful (rangeNRGBA : gmap NRGBA Z -> list NRGBA)
    (pdqsort : forall A : Type, (A -> A -> bool) -> list A -> list A)
    (src : raster NRGBA) (hint : Z) :
  enumerates rangeNRGBA ->
  rearranges pdqsort ->
  (countNRGBAColors src).1.1.1 <= 256 ->
  forall x y, inRect (Bounds src) x y = true ->
    let drawn := toPaletted drawIndex ColNRGBA src
                   (paletteFromNRGBA rangeNRGBA pdqsort src hint) in
    let k := colorIndex (At (Pix drawn) (x - MinX (Bounds src))
                                        (y - MinY (Bounds src))) in
    inRect (Bounds (Pix drawn)) (x - MinX (Bounds src)) (y - MinY (Bounds src))
    = true
    /\ exists e : NRGBA,
         Palette drawn !! k = Some (ColNRGBA e)
         /\ e ∈ scan src
         /\ cA e = cA (At src x y)
         /\ closeRGBA (Color_RGBA (ColNRGBA (At src x y)))
                      (Color_RGBA (ColNRGBA e))
         /\ (2 <= u8 (cA (At src x y)) -> e = At src x y)
         /\ forall j q, (j < k)%nat -> Palette drawn !! j = Some q ->
              ~ closeRGBA (Color_RGBA (ColNRGBA (At src x y))) (Color_RGBA q).
Proof.
  intros Hrange Hsort Hcount x y Hin drawn k. unfold k, drawn.
  destruct (toPaletted_drawn ColNRGBA src
              (paletteFromNRGBA rangeNRGBA pdqsort src hint) x y Hin) as [Hb ->].
  split; [done|].
  change (Palette (toPaletted drawIndex ColNRGBA src
                     (paletteFromNRGBA rangeNRGBA pdqsort src hint)))
    with (paletteFromNRGBA rangeNRGBA pdqsort src hint).
  pose proof (paletteFromNRGBA_perm rangeNRGBA pdqsort src hint Hsort) as Hperm.
  destruct (drawIndex_first_close (paletteFromNRGBA rangeNRGBA pdqsort src hint)
              (ColNRGBA (At src x y))) as (e & He & Hclose & Hfirst).
  - rewrite (Permutation_length Hperm), length_fmap, (rawPalette_length _ Hrange).
    unfold countNRGBAColors in Hcount. cbn [fst] in Hcount. lia.
  - rewrite Hperm. apply list_elem_of_fmap_2.
    apply (rawPalette_elem _ Hrange). by apply scan_elem.
  - assert (e ∈ ColNRGBA <$> rangeNRGBA (frequencies (scan src))) as Hmem.
    { rewrite <- Hperm. by apply list_elem_of_lookup_2 in He. }
    apply list_elem_of_fmap in Hmem as (c & -> & Hc).
    apply (rawPalette_elem _ Hrange) in Hc.
    destruct (closeRGBA_nrgba _ _ Hclose) as [Halpha Hexact].
    exists c. by split_and!.
Qed.

(** * The properties on concrete inputs *)

Lemma rangeKeys_enumerates `{Countable K} : enumerates (Ex.rangeKeys (K := K)).
Proof. intros m. reflexivity. Qed.

Lemma rangeRev_enumerates `{Countable K} : enumerates (Ex.rangeRev (K := K)).
Proof. intros m. apply reverse_Permutation. Qed.

Lemma longSort_rearranges : rearranges Ex.longSort.
Proof. intros A less l. apply heapSort_Permutation. Qed.

Lemma longSort_runsPdqsort : runsPdqsort Ex.longSort.
Proof. intros A less l. apply GoSort.pdq_heap. Qed.

Lemma Ex_encode_total (j : Image) : exists b, Ex.encode j = inr b.
Proof. destruct j; simpl; eauto. Qed.

(** C1, on the code. The gray image with samples 20, 20, 10 has 20 twice and
    10 once; when the map yields 20 before 10, [paletteFromGray] returns 10
    before 20, the rarer level first. The same happens in
    [paletteFromNRGBA] with two opaque colours: red (twice) enumerated before
    blue (once) gives blue before red. In both builders the comparison
    [colors[a]-colors[b] > 0] is made on [uint], so it holds in both
    directions whenever the counts differ. *)
Theorem rarer_color_first_on_uint_comparison :
  (Ex.rangeRev (frequencies (scan Ex.gray3)) = [x14; x0a]
   /\ freq (frequencies (scan Ex.gray3)) x14 = 2
   /\ freq (frequencies (scan Ex.gray3)) x0a = 1
   /\ grayLess (frequencies (scan Ex.gray3)) x0a x14 = true
   /\ grayLess (frequencies (scan Ex.gray3)) x14 x0a = true
   /\ forall pdq,
        paletteFromGray Ex.rangeRev pdq Ex.gray3 2 = [ColGray x0a; ColGray x14])
  /\ (Ex.rangeRev (frequencies (scan Ex.opaque3)) = [Ex.red; Ex.blue]
      /\ freq (frequencies (scan Ex.opaque3)) Ex.red = 2
      /\ freq (frequencies (scan Ex.opaque3)) Ex.blue = 1
      /\ nrgbaPaletteSorter_Less (frequencies (scan Ex.opaque3)) Ex.blue Ex.red = true
      /\ nrgbaPaletteSorter_Less (frequencies (scan Ex.opaque3)) Ex.red Ex.blue = true
      /\ forall pdq,
           paletteFromNRGBA Ex.rangeRev pdq Ex.opaque3 2
           = [ColNRGBA Ex.blue; ColNRGBA Ex.red]).
Proof.
  split; split_and!; try (vm_compute; reflexivity); intros pdq; vm_compute; reflexivity.
Qed.

(** Witness of C2: a three-byte file whose selected variant has two bytes. *)
Lemma Optimize_replaces_iff_smaller_witness :
  (Ex.file3 !! "a.png"%string = Some [x0a; x0b; x0c]
   /\ Ex.decode [x0a; x0b; x0c] = inr (ImgGray16 Ex.gray16))
  /\ (Optimize Ex.decode Ex.encode Ex.unpremultiply Ex.paletteIndex
        Ex.rangeKeys Ex.rangeKeys Ex.longSort Ex.ioOk Ex.file3 "a.png").2 = Ok 1
  /\ (Optimize Ex.decode Ex.encode Ex.unpremultiply Ex.paletteIndex
        Ex.rangeKeys Ex.rangeKeys Ex.longSort Ex.ioOk Ex.file3 "a.png").1
       !! "a.png"%string = Some [x01; x02].
Proof.
  split; [split; reflexivity|].
  apply (Optimize_replaces_iff_smaller Ex.decode Ex.encode Ex.unpremultiply
           Ex.paletteIndex Ex.rangeKeys Ex.rangeKeys Ex.longSort Ex.ioOk
           Ex.file3 "a.png" [x0a; x0b; x0c] (ImgGray16 Ex.gray16) [x01; x02] "");
    try reflexivity; simpl; lia.
Defined.

(** The no-op side of the commit policy: a two-byte file whose selected
    variant also has two bytes is left alone. *)
Example Optimize_noop_example :
  Optimize Ex.decode Ex.encode Ex.unpremultiply Ex.paletteIndex
    Ex.rangeKeys Ex.rangeKeys Ex.longSort Ex.ioOk Ex.file2 "a.png"
  = (Ex.file2, Ok 0).
Proof. reflexivity. Qed.

(** A failing rename: the error is returned, the original still holds its
    three bytes (and the temporary file holds the new ones). *)
Example rename_failure_example :
  (Optimize Ex.decode Ex.encode Ex.unpremultiply Ex.paletteIndex
     Ex.rangeKeys Ex.rangeKeys Ex.longSort Ex.ioRenameFails Ex.file3 "a.png").2
  = Err (External "rename")
  /\ (Optimize Ex.decode Ex.encode Ex.unpremultiply Ex.paletteIndex
        Ex.rangeKeys Ex.rangeKeys Ex.longSort Ex.ioRenameFails Ex.file3 "a.png").1
       !! "a.png"%string = Some [x0a; x0b; x0c]
  /\ (Optimize Ex.decode Ex.encode Ex.unpremultiply Ex.paletteIndex
        Ex.rangeKeys Ex.rangeKeys Ex.longSort Ex.ioRenameFails Ex.file3 "a.png").1
       !! "a.png.pngtmp"%string = Some [x01; x02].
Proof. split_and!; vm_compute; reflexivity. Qed.

(** Counterexample to C4 as stated: with two fully transparent colours in
    the image, one of them is in the palette but not at index 0. *)
Lemma second_transparent_color_at_index_1 :
  scan Ex.twoClear = [Ex.red; Ex.clear0; Ex.clear1]
  /\ cA Ex.clear1 = x00
  /\ paletteFromNRGBA Ex.rangeKeys Ex.longSort Ex.twoClear 3
     = [ColNRGBA Ex.clear0; ColNRGBA Ex.clear1; ColNRGBA Ex.red]
  /\ paletteFromNRGBA Ex.rangeKeys Ex.longSort Ex.twoClear 3 !! 0%nat
     ≠ Some (ColNRGBA Ex.clear1).
Proof. split_and!; [reflexivity|reflexivity|vm_compute; reflexivity|vm_compute; discriminate]. Qed.

(** Witness of C4 as amended: one transparent colour among three. *)
Lemma transparent_at_index_0_witness :
  (scan Ex.oneClear = [Ex.red; Ex.blue; Ex.clear0; Ex.red] /\ cA Ex.clear0 = x00)
  /\ exists z : NRGBA,
       paletteFromNRGBA Ex.rangeKeys Ex.longSort Ex.oneClear 3 !! 0%nat
       = Some (ColNRGBA z)
       /\ cA z = x00
       /\ z ∈ scan Ex.oneClear
       /\ ((forall c, c ∈ scan Ex.oneClear -> cA c = x00 -> c = Ex.clear0)
           -> z = Ex.clear0).
Proof.
  split; [split; reflexivity|].
  apply (transparent_at_index_0 Ex.rangeKeys Ex.longSort Ex.oneClear 3 Ex.clear0).
  - apply rangeKeys_enumerates.
  - left. vm_compute. lia.
  - apply (bool_decide_unpack _). vm_compute. exact I.
  - reflexivity.
Defined.

(** Witness of C5. *)
Lemma best_first_smallest_witness :
  exists (i : nat) (chosen : variant),
    best [([x01; x02], "direct"%string); ([x01], "gray"%string);
          ([x02], "paletted"%string)] = Ok chosen
    /\ [([x01; x02], "direct"%string); ([x01], "gray"%string);
        ([x02], "paletted"%string)] !! i = Some chosen
    /\ (forall (j : nat) w,
          [([x01; x02], "direct"%string); ([x01], "gray"%string);
           ([x02], "paletted"%string)] !! j = Some w ->
          (length chosen.1 <= length w.1)%nat)
    /\ (forall (j : nat) w, (j < i)%nat ->
          [([x01; x02], "direct"%string); ([x01], "gray"%string);
           ([x02], "paletted"%string)] !! j = Some w ->
          (length chosen.1 < length w.1)%nat).
Proof.
  apply (best_first_smallest
           [([x01; x02], "direct"%string); ([x01], "gray"%string);
            ([x02], "paletted"%string)]).
  discriminate.
Defined.

(** Counterexample to C7 as stated: a [Gray16] image of a single pixel (one
    colour) has the direct encoding as its only candidate. *)
Lemma gray16_has_only_the_direct_candidate :
  scan Ex.gray16 = [7]
  /\ candidates Ex.encode Ex.unpremultiply Ex.paletteIndex Ex.rangeKeys
       Ex.rangeKeys Ex.longSort (ImgGray16 Ex.gray16)
     = Ok [([x01; x02], ""%string)].
Proof. split; reflexivity. Qed.

(** C6 on three runs: an encoder that accepts every image gives candidates
    headed by the direct variant; one that refuses the image without pixels
    gives "error encode src"; one that refuses the paletted image drawn
    afterwards gives that failure, "error encode paletted". *)
Lemma direct_variant_always_first_witness :
  (exists rest,
     candidates Ex.encode Ex.unpremultiply Ex.paletteIndex Ex.rangeKeys
       Ex.rangeKeys Ex.longSort (ImgNRGBA Ex.opaque3)
     = Ok (([x01; x02; x03], "src (nrgba/rgb)"%string) :: rest))
  /\ candidates Ex.encodeStrict Ex.unpremultiply Ex.paletteIndex Ex.rangeKeys
       Ex.rangeKeys Ex.longSort (ImgNRGBA Ex.empty)
     = Err (Wrapped "error encode src" (External "invalid image size"))
  /\ candidates Ex.encodeNoPaletted Ex.unpremultiply Ex.paletteIndex Ex.rangeKeys
       Ex.rangeKeys Ex.longSort (ImgGray Ex.gray3)
     = Err (Wrapped "error encode paletted" (External "refused"))
  /\ laterFailure Ex.encodeNoPaletted Ex.unpremultiply Ex.paletteIndex
       Ex.rangeKeys Ex.rangeKeys Ex.longSort (ImgGray Ex.gray3)
       (Wrapped "error encode paletted" (External "refused")).
Proof.
  split_and!.
  - apply (proj1 (proj2 (direct_variant_always_first Ex.encode Ex.unpremultiply
                           Ex.paletteIndex Ex.rangeKeys Ex.rangeKeys Ex.longSort
                           (ImgNRGBA Ex.opaque3)))).
    + reflexivity.
    + intros context j _. exact (Ex_encode_total j).
    + intros v Hv. discriminate Hv.
  - exact (proj1 (direct_variant_always_first Ex.encodeStrict Ex.unpremultiply
                    Ex.paletteIndex Ex.rangeKeys Ex.rangeKeys Ex.longSort
                    (ImgNRGBA Ex.empty))).
  - vm_compute. reflexivity.
  - exact (proj1 (direct_variant_always_first Ex.encodeNoPaletted
                    Ex.unpremultiply Ex.paletteIndex Ex.rangeKeys Ex.rangeKeys
                    Ex.longSort (ImgGray Ex.gray3))).
Defined.

(** Witness of C7 as amended: the gray image with two levels, and an encoder
    that refuses some images but none of those this run gives it. *)
Lemma paletted_variant_present_witness :
  (colorCount Ex.unpremultiply (ImgGray Ex.gray3) = Some 2 /\ 2 <= 256
   /\ Ex.encodeStrict (directImage Ex.unpremultiply (ImgGray Ex.gray3))
      = inr [x01; x02])
  /\ exists (p : Image) (vs : variantsList) (bp : list byte),
       indexedImage Ex.unpremultiply Ex.paletteIndex Ex.rangeKeys Ex.rangeKeys
         Ex.longSort (ImgGray Ex.gray3) = Some p
       /\ ("error encode paletted"%string, p)
            ∈ attempted Ex.unpremultiply Ex.paletteIndex Ex.rangeKeys
                Ex.rangeKeys Ex.longSort (ImgGray Ex.gray3)
       /\ Ex.encodeStrict p = inr bp
       /\ candidates Ex.encodeStrict Ex.unpremultiply Ex.paletteIndex Ex.rangeKeys
            Ex.rangeKeys Ex.longSort (ImgGray Ex.gray3) = Ok vs
       /\ last vs = Some (bp, "paletted"%string).
Proof.
  split; [split_and!; [vm_compute; reflexivity|lia|reflexivity]|].
  apply (proj1 (paletted_variant_present Ex.encodeStrict Ex.unpremultiply
                  Ex.paletteIndex Ex.rangeKeys Ex.rangeKeys Ex.longSort
                  (ImgGray Ex.gray3)) 2 [x01; x02]).
  - vm_compute. reflexivity.
  - lia.
  - reflexivity.
  - intros context j Hin. cbn [attempted] in Hin.
    assert (countGrayColors Ex.gray3 = 2) as Hcount by (vm_compute; reflexivity).
    rewrite Hcount in Hin. change (2 <=? 256) with true in Hin. cbn iota in Hin.
    apply list_elem_of_singleton in Hin. injection Hin as _ ->.
    exists [x01]. reflexivity.
Defined.

(** Counterexample to C8 as stated: the write fails after one byte and the
    temporary file is still there, holding that byte, after [savePNG] and
    after [Optimize]. *)
Lemma temporary_file_left_behind :
  createOk Ex.ioWriteFails = true
  /\ writeFailsAfter Ex.ioWriteFails = Some 1%nat
  /\ (PNGOptimizer_savePNG Ex.ioWriteFails Ex.file3 "a.png" [x01; x02]).2
     = Err (External "write")
  /\ (PNGOptimizer_savePNG Ex.ioWriteFails Ex.file3 "a.png" [x01; x02]).1
       !! "a.png.pngtmp"%string = Some [x01]
  /\ (Optimize Ex.decode Ex.encode Ex.unpremultiply Ex.paletteIndex
        Ex.rangeKeys Ex.rangeKeys Ex.longSort Ex.ioWriteFails Ex.file3 "a.png").2
     = Err (External "write")
  /\ (Optimize Ex.decode Ex.encode Ex.unpremultiply Ex.paletteIndex
        Ex.rangeKeys Ex.rangeKeys Ex.longSort Ex.ioWriteFails Ex.file3 "a.png").1
       !! "a.png.pngtmp"%string = Some [x01]
  /\ Ex.file3 !! "a.png.pngtmp"%string = None.
Proof. split_and!; vm_compute; reflexivity. Qed.

(** Witness of C8 as amended. *)
Lemma failed_write_keeps_temporary_witness :
  (createOk Ex.ioWriteFails = true /\ writeFailsAfter Ex.ioWriteFails = Some 1%nat)
  /\ (PNGOptimizer_savePNG Ex.ioWriteFails Ex.file3 "a.png" [x01; x02]).2
     = Err (External "write")
  /\ (PNGOptimizer_savePNG Ex.ioWriteFails Ex.file3 "a.png" [x01; x02]).1
       !! ("a.png" +:+ ".pngtmp")%string = Some (take 1 [x01; x02])
  /\ forall p, p ≠ ("a.png" +:+ ".pngtmp")%string ->
       (PNGOptimizer_savePNG Ex.ioWriteFails Ex.file3 "a.png" [x01; x02]).1 !! p
       = Ex.file3 !! p.
Proof.
  split; [split; reflexivity|].
  apply (failed_write_keeps_temporary Ex.ioWriteFails Ex.file3 "a.png" [x01; x02] 1);
    reflexivity.
Defined.

(** Witness of C9: the pixels at (1, 0) and (2, 0) of [Ex.twoClear]. *)
Lemma transparent_colors_not_unified_witness :
  (inRect (Bounds Ex.twoClear) 1 0 = true
   /\ inRect (Bounds Ex.twoClear) 2 0 = true
   /\ At Ex.twoClear 1 0 = Ex.clear0
   /\ At Ex.twoClear 2 0 = Ex.clear1)
  /\ (countNRGBAColors Ex.twoClear).1.1.1 = 3
  /\ Z.of_nat (size (set_map unifyTransparent
                       (colorsSeen (countNRGBAStats Ex.twoClear)) : gset NRGBA))
     < (countNRGBAColors Ex.twoClear).1.1.1
  /\ exists i j : nat,
       i ≠ j
       /\ paletteFromNRGBA Ex.rangeKeys Ex.longSort Ex.twoClear 3 !! i
          = Some (ColNRGBA Ex.clear0)
       /\ paletteFromNRGBA Ex.rangeKeys Ex.longSort Ex.twoClear 3 !! j
          = Some (ColNRGBA Ex.clear1).
Proof.
  split; [split_and!; reflexivity|].
  split; [vm_compute; reflexivity|].
  pose proof (transparent_colors_not_unified Ex.rangeKeys Ex.longSort
                Ex.twoClear 1 0 2 0 3) as Hw.
  simpl in Hw.
  destruct Hw as (_ & _ & _ & _ & Hlt & _ & _ & Hij).
  - apply rangeKeys_enumerates.
  - apply longSort_rearranges.
  - reflexivity.
  - reflexivity.
  - reflexivity.
  - reflexivity.
  - discriminate.
  - split; [exact Hlt|exact Hij].
Defined.

(** The count against the limit: an image whose 257 pixels are all fully
    transparent counts 257 colours, so no paletted variant is generated. *)
Example transparent_colors_exceed_limit :
  countNRGBAColors Ex.manyClear = (257, true, false, false)
  /\ size (set_map unifyTransparent (colorsSeen (countNRGBAStats Ex.manyClear))
           : gset NRGBA) = 1%nat
  /\ variantsNRGBA Ex.encode Ex.paletteIndex Ex.rangeKeys Ex.longSort Ex.manyClear
     = Ok [([x01; x02; x03], "src (nrgba/rgb)"%string)].
Proof. split_and!; vm_compute; reflexivity. Qed.

(** The encoder of the examples that refuses an image without pixels. *)
Lemma encodeStrict_refusesEmpty : refusesEmpty Ex.encodeStrict.
Proof.
  intros i Hempty. exists "invalid image size"%string. unfold Ex.encodeStrict.
  destruct (Z.leb_spec (Dx (imageBounds i)) 0) as [|Hx]; [done|].
  destruct (Z.leb_spec (Dy (imageBounds i)) 0) as [|Hy]; [done|]. lia.
Qed.

(** Counterexample to C10 as stated: the classifier and the palette are as
    the claim says, but for the image without pixels the generator returns
    an error in place of three variants, the encoder having refused the
    direct image. *)
Lemma empty_image_generates_no_variant :
  (MaxX (Bounds Ex.empty) <= MinX (Bounds Ex.empty))
  /\ countNRGBAColors Ex.empty = (0, false, false, true)
  /\ Ex.encodeStrict (ImgNRGBA Ex.empty) = inl "invalid image size"%string
  /\ variantsNRGBA Ex.encodeStrict Ex.paletteIndex Ex.rangeKeys Ex.longSort Ex.empty
     = Err (Wrapped "error encode src" (External "invalid image size"))
  /\ optimizeNRGBA Ex.encodeStrict Ex.paletteIndex Ex.rangeKeys Ex.longSort Ex.empty
     = Err (Wrapped "error encode src" (External "invalid image size"))
  /\ ~ exists b0 b1 b2 : list byte,
         variantsNRGBA Ex.encodeStrict Ex.paletteIndex Ex.rangeKeys Ex.longSort
           Ex.empty
         = Ok [(b0, "src (nrgba/rgb)"%string); (b1, "gray"%string);
               (b2, "paletted"%string)].
Proof.
  split_and!; [simpl; lia|vm_compute; reflexivity..|].
  intros (b0 & b1 & b2 & H). vm_compute in H. discriminate.
Qed.

(** Witness of C10 as amended: the image without pixels. *)
Lemma empty_image_variants_witness :
  (MaxX (Bounds Ex.empty) <= MinX (Bounds Ex.empty)
   \/ MaxY (Bounds Ex.empty) <= MinY (Bounds Ex.empty))
  /\ countNRGBAColors Ex.empty = (0, false, false, true)
  /\ paletteFromNRGBA Ex.rangeKeys Ex.longSort Ex.empty 0 = []
  /\ attemptedNRGBA Ex.paletteIndex Ex.rangeKeys Ex.longSort Ex.empty
     = [("error encode gray"%string, ImgGray (nrgba2gray Ex.empty));
        ("error encode paletted"%string,
         ImgPaletted (toPaletted Ex.paletteIndex ColNRGBA Ex.empty []))]
  /\ exists msg,
       Ex.encodeStrict (ImgNRGBA Ex.empty) = inl msg
       /\ variantsNRGBA Ex.encodeStrict Ex.paletteIndex Ex.rangeKeys Ex.longSort
            Ex.empty
          = Err (Wrapped "error encode src" (External msg))
       /\ optimizeNRGBA Ex.encodeStrict Ex.paletteIndex Ex.rangeKeys Ex.longSort
            Ex.empty
          = Err (Wrapped "error encode src" (External msg)).
Proof.
  split; [left; simpl; lia|].
  destruct (empty_image_variants Ex.encodeStrict Ex.paletteIndex Ex.rangeKeys
              Ex.longSort Ex.empty) as (Hcount & Hpal & Hatt & Hvariants).
  - apply rangeKeys_enumerates.
  - left. simpl. lia.
  - split_and!; [exact Hcount|exact Hpal|exact Hatt|].
    apply Hvariants, encodeStrict_refusesEmpty.
Defined.

(** * The further properties on concrete inputs *)

(** Witness of X2: three pixels, two colours. *)
Lemma color_count_bounds_witness :
  wellFormed (Bounds Ex.opaque3)
  /\ 0 <= (countNRGBAColors Ex.opaque3).1.1.1
          <= Dx (Bounds Ex.opaque3) * Dy (Bounds Ex.opaque3)
  /\ ((countNRGBAColors Ex.opaque3).1.1.1 = 0
      <-> Dx (Bounds Ex.opaque3) = 0 \/ Dy (Bounds Ex.opaque3) = 0).
Proof.
  assert (wellFormed (Bounds Ex.opaque3)) as Hwf by (split; vm_compute; discriminate).
  split; [exact Hwf|]. exact (color_count_bounds Ex.opaque3 Hwf).
Defined.

(** Witness of X3. *)
Lemma paletteFromNRGBA_exact_witness :
  NoDup (paletteFromNRGBA Ex.rangeKeys Ex.longSort Ex.opaque3 0)
  /\ Z.of_nat (length (paletteFromNRGBA Ex.rangeKeys Ex.longSort Ex.opaque3 0)) = 2.
Proof.
  destruct (paletteFromNRGBA_exact Ex.rangeKeys Ex.longSort Ex.opaque3 0
              rangeKeys_enumerates longSort_rearranges) as (Hnd & _ & Hlen & _).
  split; [exact Hnd|exact Hlen].
Defined.

(** Witness of X4. *)
Lemma paletteFromGray_exact_witness :
  NoDup (paletteFromGray Ex.rangeKeys Ex.longSort Ex.gray3 0)
  /\ Z.of_nat (length (paletteFromGray Ex.rangeKeys Ex.longSort Ex.gray3 0)) = 2.
Proof.
  destruct (paletteFromGray_exact Ex.rangeKeys Ex.longSort Ex.gray3 0
              rangeKeys_enumerates longSort_rearranges) as (Hnd & _ & Hlen & _).
  split; [exact Hnd|exact Hlen].
Defined.

(** Witness of X6. *)
Lemma nrgba2gray_lossless_witness :
  countNRGBAColors Ex.grayOpaque2 = (2, false, false, true)
  /\ grayNRGBA <$> scan (nrgba2gray Ex.grayOpaque2) = scan Ex.grayOpaque2.
Proof.
  split; [vm_compute; reflexivity|].
  apply (nrgba2gray_lossless Ex.grayOpaque2); vm_compute; reflexivity.
Defined.

(** Witness of X8. *)
Lemma paletted2gray_lossless_witness :
  isGrayPalette (Palette Ex.grayPal) = true
  /\ exists gray : raster byte,
       paletted2gray Ex.grayPal = Ok gray
       /\ forall x y, inRect (Bounds (Pix Ex.grayPal)) x y = true ->
            exists c : Color,
              Palette Ex.grayPal !! colorIndex (At (Pix Ex.grayPal) x y) = Some c
              /\ inRect (Bounds gray) (x - MinX (Bounds (Pix Ex.grayPal)))
                        (y - MinY (Bounds (Pix Ex.grayPal))) = true
              /\ Color_RGBA (ColGray (At gray (x - MinX (Bounds (Pix Ex.grayPal)))
                                              (y - MinY (Bounds (Pix Ex.grayPal)))))
                 = Color_RGBA c.
Proof.
  split; [vm_compute; reflexivity|].
  apply (paletted2gray_lossless Ex.grayPal).
  - vm_compute. reflexivity.
  - apply Forall_forall. apply (bool_decide_unpack _). vm_compute. exact I.
Defined.

(** Witness of X9. *)
Lemma gray_variant_iff_witness :
  variantsNRGBA Ex.encode Ex.paletteIndex Ex.rangeKeys Ex.longSort Ex.grayOpaque2
  = Ok [([x01; x02; x03], "src (nrgba/rgb)"%string); ([x01; x02], "gray"%string);
        ([x01], "paletted"%string)]
  /\ forall c, c ∈ scan Ex.grayOpaque2 -> cR c = cG c /\ cR c = cB c /\ cA c = xff.
Proof.
  assert (variantsNRGBA Ex.encode Ex.paletteIndex Ex.rangeKeys Ex.longSort Ex.grayOpaque2
          = Ok [([x01; x02; x03], "src (nrgba/rgb)"%string);
                ([x01; x02], "gray"%string); ([x01], "paletted"%string)]) as Hvs
    by (vm_compute; reflexivity).
  split; [exact Hvs|].
  apply (gray_variant_iff Ex.encode Ex.paletteIndex Ex.rangeKeys Ex.longSort
           Ex.grayOpaque2 _ Hvs).
  exists [x01; x02]. apply (bool_decide_unpack _). vm_compute. exact I.
Defined.

(** Witness of X10. *)
Lemma paletted_source_variants_witness :
  variantsPaletted Ex.encode Ex.grayPal
  = Ok [([x01], "src (paletted)"%string); ([x01; x02], "gray"%string)]
  /\ Forall opaqueGray (Palette Ex.grayPal).
Proof.
  assert (variantsPaletted Ex.encode Ex.grayPal
          = Ok [([x01], "src (paletted)"%string); ([x01; x02], "gray"%string)]) as Hvs
    by (vm_compute; reflexivity).
  split; [exact Hvs|].
  apply (paletted_source_variants Ex.encode Ex.grayPal _ Hvs).
  exists [x01; x02]. apply (bool_decide_unpack _). vm_compute. exact I.
Defined.

(** Witness of X12: one transparent colour and two opaque ones. *)
Lemma non_opaque_colors_first_witness :
  exists k0 k1 : nat,
    (k0 <= k1 <= length (paletteFromNRGBA Ex.rangeKeys Ex.longSort Ex.oneClear 0))%nat
    /\ forall (i : nat) (c : NRGBA),
         paletteFromNRGBA Ex.rangeKeys Ex.longSort Ex.oneClear 0 !! i
         = Some (ColNRGBA c) ->
         ((i < k0)%nat <-> cA c = x00) /\ ((i < k1)%nat <-> cA c ≠ xff).
Proof.
  apply (non_opaque_colors_first Ex.rangeKeys Ex.longSort Ex.oneClear 0).
  left. vm_compute. lia.
Defined.

(** Witness of X14. *)
Lemma Optimize_touches_only_its_paths_witness :
  (Optimize Ex.decode Ex.encode Ex.unpremultiply Ex.paletteIndex Ex.rangeKeys
            Ex.rangeKeys Ex.longSort Ex.ioOk Ex.assets "a.png").1
    !! "a.txt"%string
  = Ex.assets !! "a.txt"%string.
Proof.
  apply (Optimize_touches_only_its_paths Ex.decode Ex.encode Ex.unpremultiply
           Ex.paletteIndex Ex.rangeKeys Ex.rangeKeys Ex.longSort Ex.ioOk Ex.assets
           "a.png" "a.txt"); discriminate.
Defined.

(** Witness of X15: a file of three bytes replaced by a variant of two. *)
Lemma Optimize_success_state_witness :
  (Optimize Ex.decode Ex.encode Ex.unpremultiply Ex.paletteIndex Ex.rangeKeys
            Ex.rangeKeys Ex.longSort Ex.ioOk Ex.file3 "a.png").2 = Ok 1
  /\ ((Optimize Ex.decode Ex.encode Ex.unpremultiply Ex.paletteIndex Ex.rangeKeys
                Ex.rangeKeys Ex.longSort Ex.ioOk Ex.file3 "a.png").1 = Ex.file3
      /\ 1 = 0
      \/ exists content opt : list byte,
           Ex.file3 !! "a.png"%string = Some content
           /\ (length opt < length content)%nat
           /\ 1 = U64.wrap (Z.of_nat (length content) - Z.of_nat (length opt))
           /\ (Optimize Ex.decode Ex.encode Ex.unpremultiply Ex.paletteIndex
                        Ex.rangeKeys Ex.rangeKeys Ex.longSort Ex.ioOk Ex.file3
                        "a.png").1
              = delete ("a.png" +:+ ".pngtmp")%string
                       (<["a.png"%string := opt]> Ex.file3)).
Proof.
  assert ((Optimize Ex.decode Ex.encode Ex.unpremultiply Ex.paletteIndex Ex.rangeKeys
                    Ex.rangeKeys Ex.longSort Ex.ioOk Ex.file3 "a.png").2 = Ok 1) as Hok
    by (vm_compute; reflexivity).
  split; [exact Hok|].
  exact (Optimize_success_state Ex.decode Ex.encode Ex.unpremultiply Ex.paletteIndex
           Ex.rangeKeys Ex.rangeKeys Ex.longSort Ex.ioOk Ex.file3 "a.png" 1 Hok).
Defined.

(** No path of the example directory ends in [".pngtmp"]. *)
Lemma assets_no_temporary (p : string) :
  Ex.assets !! (p +:+ ".pngtmp")%string = None.
Proof.
  unfold Ex.assets, Ex.file3.
  rewrite lookup_insert_ne, lookup_singleton_ne; [done| |];
    intros Heq; apply (f_equal String.length) in Heq;
    rewrite string_app_length in Heq; simpl in Heq; lia.
Qed.

(** Witness of X17: one file shrinks from three bytes to two. *)
Lemma Run_reports_size_reduction_witness :
  Run Ex.decode Ex.encode Ex.unpremultiply Ex.paletteIndex Ex.rangeKeys
      Ex.rangeKeys Ex.longSort Ex.unicodeLower Ex.Rel unix (fun _ => Ex.ioOk)
      Ex.ao0 Ex.assets Ex.calls
  = (<["a.png"%string := [x01; x02]]> Ex.assets,
     mkAssetsOptimizer "." (Stats.mk 1 1), Ok tt)
  /\ Stats.n (Stats.mk 1 1)
     = U64.wrap (Stats.n (stats Ex.ao0)
                 + (totalSize Ex.assets
                    - totalSize (<["a.png"%string := [x01; x02]]> Ex.assets))).
Proof.
  assert (Run Ex.decode Ex.encode Ex.unpremultiply Ex.paletteIndex Ex.rangeKeys
              Ex.rangeKeys Ex.longSort Ex.unicodeLower Ex.Rel unix (fun _ => Ex.ioOk)
              Ex.ao0 Ex.assets Ex.calls
          = (<["a.png"%string := [x01; x02]]> Ex.assets,
             mkAssetsOptimizer "." (Stats.mk 1 1), Ok tt)) as Hrun
    by (vm_compute; reflexivity).
  split; [exact Hrun|].
  refine (proj1 (Run_reports_size_reduction Ex.decode Ex.encode Ex.unpremultiply
                   Ex.paletteIndex Ex.rangeKeys Ex.rangeKeys Ex.longSort
                   Ex.unicodeLower Ex.Rel unix (fun _ => Ex.ioOk) Ex.ao0 Ex.assets
                   Ex.calls _ _ assets_no_temporary _ Hrun)).
  vm_compute. split; [discriminate|reflexivity].
Defined.

(** Witness of X18: the text file is not touched. *)
Lemma Run_touches_only_png_witness :
  (Run Ex.decode Ex.encode Ex.unpremultiply Ex.paletteIndex Ex.rangeKeys
       Ex.rangeKeys Ex.longSort Ex.unicodeLower Ex.Rel unix (fun _ => Ex.ioOk)
       Ex.ao0 Ex.assets Ex.calls).1.1 !! "a.txt"%string
  = Ex.assets !! "a.txt"%string.
Proof.
  apply (Run_touches_only_png Ex.decode Ex.encode Ex.unpremultiply
           Ex.paletteIndex Ex.rangeKeys Ex.rangeKeys Ex.longSort
           Ex.unicodeLower Ex.Rel unix (fun _ => Ex.ioOk) Ex.ao0 Ex.assets
           Ex.calls "a.txt").
  intros q info Hin Hreg Hext. unfold Ex.calls in Hin.
  repeat (apply elem_of_cons in Hin as [Hin|Hin];
          [injection Hin as -> ->; first [discriminate Hreg|discriminate Hext|idtac]|]).
  - split; discriminate.
  - by apply elem_of_nil in Hin.
Defined.

(** Witness of X19. *)
Lemma paletted_variant_iff_witness :
  variantsNRGBA Ex.encode Ex.paletteIndex Ex.rangeKeys Ex.longSort Ex.opaque3
  = Ok [([x01; x02; x03], "src (nrgba/rgb)"%string); ([x01], "paletted"%string)]
  /\ (size (list_to_set (scan Ex.opaque3) : gset NRGBA) <= 256)%nat.
Proof.
  assert (variantsNRGBA Ex.encode Ex.paletteIndex Ex.rangeKeys Ex.longSort Ex.opaque3
          = Ok [([x01; x02; x03], "src (nrgba/rgb)"%string);
                ([x01], "paletted"%string)]) as Hvs
    by (vm_compute; reflexivity).
  split; [exact Hvs|].
  apply (paletted_variant_iff Ex.encode Ex.paletteIndex Ex.rangeKeys Ex.longSort
           Ex.opaque3 _ rangeKeys_enumerates longSort_rearranges Hvs).
  exists [x01]. apply (bool_decide_unpack _). vm_compute. exact I.
Defined.

(** Witness of X20. *)
Lemma failed_rename_keeps_complete_temporary_witness :
  (PNGOptimizer_savePNG Ex.ioRenameFails Ex.file3 "a.png" [x01; x02]).2
  = Err (External "rename")
  /\ (PNGOptimizer_savePNG Ex.ioRenameFails Ex.file3 "a.png" [x01; x02]).1
     = <[("a.png" +:+ ".pngtmp")%string := [x01; x02]]> Ex.file3
  /\ (PNGOptimizer_savePNG Ex.ioRenameFails Ex.file3 "a.png" [x01; x02]).1
       !! "a.png"%string
     = Ex.file3 !! "a.png"%string.
Proof.
  apply (failed_rename_keeps_complete_temporary Ex.ioRenameFails Ex.file3 "a.png"
           [x01; x02]); reflexivity.
Defined.

(** Witness of X21. *)
Lemma selected_no_longer_than_direct_witness :
  optimizeImage Ex.encode Ex.unpremultiply Ex.paletteIndex Ex.rangeKeys Ex.rangeKeys
                Ex.longSort (ImgNRGBA Ex.opaque3)
  = Ok ([x01], "paletted"%string)
  /\ exists (vs : variantsList) (b0 : list byte),
       candidates Ex.encode Ex.unpremultiply Ex.paletteIndex Ex.rangeKeys
                  Ex.rangeKeys Ex.longSort (ImgNRGBA Ex.opaque3) = Ok vs
       /\ ([x01], "paletted"%string) ∈ vs
       /\ Ex.encode (directImage Ex.unpremultiply (ImgNRGBA Ex.opaque3)) = inr b0
       /\ (length [x01] <= length b0)%nat
       /\ (length [x01] = length b0 ->
           ([x01], "paletted"%string) = (b0, directLabel (ImgNRGBA Ex.opaque3))).
Proof.
  assert (optimizeImage Ex.encode Ex.unpremultiply Ex.paletteIndex Ex.rangeKeys
                        Ex.rangeKeys Ex.longSort (ImgNRGBA Ex.opaque3)
          = Ok ([x01], "paletted"%string)) as Hopt by (vm_compute; reflexivity).
  split; [exact Hopt|].
  exact (selected_no_longer_than_direct Ex.encode Ex.unpremultiply Ex.paletteIndex
           Ex.rangeKeys Ex.rangeKeys Ex.longSort (ImgNRGBA Ex.opaque3) [x01]
           "paletted" Hopt).
Defined.

(** Witness of X22: the levels 20 (twice) and 10 (once). *)
Lemma small_gray_palette_follows_enumeration_witness :
  countGrayColors Ex.gray3 = 2
  /\ paletteFromGray Ex.rangeKeys Ex.longSort Ex.gray3 0
     = ColGray <$> reverse (Ex.rangeKeys (frequencies (scan Ex.gray3))).
Proof.
  split; [vm_compute; reflexivity|].
  apply (small_gray_palette_follows_enumeration Ex.rangeKeys Ex.longSort Ex.gray3 0).
  - apply rangeKeys_enumerates.
  - vm_compute. discriminate.
  - intros a b Ha Hb Hab.
    change (scan Ex.gray3) with [x14; x14; x0a] in Ha, Hb.
    repeat (apply elem_of_cons in Ha as [->|Ha]);
      try (by apply elem_of_nil in Ha);
      repeat (apply elem_of_cons in Hb as [->|Hb]);
      try (by apply elem_of_nil in Hb);
      first [done|vm_compute; discriminate].
Defined.

(** Witness of X23: a PNG entry whose file cannot be opened. *)
Lemma Run_stops_at_first_error_witness :
  Run Ex.decode Ex.encode Ex.unpremultiply Ex.paletteIndex Ex.rangeKeys
      Ex.rangeKeys Ex.longSort Ex.unicodeLower Ex.Rel unix (fun _ => Ex.ioOk)
      Ex.ao0 Ex.assets
      ([] ++ ("b.png"%string, mkFileInfo true, None) :: Ex.calls)
  = (Ex.assets, Ex.ao0,
     Err (Wrapped "PNGOptimizer optimize error" (External "open"))).
Proof.
  refine (proj1 (Run_stops_at_first_error Ex.decode Ex.encode Ex.unpremultiply
                   Ex.paletteIndex Ex.rangeKeys Ex.rangeKeys Ex.longSort
                   Ex.unicodeLower Ex.Rel unix (fun _ => Ex.ioOk) Ex.ao0 Ex.assets
                   [] Ex.calls "b.png" (mkFileInfo true) None Ex.assets Ex.assets
                   Ex.ao0 Ex.ao0 _ _ _)).
  - reflexivity.
  - vm_compute. reflexivity.
Defined.

Lemma assets_small (p : string) (content : list byte) :
  Ex.assets !! p = Some content -> Z.of_nat (length content) < 2 ^ 63.
Proof.
  unfold Ex.assets, Ex.file3.
  intros [[_ <-]|[_ [_ <-]%lookup_singleton_Some]]%lookup_insert_Some; simpl; lia.
Qed.

(** Witness of X24: one file out of two has changed. *)
Lemma Run_counts_changed_files_witness :
  Run Ex.decode Ex.encode Ex.unpremultiply Ex.paletteIndex Ex.rangeKeys
      Ex.rangeKeys Ex.longSort Ex.unicodeLower Ex.Rel unix (fun _ => Ex.ioOk)
      Ex.ao0 Ex.assets Ex.calls
  = (<["a.png"%string := [x01; x02]]> Ex.assets,
     mkAssetsOptimizer "." (Stats.mk 1 1), Ok tt)
  /\ Stats.c (Stats.mk 1 1)
     = U64.wrap (Stats.c (stats Ex.ao0)
                 + Z.of_nat (size (changedFiles Ex.assets
                                     (<["a.png"%string := [x01; x02]]> Ex.assets)))).
Proof.
  assert (Run Ex.decode Ex.encode Ex.unpremultiply Ex.paletteIndex Ex.rangeKeys
              Ex.rangeKeys Ex.longSort Ex.unicodeLower Ex.Rel unix (fun _ => Ex.ioOk)
              Ex.ao0 Ex.assets Ex.calls
          = (<["a.png"%string := [x01; x02]]> Ex.assets,
             mkAssetsOptimizer "." (Stats.mk 1 1), Ok tt)) as Hrun
    by (vm_compute; reflexivity).
  split; [exact Hrun|].
  apply (Run_counts_changed_files Ex.decode Ex.encode Ex.unpremultiply
           Ex.paletteIndex Ex.rangeKeys Ex.rangeKeys Ex.longSort
           Ex.unicodeLower Ex.Rel unix (fun _ => Ex.ioOk) Ex.ao0 Ex.assets
           Ex.calls (<["a.png"%string := [x01; x02]]> Ex.assets)
           (mkAssetsOptimizer "." (Stats.mk 1 1))
           assets_no_temporary assets_small).
  - apply (bool_decide_unpack _). vm_compute. exact I.
  - vm_compute. split; [discriminate|reflexivity].
  - exact Hrun.
Defined.

(** Witness of X25: one of the two pixels is not gray. *)
Lemma rgba_source_redrawn_at_origin_witness :
  candidates Ex.encode Ex.unpremultiply Ex.paletteIndex Ex.rangeKeys Ex.rangeKeys
             Ex.longSort (ImgRGBA Ex.rgba2)
  = Ok [([x01; x02; x03], "src (nrgba/rgb)"%string); ([x01], "paletted"%string)]
  /\ scan (rgba2nrgba Ex.unpremultiply Ex.rgba2)
     = Ex.unpremultiply <$> scan Ex.rgba2
  /\ (countNRGBAColors (rgba2nrgba Ex.unpremultiply Ex.rgba2)).1.1.1
     = Z.of_nat (size (list_to_set (Ex.unpremultiply <$> scan Ex.rgba2)
                       : gset NRGBA)).
Proof.
  assert (candidates Ex.encode Ex.unpremultiply Ex.paletteIndex Ex.rangeKeys
                     Ex.rangeKeys Ex.longSort (ImgRGBA Ex.rgba2)
          = Ok [([x01; x02; x03], "src (nrgba/rgb)"%string);
                ([x01], "paletted"%string)]) as Hvs by (vm_compute; reflexivity).
  split; [exact Hvs|].
  destruct (rgba_source_redrawn_at_origin Ex.encode Ex.unpremultiply
              Ex.paletteIndex Ex.rangeKeys Ex.rangeKeys Ex.longSort Ex.rgba2 _ Hvs)
    as (Hscan & Hn & _).
  split; [exact Hscan|exact Hn].
Defined.

(** Witness of X26: the half-transparent pixel between two opaque ones. *)
Lemma indexed_truecolor_faithful_witness :
  ((countNRGBAColors Ex.mixed3).1.1.1 <= 256
   /\ inRect (Bounds Ex.mixed3) 1 0 = true)
  /\ let drawn := toPaletted drawIndex ColNRGBA Ex.mixed3
                    (paletteFromNRGBA Ex.rangeKeys Ex.longSort Ex.mixed3 3) in
     let k := colorIndex (At (Pix drawn) (1 - MinX (Bounds Ex.mixed3))
                                         (0 - MinY (Bounds Ex.mixed3))) in
     inRect (Bounds (Pix drawn)) (1 - MinX (Bounds Ex.mixed3))
            (0 - MinY (Bounds Ex.mixed3)) = true
     /\ exists e : NRGBA,
          Palette drawn !! k = Some (ColNRGBA e)
          /\ e ∈ scan Ex.mixed3
          /\ cA e = cA (At Ex.mixed3 1 0)
          /\ closeRGBA (Color_RGBA (ColNRGBA (At Ex.mixed3 1 0)))
                       (Color_RGBA (ColNRGBA e))
          /\ (2 <= u8 (cA (At Ex.mixed3 1 0)) -> e = At Ex.mixed3 1 0)
          /\ forall j q, (j < k)%nat -> Palette drawn !! j = Some q ->
               ~ closeRGBA (Color_RGBA (ColNRGBA (At Ex.mixed3 1 0)))
                           (Color_RGBA q).
Proof.
  assert ((countNRGBAColors Ex.mixed3).1.1.1 <= 256) as Hcount
    by (vm_compute; discriminate).
  assert (inRect (Bounds Ex.mixed3) 1 0 = true) as Hin by reflexivity.
  split; [split; [exact Hcount|exact Hin]|].
  exact (indexed_truecolor_faithful Ex.rangeKeys Ex.longSort Ex.mixed3 3
           rangeKeys_enumerates longSort_rearranges Hcount 1 0 Hin).
Defined.

(** The proviso on the alpha in X26 is needed: two colours of alpha 1 whose
    [RGBA()] values are one apart are drawn with the same index. *)
Example faint_colors_share_an_index :
  (countNRGBAColors Ex.twoFaint).1.1.1 = 2
  /\ Color_RGBA (ColNRGBA Ex.faint0) = (100, 100, 100, 257)
  /\ Color_RGBA (ColNRGBA Ex.faint1) = (101, 101, 101, 257)
  /\ sumSqDiff (Color_RGBA (ColNRGBA Ex.faint0)) (Color_RGBA (ColNRGBA Ex.faint1))
     = 0
  /\ At (Pix (toPaletted drawIndex ColNRGBA Ex.twoFaint
                (paletteFromNRGBA Ex.rangeKeys Ex.longSort Ex.twoFaint 2))) 0 0
     = At (Pix (toPaletted drawIndex ColNRGBA Ex.twoFaint
                  (paletteFromNRGBA Ex.rangeKeys Ex.longSort Ex.twoFaint 2))) 1 0.
Proof. split_and!; vm_compute; reflexivity. Qed.

(** Witness of X27: the third sample, of the rarer level. *)
Lemma indexed_gray_lossless_witness :
  inRect (Bounds Ex.gray3) 2 0 = true
  /\ inRect (Bounds (Pix (toPaletted drawIndex ColGray Ex.gray3
                            (paletteFromGray Ex.rangeKeys Ex.longSort Ex.gray3 2))))
            (2 - MinX (Bounds Ex.gray3)) (0 - MinY (Bounds Ex.gray3)) = true
  /\ Palette (toPaletted drawIndex ColGray Ex.gray3
                (paletteFromGray Ex.rangeKeys Ex.longSort Ex.gray3 2))
       !! colorIndex (At (Pix (toPaletted drawIndex ColGray Ex.gray3
                                 (paletteFromGray Ex.rangeKeys Ex.longSort
                                    Ex.gray3 2)))
                         (2 - MinX (Bounds Ex.gray3)) (0 - MinY (Bounds Ex.gray3)))
     = Some (ColGray (At Ex.gray3 2 0)).
Proof.
  assert (inRect (Bounds Ex.gray3) 2 0 = true) as Hin by reflexivity.
  split; [exact Hin|].
  exact (indexed_gray_lossless Ex.rangeKeys Ex.longSort Ex.gray3 2
           rangeKeys_enumerates longSort_rearranges 2 0 Hin).
Defined.

(** Witness of X28: red twice and blue once, both opaque. *)
Lemma small_palette_follows_enumeration_witness :
  (countNRGBAColors Ex.opaque3).1.1.1 = 2
  /\ paletteFromNRGBA Ex.rangeKeys Ex.longSort Ex.opaque3 0
     = ColNRGBA <$> reverse (Ex.rangeKeys (frequencies (scan Ex.opaque3))).
Proof.
  split; [vm_compute; reflexivity|].
  assert (forall a, a ∈ scan Ex.opaque3 -> a = Ex.red \/ a = Ex.blue) as Hpix.
  { intros a Ha. change (scan Ex.opaque3) with [Ex.red; Ex.red; Ex.blue] in Ha.
    repeat (apply elem_of_cons in Ha as [->|Ha]); auto.
    by apply elem_of_nil in Ha. }
  apply (small_palette_follows_enumeration Ex.rangeKeys Ex.longSort Ex.opaque3 0).
  - apply rangeKeys_enumerates.
  - vm_compute. discriminate.
  - intros a b [->| ->]%Hpix [->| ->]%Hpix; reflexivity.
  - intros a b [->| ->]%Hpix [->| ->]%Hpix Hab;
      first [done|vm_compute; discriminate].
Defined.

(** Witness of X29. *)
Lemma empty_gray_image_variants_witness :
  countGrayColors Ex.emptyGray = 0
  /\ paletteFromGray Ex.rangeKeys Ex.longSort Ex.emptyGray 0 = []
  /\ attempted Ex.unpremultiply Ex.paletteIndex Ex.rangeKeys Ex.rangeKeys
       Ex.longSort (ImgGray Ex.emptyGray)
     = [("error encode paletted"%string,
         ImgPaletted (toPaletted Ex.paletteIndex ColGray Ex.emptyGray []))]
  /\ exists msg,
       Ex.encodeStrict (ImgGray Ex.emptyGray) = inl msg
       /\ variantsGray Ex.encodeStrict Ex.paletteIndex Ex.rangeKeys Ex.longSort
            Ex.emptyGray
          = Err (Wrapped "error encode src" (External msg))
       /\ optimizeGray Ex.encodeStrict Ex.paletteIndex Ex.rangeKeys Ex.longSort
            Ex.emptyGray
          = Err (Wrapped "error encode src" (External msg)).
Proof.
  destruct (empty_gray_image_variants Ex.encodeStrict Ex.unpremultiply
              Ex.paletteIndex Ex.rangeKeys Ex.rangeKeys Ex.longSort Ex.emptyGray
              rangeKeys_enumerates)
    as (Hc & Hp & Ha & Hv).
  - left. vm_compute. discriminate.
  - split; [exact Hc|]. split; [exact Hp|]. split; [exact Ha|].
    apply Hv, encodeStrict_refusesEmpty.
Defined.

(** Witness of X30: an upper-case extension. *)
Lemma walkerFn_png_any_case_witness :
  ("a" +:+ "." +:+ "PNG")%string = "a.PNG"%string
  /\ walkerFn Ex.decode Ex.encode Ex.unpremultiply Ex.paletteIndex Ex.rangeKeys
       Ex.rangeKeys Ex.longSort Ex.unicodeLower Ex.Rel windows (fun _ => Ex.ioOk)
       Ex.ao0 (<["a.PNG"%string := [x0a; x0b; x0c]]> ∅)
       ("a" +:+ "." +:+ "PNG") (mkFileInfo true) None
     = (<["a.PNG"%string := [x01; x02]]> ∅,
        mkAssetsOptimizer "." (Stats.mk 1 1), Ok tt).
Proof.
  split; [reflexivity|].
  rewrite (walkerFn_png_any_case Ex.decode Ex.encode Ex.unpremultiply
             Ex.paletteIndex Ex.rangeKeys Ex.rangeKeys Ex.longSort
             Ex.unicodeLower Ex.Rel windows (fun _ => Ex.ioOk) Ex.ao0
             (<["a.PNG"%string := [x0a; x0b; x0c]]> ∅) "a" "PNG" (mkFileInfo true)).
  - vm_compute. reflexivity.
  - vm_compute. reflexivity.
  - reflexivity.
  - by eexists.
Defined.
